(** * Even3 downloader: a shallow embedding of [even3_gui_downloader_fast.py]

    The development follows the source file top to bottom: the pure URL and
    file-name helpers, the link harvester, the fetcher, the per-URL job and
    the manifest loop of [App.worker].  Python [str] values are sequences of
    Unicode code points; files are byte sequences kept in a finite map from
    path to content; the network, the browser and the thread scheduler are
    explicit arguments of the functions that talk to them. *)

From Stdlib Require Import ZArith NArith Lia Strings.String Strings.Ascii Strings.Byte.
From stdpp Require Import base option list gmap sets sorting.

Local Open Scope bool_scope.

(** ** Python strings *)

(** A code point. *)
Definition char : Type := N.
Bind Scope N_scope with char.
(** A Python [str]. *)
Definition str : Type := list N.

(** [u "..."] is the Python literal with the same (ASCII) text. *)
Definition u (s : string) : str := map N_of_ascii (list_ascii_of_string s).

Definition chr_is (n : N) (c : char) : bool := N.eqb c n.

(** [c in chars] for a literal character set. *)
Definition char_in (chars : str) (c : char) : bool := existsb (N.eqb c) chars.

(** [str.isspace] on one code point, which is also what [\s] matches in a
    [str] pattern: the white-space table of CPython's Unicode database. *)
Definition isspace (c : char) : bool :=
  ((9 <=? c) && (c <=? 13) || (28 <=? c) && (c <=? 32)
   || (c =? 133) || (c =? 160) || (c =? 5760)
   || (8192 <=? c) && (c <=? 8202)
   || (c =? 8232) || (c =? 8233) || (c =? 8239) || (c =? 8287)
   || (c =? 12288))%N.

Definition is_ascii (c : char) : bool := (c <? 128)%N.
Definition ascii_digit (c : char) : bool := (48 <=? c)%N && (c <=? 57)%N.
Definition ascii_upper (c : char) : bool := (65 <=? c)%N && (c <=? 90)%N.
Definition ascii_lower_case (c : char) : bool := (97 <=? c)%N && (c <=? 122)%N.
Definition ascii_alpha (c : char) : bool := ascii_upper c || ascii_lower_case c.

(** [str.lower] restricted to ASCII letters. *)
Definition ascii_tolower (c : char) : char :=
  if ascii_upper c then (c + 32)%N else c.

Fixpoint drop_while (p : char -> bool) (s : str) : str :=
  match s with
  | c :: t => if p c then drop_while p t else s
  | [] => []
  end.

Fixpoint take_while (p : char -> bool) (s : str) : str :=
  match s with
  | c :: t => if p c then c :: take_while p t else []
  | [] => []
  end.

Definition lstrip_by (p : char -> bool) (s : str) : str := drop_while p s.
Definition rstrip_by (p : char -> bool) (s : str) : str :=
  rev (drop_while p (rev s)).
Definition strip_by (p : char -> bool) (s : str) : str :=
  rstrip_by p (lstrip_by p s).

(** [s.strip()], [s.rstrip()] and [s.strip("/")]. *)
Definition strip (s : str) : str := strip_by isspace s.
Definition rstrip (s : str) : str := rstrip_by isspace s.
Definition strip_slash (s : str) : str := strip_by (chr_is 47) s.

(** [s[:n]] for a Python integer [n]: a negative bound counts from the end. *)
Definition slice_to (s : str) (n : Z) : str :=
  if (0 <=? n)%Z then take (Z.to_nat n) s
  else take (Z.to_nat (Z.of_nat (length s) + n)) s.

(** [re.sub(r"[class]+", rep, s)]: every maximal run of characters of the
    class is replaced by one copy of [rep]. *)
Fixpoint sub_runs (p : char -> bool) (rep : str) (in_run : bool) (s : str) : str :=
  match s with
  | [] => []
  | c :: t =>
      if p c then (if in_run then sub_runs p rep true t
                   else rep ++ sub_runs p rep true t)
      else c :: sub_runs p rep false t
  end.

(** [s.split(sep)[-1]]: the text after the last separator. *)
Fixpoint last_segment_from (sep : char) (cur : str) (s : str) : str :=
  match s with
  | [] => cur
  | c :: t => if N.eqb c sep then last_segment_from sep t t
              else last_segment_from sep cur t
  end.
Definition last_segment (sep : char) (s : str) : str := last_segment_from sep s s.

(** [s.split(sep)[0]] and [s.split(sep, 1)[0]]: the text before the first
    separator. *)
Definition before_first (sep : char) (s : str) : str :=
  take_while (fun c => negb (N.eqb c sep)) s.

(** [s.replace("--", " - ")]: occurrences are found left to right and do
    not overlap. *)
Fixpoint replace_double_hyphen (s : str) : str :=
  match s with
  | a :: ((b :: t) as t1) =>
      if (a =? 45)%N && (b =? 45)%N then u " - " ++ replace_double_hyphen t
      else a :: replace_double_hyphen t1
  | _ => s
  end.

(** [s.replace("-", " ")]. *)
Definition replace_hyphen (s : str) : str :=
  map (fun c => if (c =? 45)%N then 32%N else c) s.

(** ** The parts of the Python runtime that are tables or parsers

    They are taken as given: the Unicode tables behind [\d] and the
    case-insensitive flag outside ASCII, percent-decoding, the HTML parser
    and the CSV writer.  On ASCII text nothing below consults the first
    two. *)
Class PyRuntime := {
  (** a non-ASCII code point of Unicode category Nd *)
  unicode_Nd : char -> bool;
  (** [re.I] equality of two code points, one of them not ASCII *)
  unicode_ci : char -> char -> bool;
  (** [urllib.parse.unquote] of a string that contains a percent sign *)
  percent_decode : str -> str;
  (** the [href] values of [soup.find_all("a", href=True)], in order *)
  soup_hrefs : str -> list str;
  (** the bytes [csv.writer(f).writerow(fields)] puts in a utf-8 file *)
  csv_line : list str -> list byte
}.

Section Utilities.
Context {rt : PyRuntime}.

(** [\d] in a [str] pattern. *)
Definition re_digit (c : char) : bool :=
  if is_ascii c then ascii_digit c else unicode_Nd c.

(** A literal pattern character [p] against [c] under [re.I]. *)
Definition ci_eq (p c : char) : bool :=
  if is_ascii p && is_ascii c then N.eqb (ascii_tolower p) (ascii_tolower c)
  else unicode_ci p c.

(** *** A small backtracking matcher

    A pattern is a function from the remaining input, the groups captured
    so far and a continuation; alternatives are tried in the order the [re]
    module tries them (greedy first). *)
Definition matcher : Type :=
  str -> list str -> (str -> list str -> option (list str)) -> option (list str).

Definition re_chr (p : char -> bool) : matcher := fun s caps k =>
  match s with
  | c :: t => if p c then k t caps else None
  | [] => None
  end.

Definition re_seq (m1 m2 : matcher) : matcher := fun s caps k =>
  m1 s caps (fun s' caps' => m2 s' caps' k).

Definition re_eps : matcher := fun s caps k => k s caps.

(** [m?], greedy. *)
Definition re_opt (m : matcher) : matcher := fun s caps k =>
  match m s caps k with
  | Some r => Some r
  | None => k s caps
  end.

(** [[class]*], greedy: the longest run first, then shorter ones. *)
Fixpoint re_star (p : char -> bool) (s : str) (caps : list str)
    (k : str -> list str -> option (list str)) : option (list str) :=
  match s with
  | c :: t =>
      if p c then
        match re_star p t caps k with
        | Some r => Some r
        | None => k s caps
        end
      else k s caps
  | [] => k s caps
  end.

(** [[class]{n,}]. *)
Fixpoint re_at_least (n : nat) (p : char -> bool) : matcher :=
  match n with
  | O => re_star p
  | S n' => re_seq (re_chr p) (re_at_least n' p)
  end.

(** A literal, compared case-insensitively when [ci] is set. *)
Fixpoint re_lit (ci : bool) (lit : str) : matcher :=
  match lit with
  | [] => re_eps
  | p :: lit' =>
      re_seq (re_chr (if ci then ci_eq p else N.eqb p)) (re_lit ci lit')
  end.

(** A capturing group: the text consumed by [m] is appended to the groups. *)
Definition re_group (m : matcher) : matcher := fun s caps k =>
  m s caps (fun s' caps' =>
    k s' (caps' ++ [take (length s - length s') s])).

(** [$] without [re.M]: the end, or just before a final newline. *)
Definition re_eos : matcher := fun s caps k =>
  match s with
  | [] => k s caps
  | [c] => if (c =? 10)%N then k s caps else None
  | _ => None
  end.

(** [pattern.match(s)]: the groups of a match starting at the beginning. *)
Definition re_match (m : matcher) (s : str) : option (list str) :=
  m s [] (fun _ caps => Some caps).

(** [pattern.search(s)]: the leftmost start at which the pattern matches. *)
Fixpoint re_search (m : matcher) (s : str) : option (list str) :=
  match re_match m s with
  | Some caps => Some caps
  | None => match s with
            | [] => None
            | _ :: t => re_search m t
            end
  end.

(** The groups of a match in the order they were closed: for the patterns
    below, which do not nest groups, [group i] is [m.group(i + 1)]. *)
Definition group (i : nat) (caps : list str) : str := nth i caps [].

(** *** [urlparse(url).path] *)

(** The characters a scheme may contain. *)
Definition scheme_char (c : char) : bool :=
  ascii_alpha c || ascii_digit c || char_in (u "+-.") c.

(** Schemes whose last path segment may carry [;parameters]. *)
Definition uses_params : list str :=
  map u [""; "ftp"; "hdl"; "prospero"; "http"; "imap"; "https"; "shttp";
         "rtsp"; "rtsps"; "rtspu"; "sip"; "sips"; "mms"; "sftp"; "tel"]%string.

(** The scheme (lower-cased) and what follows its colon; no scheme when
    the text before the first colon is empty, does not start with an ASCII
    letter or holds a character a scheme cannot. *)
Definition split_scheme (url : str) : str * str :=
  let head := before_first 58 url in
  if (length head <? length url)%nat
     && match head with c :: _ => ascii_alpha c | [] => false end
     && forallb scheme_char head
  then (map ascii_tolower head, drop (S (length head)) url)
  else ([], url).

(** After a leading [//] the network location runs to the first of
    [/], [?] and [#]. *)
Definition drop_netloc (rest : str) : str :=
  match rest with
  | a :: b :: t =>
      if (a =? 47)%N && (b =? 47)%N
      then drop_while (fun c => negb (char_in (u "/?#") c)) t
      else rest
  | _ => rest
  end.

(** [_splitparams(path)[0]]: the path up to the first semicolon of its last
    segment. *)
Definition strip_params (path : str) : str :=
  let last := last_segment 47 path in
  take (length path - length last) path ++ before_first 59 last.

(** The path component: leading control characters and spaces dropped, tabs
    and line breaks removed, then the scheme, the network location, the
    fragment, the query and the parameters cut off, in this order.  The
    [ValueError] of a malformed bracketed host is not modelled. *)
Definition urlparse_path (url : str) : str :=
  let url := drop_while (fun c => (c <=? 32)%N) url in
  let url := filter (fun c => negb (char_in [9; 10; 13]%N c) = true) url in
  let '(scheme, rest) := split_scheme url in
  let rest := drop_netloc rest in
  let rest := before_first 35 rest in
  let rest := before_first 63 rest in
  if existsb (fun s => bool_decide (s = scheme)) uses_params
  then strip_params rest
  else rest.

(** [urllib.parse.unquote]. *)
Definition unquote (s : str) : str :=
  if existsb (chr_is 37) s then percent_decode s else s.

(** *** The helpers of the source *)

(** The characters [re.sub] takes out of a file name: backslash, slash,
    star, question mark, double quote, angle brackets, bar and colon. *)
Definition illegal_chars : str := [92; 47; 42; 63; 34; 60; 62; 124; 58]%N.
Definition is_illegal (c : char) : bool := char_in illegal_chars c.

(** A character that may stay in a file name. *)
Definition legal (c : char) : Prop := is_illegal c = false.

Definition safe_filename (s : str) (max_len : Z) : str :=
  let s := sub_runs is_illegal (u "_") false s in
  let s := strip (sub_runs isspace (u " ") false s) in
  let s := match s with [] => u "arquivo" | _ => s end in
  if (max_len <? Z.of_nat (length s))%Z then rstrip (slice_to s max_len)
  else s.

Definition default_max_len : Z := 140.

(** [(\d{3,})[-/](.+)$] *)
Definition title_re : matcher :=
  re_seq (re_group (re_at_least 3 re_digit))
   (re_seq (re_chr (char_in (u "-/")))
    (re_seq (re_group (re_at_least 1 (fun c => negb (c =? 10)%N))) re_eos)).

Definition guess_title_from_work_url (work_url : str) : str :=
  let path := strip_slash (urlparse_path work_url) in
  let last := last_segment 47 path in
  match re_match title_re last with
  | None => []
  | Some m =>
      let raw := group 1 m in
      let raw := unquote raw in
      let raw := replace_double_hyphen raw in
      let raw := replace_hyphen raw in
      strip (sub_runs isspace (u " ") false raw)
  end.

(** [/anais/[^/]+/(\d{3,})] with [re.I] *)
Definition work_id_re : matcher :=
  re_seq (re_lit true (u "/anais/"))
   (re_seq (re_at_least 1 (fun c => negb (c =? 47)%N))
    (re_seq (re_chr (chr_is 47)) (re_group (re_at_least 3 re_digit)))).

Definition work_id_from_url (work_url : str) : str :=
  match re_search work_id_re work_url with
  | Some m => group 0 m
  | None => []
  end.

End Utilities.

(** ** The link harvester *)

(** What [click_next] finds for one candidate selector on the current page. *)
Inductive probe (B : Type) : Type :=
  | NoControl                (* no match, not visible, or the query raised *)
  | ControlDisabled          (* [aria-disabled] or a [disabled] class *)
  | ClickRaises (b : B)      (* the click or the wait after it raised *)
  | ClickLoads (b : B).      (* clicked and settled on the next page state *)
Arguments NoControl {B}.
Arguments ControlDisabled {B}.
Arguments ClickRaises {B} b.
Arguments ClickLoads {B} b.

(** The browser session as the harvester sees it. *)
Record Browser := {
  bstate : Type;
  (** [page.goto] and the settle delay; [None] when navigation raises *)
  goto : option bstate;
  (** [page.eval_on_selector_all("a[href]", ...)]; [None] when it raises,
      an element is [None] when it is not a [str] *)
  hrefs : bstate -> option (list (option str));
  (** the outcome of probing the candidate selector of the given index *)
  locate : bstate -> nat -> probe bstate
}.

(** Python compares strings by code point, position by position. *)
Fixpoint str_leb (s t : str) : bool :=
  match s, t with
  | [], _ => true
  | _ :: _, [] => false
  | a :: s', b :: t' =>
      if (a <? b)%N then true
      else if (a =? b)%N then str_leb s' t' else false
  end.
Definition str_le (s t : str) : Prop := str_leb s t = true.
#[global] Instance str_le_dec s t : Decision (str_le s t).
Proof. unfold str_le. apply _. Defined.

(** [sorted(collected)] *)
Definition sorted (c : gset str) : list str := merge_sort str_le (elements c).

Section Harvester.
Context {rt : PyRuntime}.
Variable br : Browser.
Variable slug : str.

(** [^https?://www\.even3\.com\.br/anais/<slug>/\d{3,}] with [re.I] *)
Definition work_url_re : matcher :=
  re_seq (re_lit true (u "http"))
   (re_seq (re_opt (re_chr (ci_eq 115)))
    (re_seq (re_lit true (u "://www.even3.com.br/anais/"))
     (re_seq (re_lit true slug)
      (re_seq (re_chr (chr_is 47)) (re_at_least 3 re_digit))))).

Definition is_work_url (h : str) : bool :=
  match re_match work_url_re h with Some _ => true | None => false end.

(** The body of the [for h in hrefs] loop: the set and the counter after
    one more href. *)
Definition scrape_one (acc : gset str * nat) (h : option str) : gset str * nat :=
  match h with
  | Some h =>
      if is_work_url h then
        let clean := before_first 63 h in
        if decide (clean ∈ acc.1) then acc
        else ({[clean]} ∪ acc.1, S acc.2)
      else acc
  | None => acc
  end.

(** [scrape_links()]: the updated set and [new_count]. *)
Definition scrape_links (b : bstate br) (collected : gset str) : gset str * nat :=
  match hrefs br b with
  | None => (collected, 0)
  | Some hs => fold_left scrape_one hs (collected, 0)
  end.

(** [x] is a work link shown on page state [b], its query string removed. *)
Definition link_of_page (b : bstate br) (x : str) : Prop :=
  exists hs h,
    hrefs br b = Some hs /\ Some h ∈ hs
    /\ is_work_url h = true /\ x = before_first 63 h.

(** The [for sel in candidates] loop of [click_next()]. *)
Fixpoint click_candidates (sels : list nat) (b : bstate br) : bool * bstate br :=
  match sels with
  | [] => (false, b)
  | sel :: rest =>
      match locate br b sel with
      | NoControl => click_candidates rest b
      | ControlDisabled => (false, b)
      | ClickRaises b' => click_candidates rest b'
      | ClickLoads b' => (true, b')
      end
  end.

Definition click_next (b : bstate br) : bool * bstate br :=
  click_candidates [0; 1; 2; 3] b.

Record hstate := {
  hpage : bstate br;
  collected : gset str;
  stalled : nat;
  page_idx : nat
}.

(** The counter of consecutive passes without a new link, after a pass
    that found [new_here]. *)
Definition stalled_after (new_here : nat) (st : hstate) : nat :=
  if Nat.eqb new_here 0 then S (stalled st) else 0.

(** One pass through the body of [while True]: either a [break], with the
    set collected so far, or the state at the next pass. *)
Definition harvest_iter (st : hstate) : gset str + hstate :=
  let '(coll, new_here) := scrape_links (hpage st) (collected st) in
  let stalled' := stalled_after new_here st in
  if (5 <=? stalled')%nat then inl coll
  else
    let '(clicked, b') := click_next (hpage st) in
    if negb clicked then inl coll
    else inr {| hpage := b'; collected := coll; stalled := stalled';
                page_idx := S (page_idx st) |}.

(** The [while True] loop, cut after [fuel] passes; [None] when the loop
    is still running then. *)
Fixpoint harvest_loop (fuel : nat) (st : hstate) : option (gset str) :=
  match fuel with
  | O => None
  | S n =>
      match harvest_iter st with
      | inl coll => Some coll
      | inr st' => harvest_loop n st'
      end
  end.

Definition harvest_init (b : bstate br) : hstate :=
  {| hpage := b; collected := ∅; stalled := 0; page_idx := 1 |}.

End Harvester.

Arguments hpage {br} _.
Arguments collected {br} _.
Arguments stalled {br} _.
Arguments page_idx {br} _.

(** The value of a Python call: it returns or it raises. *)
Inductive result (A : Type) : Type :=
  | Returns (a : A)
  | Raises.
Arguments Returns {A} a.
Arguments Raises {A}.

(** [collect_work_urls_with_playwright]; log and progress lines are not
    recorded. *)
Definition collect_work_urls_with_playwright {rt : PyRuntime}
    (fuel : nat) (br : Browser) (slug : str) : option (result (list str)) :=
  match goto br with
  | None => Some Raises
  | Some b0 =>
      match harvest_loop br slug fuel (harvest_init br b0) with
      | Some coll => Some (Returns (sorted coll))
      | None => None
      end
  end.

(** The fields joined by commas and ended by a carriage return and a line
    feed: what [csv.writer] writes when no field holds a comma, a quote or a
    line break. *)
Fixpoint join_fields (fields : list str) : str :=
  match fields with
  | [] => []
  | [field] => field
  | field :: rest => field ++ u "," ++ join_fields rest
  end.

Definition plain_csv_line (fields : list str) : list byte :=
  map (fun c => default x3f (Byte.of_N c)) (join_fields fields ++ [13; 10]%N).

(** A runtime whose tables are empty outside ASCII, with no decoding and no
    HTML parser; enough to run the functions on the ASCII text of the
    examples below. *)
Definition ascii_runtime : PyRuntime := {|
  unicode_Nd := fun _ => false;
  unicode_ci := fun a b => N.eqb a b;
  percent_decode := fun s => s;
  soup_hrefs := fun _ => [];
  csv_line := plain_csv_line
|}.

(** *** A simulated listing: three pages of ten links *)

(** The work URL number [n] of the simulated listing, for [n < 100]. *)
Definition sim_url (n : nat) : str :=
  u "https://www.even3.com.br/anais/ennepe2022/5289"
    ++ [(48 + N.of_nat (n / 10))%N; (48 + N.of_nat (n mod 10))%N]
    ++ u "-TITULO-DO-TRABALHO".

(** The anchors of page [p]: two links that are not work pages and, on the
    three pages of the listing, ten work links carrying a query string. *)
Definition sim_hrefs (p : nat) : list (option str) :=
  Some (u "https://www.even3.com.br/anais/ennepe2022/") ::
  Some (u "https://www.even3.com.br/") ::
  (if (p <=? 3)%nat
   then map (fun i => Some (sim_url (10 * (p - 1) + i) ++ u "?ref=lista"))
            (seq 0 10)
   else []).

Inductive last_page_control := NextMissing | NextDisabled | NextInert | NextTimesOut.

(** Pages 1 and 2 have a working next link; on page 3 the control is
    absent, disabled, clickable without effect, or raises on click. *)
Definition sim_browser (last : last_page_control) : Browser := {|
  bstate := nat;
  goto := Some 1%nat;
  hrefs := fun p => Some (sim_hrefs p);
  locate := fun p sel =>
    if (p <? 3)%nat then (if (sel =? 0)%nat then ClickLoads (S p) else NoControl)
    else match last with
         | NextMissing => NoControl
         | NextDisabled => if (sel =? 1)%nat then ControlDisabled else NoControl
         | NextInert => if (sel =? 0)%nat then ClickLoads p else NoControl
         | NextTimesOut => ClickRaises p
         end
|}.

Definition sim_slug : str := u "ennepe2022".

(** ** The network and the file system *)

(** What a streamed [session.get(url, stream=True)] delivers. *)
Inductive get_stream : Type :=
  | GetRaises
      (* the request itself raised: connection error, timeout *)
  | Response (status : Z) (chunks : list (list byte)) (complete : bool).
      (* the chunks [iter_content] yields; the iterator raises after them
         when [complete] is false *)

(** What [session.get(work_url)] delivers. *)
Inductive get_page : Type :=
  | PageRaises
  | Page (status_code : Z) (text : str).

(** The servers: the answer to a request may depend on how many requests
    were made before it. *)
Record Network := {
  stream_of : nat -> str -> get_stream;
  page_of : nat -> str -> get_page
}.

(** The files under the output directory and the requests sent so far. *)
Record world := {
  fs : gmap str (list byte);
  requests : list str
}.

Definition set_fs (f : gmap str (list byte)) (w : world) : world :=
  {| fs := f; requests := requests w |}.
Definition log_request (url : str) (w : world) : world :=
  {| fs := fs w; requests := requests w ++ [url] |}.

(** [p.exists()] and [p.stat().st_size]. *)
Definition path_exists (f : gmap str (list byte)) (p : str) : bool :=
  bool_decide (is_Some (f !! p)).
Definition st_size (f : gmap str (list byte)) (p : str) : nat :=
  length (default [] (f !! p)).

(** A file is present at the path and is not empty: what the test of
    [job_download] before any request asks for. *)
Definition nonempty_at (f : gmap str (list byte)) (p : str) : Prop :=
  exists d, f !! p = Some d /\ d <> [].

(** The file operations of the program. *)
Inductive fsop : Type :=
  | OpenTrunc (p : str)                 (* [open(p, "wb")] or [open(p, "w")] *)
  | Append (p : str) (data : list byte) (* [f.write(data)] *)
  | Unlink (p : str)                    (* [p.unlink(missing_ok=True)] *)
  | Replace (src dst : str).            (* [src.replace(dst)] *)

Definition apply_op (f : gmap str (list byte)) (op : fsop) : gmap str (list byte) :=
  match op with
  | OpenTrunc p => <[p := []]> f
  | Append p data => <[p := default [] (f !! p) ++ data]> f
  | Unlink p => delete p f
  | Replace src dst =>
      match f !! src with
      | Some data => <[dst := data]> (delete src f)
      | None => f
      end
  end.

Definition apply_ops (f : gmap str (list byte)) (ops : list fsop) : gmap str (list byte) :=
  foldl apply_op f ops.

(** The file systems a sequence of operations goes through, the first and
    the last included. *)
Fixpoint states_of (f : gmap str (list byte)) (ops : list fsop)
    : list (gmap str (list byte)) :=
  f :: match ops with
       | [] => []
       | op :: rest => states_of (apply_op f op) rest
       end.

(** [out_dir / filename] for an absolute, resolved [out_dir]. *)
Definition path_join (dir name : str) : str :=
  if bool_decide (last dir = Some 47%N) then dir ++ name
  else dir ++ u "/" ++ name.

(** [out_path.with_suffix(out_path.suffix + ".part")] *)
Definition part_path (out_path : str) : str := out_path ++ u ".part".

(** [r.raise_for_status()] raises on a 4xx or 5xx status. *)
Definition status_is_error (status : Z) : bool :=
  (400 <=? status)%Z && (status <? 600)%Z.

(** ** The fetcher *)

(** The file operations [download_pdf] performs, in order, on the file
    system [f] when the server answers [resp], and how the call ends.
    The pacing sleep and the [mkdir] of the output directory, which
    [App.start] has already created, are left out. *)
Definition download_ops (f : gmap str (list byte)) (resp : get_stream)
    (out_path : str) : list fsop * result unit :=
  match resp with
  | GetRaises => ([], Raises)
  | Response status chunks complete =>
      if status_is_error status then ([], Raises)
      else
        let tmp := part_path out_path in
        let writes :=
          OpenTrunc tmp ::
          map (Append tmp) (filter (fun chunk => chunk ≠ []) chunks) in
        if negb complete then (writes, Raises)
        else if (st_size (apply_ops f writes) tmp <? 1024)%nat
        then (writes ++ [Unlink tmp], Raises)
        else (writes ++ [Replace tmp out_path], Returns ())
  end.

(** [download_pdf(session, pdf_url, out_path, delay)] *)
Definition download_pdf (net : Network) (pdf_url out_path : str) (w : world)
    : world * result unit :=
  let resp := stream_of net (length (requests w)) pdf_url in
  let w := log_request pdf_url w in
  let '(ops, r) := download_ops (fs w) resp out_path in
  (set_fs (apply_ops (fs w) ops) w, r).

(** ** The resolver and the job *)

Section Job.
Context {rt : PyRuntime}.
Variable net : Network.

(** The pattern [https?://static\.even3\.com/anais/\d+\.pdf] followed by an
    optional query: a question mark and a run of characters other than the
    two quote characters, the closing angle bracket and white space.  The
    flag is [re.I]; the only group kept is the whole match. *)
Definition PDF_HREF_RE : matcher :=
  re_group
   (re_seq (re_lit true (u "http"))
    (re_seq (re_opt (re_chr (ci_eq 115)))
     (re_seq (re_lit true (u "://static.even3.com/anais/"))
      (re_seq (re_at_least 1 re_digit)
       (re_seq (re_lit true (u ".pdf"))
        (re_opt
          (re_seq (re_chr (chr_is 63))
            (re_at_least 1
              (fun c => negb (char_in [34; 39; 62]%N c || isspace c)))))))))).

(** The first anchor whose [href] the pattern matches. *)
Fixpoint first_pdf_href (hs : list str) : option str :=
  match hs with
  | [] => None
  | href :: rest =>
      match re_match PDF_HREF_RE href with
      | Some _ => Some href
      | None => first_pdf_href rest
      end
  end.

Definition parse_work_page_for_pdf (work_url : str) (w : world)
    : world * result (option str) :=
  let r := page_of net (length (requests w)) work_url in
  let w := log_request work_url w in
  match r with
  | PageRaises => (w, Raises)
  | Page status_code html =>
      if negb (status_code =? 200)%Z then (w, Returns None)
      else
        match re_search PDF_HREF_RE html with
        | Some m => (w, Returns (Some (group 0 m)))
        | None => (w, Returns (first_pdf_href (soup_hrefs html)))
        end
  end.

(** The five values of the status column. *)
Inductive status : Type :=
  | st_exists | downloaded_direct | downloaded_fallback | no_pdf | error.

Definition status_name (s : status) : str :=
  match s with
  | st_exists => u "exists"
  | downloaded_direct => u "downloaded_direct"
  | downloaded_fallback => u "downloaded_fallback"
  | no_pdf => u "no_pdf"
  | error => u "error"
  end.

(** The statuses the loop counts as a document on disk. *)
Definition ok_status (s : status) : Prop :=
  s = st_exists \/ s = downloaded_direct \/ s = downloaded_fallback.

(** The tuple [job_download] returns, which is also a manifest row. *)
Record row := {
  row_work_url : str;
  row_work_id : str;
  row_pdf_url : str;
  row_file_path : str;
  row_status : status
}.

(** The file a work URL is saved as. *)
Definition filename_of (work_url : str) : str :=
  let wid := work_id_from_url work_url in
  let title := guess_title_from_work_url work_url in
  let base := match wid with [] => u "trabalho" | _ => wid end in
  let base := match title with [] => base | _ => base ++ u " - " ++ title end in
  safe_filename base default_max_len ++ u ".pdf".

Definition file_path_of (out_dir work_url : str) : str :=
  path_join out_dir (filename_of work_url).

(** [job_download(work_url, out_dir, pool_size, delay)]; the per-thread
    session is created without a request and is not recorded. *)
Definition job_download (work_url out_dir : str) (w : world) : world * result row :=
  let wid := work_id_from_url work_url in
  let file_path := file_path_of out_dir work_url in
  if path_exists (fs w) file_path && (0 <? st_size (fs w) file_path)%nat then
    (w, Returns {| row_work_url := work_url; row_work_id := wid;
                   row_pdf_url := []; row_file_path := file_path;
                   row_status := st_exists |})
  else
    let direct_pdf :=
      match wid with
      | [] => []
      | _ => u "https://static.even3.com/anais/" ++ wid ++ u ".pdf"
      end in
    (* without a work id nothing is tried, which leaves the job where a
       failed attempt does *)
    let '(w, direct) :=
      match direct_pdf with
      | [] => (w, Raises)
      | _ => download_pdf net direct_pdf file_path w
      end in
    match direct with
    | Returns _ =>
        (w, Returns {| row_work_url := work_url; row_work_id := wid;
                       row_pdf_url := direct_pdf; row_file_path := file_path;
                       row_status := downloaded_direct |})
    | Raises =>
        let '(w, found) := parse_work_page_for_pdf work_url w in
        match found with
        | Raises => (w, Raises)
        | Returns None | Returns (Some []) =>
            (w, Returns {| row_work_url := work_url; row_work_id := wid;
                           row_pdf_url := []; row_file_path := [];
                           row_status := no_pdf |})
        | Returns (Some pdf_url) =>
            let '(w, fetched) := download_pdf net pdf_url file_path w in
            match fetched with
            | Returns _ =>
                (w, Returns {| row_work_url := work_url; row_work_id := wid;
                               row_pdf_url := pdf_url; row_file_path := file_path;
                               row_status := downloaded_fallback |})
            | Raises =>
                (w, Returns {| row_work_url := work_url; row_work_id := wid;
                               row_pdf_url := pdf_url; row_file_path := [];
                               row_status := error |})
            end
        end
    end.

End Job.

(** ** The manifest loop of [App.worker] *)

(** The thread pool and the operator as the loop sees them. *)
Record Scheduler := {
  (** the order in which [as_completed] yields the futures of the
      submitted URLs *)
  completion : list str -> list str;
  (** the value of [self.running] at each place the worker reads it: read
      0 follows the harvest, read [i + 1] opens pass [i] of the loop *)
  running : nat -> bool
}.

Definition header : list str :=
  map u ["work_url"; "work_id"; "pdf_url"; "file_path"; "status"]%string.

Definition row_fields (r : row) : list str :=
  [row_work_url r; row_work_id r; row_pdf_url r; row_file_path r;
   status_name (row_status r)].

Definition manifest_path (out_dir : str) : str :=
  path_join out_dir (u "manifest.csv").

(** [s.startswith(prefix)] *)
Definition startswith (prefix s : str) : bool :=
  bool_decide (take (length prefix) s = prefix).

(** The counters of the loop. *)
Record tally := {
  done_count : nat;
  ok : nat;
  without_pdf : nat;
  err : nat
}.

Definition tally_zero : tally :=
  {| done_count := 0; ok := 0; without_pdf := 0; err := 0 |}.

(** The counter updates at the end of one pass. *)
Definition count_row (st : str) (t : tally) : tally :=
  if startswith (u "downloaded") st || bool_decide (st = u "exists")
  then {| done_count := S (done_count t); ok := S (ok t);
          without_pdf := without_pdf t; err := err t |}
  else if bool_decide (st = u "no_pdf")
  then {| done_count := S (done_count t); ok := ok t;
          without_pdf := S (without_pdf t); err := err t |}
  else {| done_count := S (done_count t); ok := ok t;
          without_pdf := without_pdf t; err := S (err t) |}.

(** How the worker thread leaves the download phase. *)
Inductive ending : Type :=
  | Completed   (* the loop ran out of futures *)
  | Cancelled   (* [self.running] was found false *)
  | Failed.     (* an exception reached the handler of [worker] *)

Record run := {
  run_end : ending;
  final : world;
  (** the rows passed to [w.writerow], in order *)
  written : list row;
  counts : tally;
  (** every job the pool ran, with the number of requests it sent *)
  executed : list (str * nat)
}.

Section Worker.
Context {rt : PyRuntime}.
Variable net : Network.
Variable sched : Scheduler.
Variable out_dir : str.

(** One job run by a pool thread: the world after it, what its future
    holds, and its entry for [executed]. *)
Definition run_job (work_url : str) (w : world)
    : world * result row * (str * nat) :=
  let '(w', r) := job_download net work_url out_dir w in
  (w', r, (work_url, length (requests w') - length (requests w))).

(** Leaving [with ThreadPoolExecutor(...)] waits for every submitted job,
    also for those whose future the loop never read. *)
Fixpoint drain (todo : list str) (w : world) (ex : list (str * nat))
    : world * list (str * nat) :=
  match todo with
  | [] => (w, ex)
  | work_url :: rest =>
      let '(w', _, e) := run_job work_url w in
      drain rest w' (ex ++ [e])
  end.

Definition write_row (r : row) (w : world) : world :=
  set_fs (apply_op (fs w)
            (Append (manifest_path out_dir) (csv_line (row_fields r)))) w.

(** [for fut in as_completed(futures)]: [todo] lists the futures not yet
    yielded, in the order they complete; each pass starts once the next
    one has completed. *)
Fixpoint as_completed_loop (todo : list str) (pass : nat) (w : world)
    (rows : list row) (t : tally) (ex : list (str * nat)) : run :=
  match todo with
  | [] =>
      {| run_end := Completed; final := w; written := rows; counts := t;
         executed := ex |}
  | work_url :: rest =>
      let '(w1, fut, e) := run_job work_url w in
      if negb (running sched (S pass)) then
        let '(w2, ex2) := drain rest w1 (ex ++ [e]) in
        {| run_end := Cancelled; final := w2; written := rows; counts := t;
           executed := ex2 |}
      else
        match fut with
        | Raises =>
            let '(w2, ex2) := drain rest w1 (ex ++ [e]) in
            {| run_end := Failed; final := w2; written := rows; counts := t;
               executed := ex2 |}
        | Returns r =>
            as_completed_loop rest (S pass) (write_row r w1) (rows ++ [r])
              (count_row (status_name (row_status r)) t) (ex ++ [e])
        end
  end.

(** [open(manifest, "w")] and the header row. *)
Definition open_manifest (w : world) : world :=
  let manifest := manifest_path out_dir in
  set_fs (apply_ops (fs w)
            [OpenTrunc manifest; Append manifest (csv_line header)]) w.

(** The download phase of [worker]: from opening the manifest to leaving
    both [with] blocks. *)
Definition download_all (work_urls : list str) (w : world) : run :=
  as_completed_loop (completion sched work_urls) 0 (open_manifest w) []
    tally_zero [].

Definition stopped (e : ending) (w : world) : run :=
  {| run_end := e; final := w; written := []; counts := tally_zero;
     executed := [] |}.

(** [App.worker]: the harvest, the two early exits, the download phase.
    [None] when the harvest has not returned within [fuel] passes. *)
Definition worker (fuel : nat) (br : Browser) (slug : str) (w : world)
    : option run :=
  match collect_work_urls_with_playwright fuel br slug with
  | None => None
  | Some Raises => Some (stopped Failed w)
  | Some (Returns []) => Some (stopped Failed w)
  | Some (Returns work_urls) =>
      if negb (running sched 0) then Some (stopped Cancelled w)
      else Some (download_all work_urls w)
  end.

End Worker.

(** The data rows of a manifest file: the file holds the header line and
    then the lines of these rows. *)
Definition manifest_of {rt : PyRuntime} (rows : list row) : list byte :=
  csv_line header ++ concat (map (fun r => csv_line (row_fields r)) rows).

(** ** Concrete servers, schedulers and worlds used in the examples *)

Definition empty_world : world := {| fs := ∅; requests := [] |}.

(** A document of [n] bytes delivered as one chunk. *)
Definition body_of (n : nat) : list (list byte) := [repeat x25 n].

(** Every document request is answered 404 and every page request raises. *)
Definition net_unreachable : Network := {|
  stream_of := fun _ _ => Response 404 [] true;
  page_of := fun _ _ => PageRaises
|}.


(** Every document request is answered with a 2048-byte document. *)
Definition net_serving : Network := {|
  stream_of := fun _ _ => Response 200 (body_of 2048) true;
  page_of := fun _ _ => Page 404 []
|}.

(** The document of work 528901 is served; every other document request
    is answered 404 and every page request raises. *)
Definition net_one_down : Network := {|
  stream_of := fun _ url =>
    if bool_decide (url = u "https://static.even3.com/anais/528901.pdf")
    then Response 200 (body_of 2048) true
    else Response 404 [] true;
  page_of := fun _ _ => PageRaises
|}.

(** The guessed address of work 528900 serves three bytes with status 200;
    the work page links the real document, which is served whole. *)
Definition sim_page : str :=
  u "<p><a class='pdf' href='https://static.even3.com/anais/77001.pdf?v=2'>PDF</a></p>".

Definition net_wrong_guess : Network := {|
  stream_of := fun _ url =>
    if bool_decide (url = u "https://static.even3.com/anais/528900.pdf")
    then Response 200 [[x25; x25; x25]] true
    else Response 200 (body_of 2048) true;
  page_of := fun _ _ => Page 200 sim_page
|}.

(** Futures complete in submission order and nobody presses stop. *)
Definition sched_fifo : Scheduler := {|
  completion := fun l => l;
  running := fun _ => true
|}.

(** Stop is pressed after the harvest, before the first future is read. *)
Definition sched_stop_early : Scheduler := {|
  completion := fun l => l;
  running := fun i => (i =? 0)%nat
|}.

Definition sim_out_dir : str := u "/tmp/even3".

(** An output directory after an earlier run: the document of the first
    simulated work, ten bytes long, and a manifest. *)
Definition used_world {rt : PyRuntime} : world := {|
  fs := <[file_path_of sim_out_dir (sim_url 0) := repeat x25 10]>
          (<[manifest_path sim_out_dir := repeat x25 99]> ∅);
  requests := []
|}.

(** ** The listing URL *)

(** [s.split(sep)]: the pieces between the separators; never an empty
    list. *)
Fixpoint split_on (sep : char) (s : str) : list str :=
  match s with
  | [] => [[]]
  | c :: t =>
      if N.eqb c sep then [] :: split_on sep t
      else match split_on sep t with
           | piece :: pieces => (c :: piece) :: pieces
           | [] => [[c]]
           end
  end.

(** [s.endswith("/")] *)
Definition ends_with_slash (s : str) : bool :=
  bool_decide (last s = Some 47%N).

(** [normalize_anais_url(url)] *)
Definition normalize_anais_url (url : str) : str :=
  let url := strip url in
  match url with
  | [] => []
  | _ => if ends_with_slash url then url else url ++ u "/"
  end.

(** [s.lower()]: the ASCII rule on text that is all ASCII; [lower_table]
    stands for the Unicode lower-casing of any other text. *)
Definition str_lower (lower_table : str -> str) (s : str) : str :=
  if forallb is_ascii s then map ascii_tolower s else lower_table s.

(** [extract_slug(anais_url)]; [Raises] is the [ValueError]. *)
Definition extract_slug (lower_table : str -> str) (anais_url : str)
    : result str :=
  let path := strip_slash (urlparse_path anais_url) in
  let parts := split_on 47 path in
  if (2 <=? length parts)%nat
     && bool_decide (str_lower lower_table (nth 0 parts []) = u "anais")
  then Returns (str_lower lower_table (nth 1 parts []))
  else Raises.

(** ** What a match consumed

    [sound m R]: whenever [m] lets a match go through, it has consumed a
    prefix [pre] of the input and added groups [new] with [R pre new], and
    the continuation ran on the rest. *)
Definition sound (m : matcher) (R : str -> list str -> Prop) : Prop :=
  forall s caps k r,
    m s caps k = Some r ->
    exists pre s' new,
      s = pre ++ s' /\ R pre new /\ k s' (caps ++ new) = Some r.

(** A literal pattern character against an input character. *)
Definition lit_eq {rt : PyRuntime} (ci : bool) (p c : char) : Prop :=
  if ci then ci_eq p c = true else p = c.

(** ** Predicates used in the statements *)

(** The address is on the document host: [http] or [https], then
    [://static.even3.com/anais/], letter case apart. *)
Definition on_document_host {rt : PyRuntime} (url : str) : Prop :=
  exists scheme host tail,
    url = scheme ++ host ++ tail
    /\ (Forall2 (fun p c => ci_eq p c = true) (u "http") scheme
        \/ Forall2 (fun p c => ci_eq p c = true) (u "https") scheme)
    /\ Forall2 (fun p c => ci_eq p c = true) (u "://static.even3.com/anais/") host.

(** White space appears only as single spaces: every white-space character
    is a space and is followed by a character that is not white space, or
    by nothing. *)
Fixpoint single_spaced (s : str) : Prop :=
  match s with
  | [] => True
  | c :: t =>
      (isspace c = true ->
         c = 32%N /\ match t with d :: _ => isspace d = false | [] => True end)
      /\ single_spaced t
  end.

(** The first and the last character, if any, are not white space. *)
Definition trimmed (s : str) : Prop :=
  match s with [] => True | c :: _ => isspace c = false end
  /\ match last s with None => True | Some c => isspace c = false end.

(** The statuses counted under [ok], [no_pdf] and [err] by the loop. *)
Definition counted_ok (s : status) : bool :=
  match s with
  | st_exists | downloaded_direct | downloaded_fallback => true
  | no_pdf | error => false
  end.
Definition counted_no_pdf (s : status) : bool :=
  match s with no_pdf => true | _ => false end.
Definition counted_err (s : status) : bool :=
  match s with error => true | _ => false end.

(** How many of the rows have a status of the given kind. *)
Definition rows_with (kind : status -> bool) (rows : list row) : nat :=
  length (List.filter (fun r => kind (row_status r)) rows).

(** A character that can stand in a host name or a path segment: not
    white space or a control character, and none of the slash, the
    question mark and the hash sign. *)
Definition segment_char (c : char) : bool :=
  (32 <? c)%N && negb (isspace c) && negb (char_in (u "/?#") c).

(** A character of a host name that [urlparse] takes without a check of
    its own: ASCII, and not a square bracket. *)
Definition host_char (c : char) : bool :=
  is_ascii c && segment_char c && negb (char_in (u "[]") c).

(** ** The stop rule of the harvester, in the words of the specification

    These definitions do not come from the code: they say what
    [click_next] and the loop are expected to do, and are compared with
    the definitions above in the theorem on the harvester. *)

(** The candidate selectors in the order they are tried: a link and a
    button labelled Próximo, then a link and a button labelled Next. *)
Definition next_selectors : list nat := [0; 1; 2; 3].

Section NextPage.
Variable br : Browser.

(** [next_page b sels b']: on page state [b] a next-page control among
    the candidates [sels] can be clicked, and the click loads [b'].  The
    candidates are taken in order.  One that has no visible match is
    passed over; one whose click raises is passed over as well, with the
    page in the state the failed click left; the first visible match
    that does not raise is clicked.  A visible match that is disabled
    ends the search: no rule goes past it. *)
Inductive next_page : bstate br -> list nat -> bstate br -> Prop :=
  | next_loads b sel rest b' :
      locate br b sel = ClickLoads b' ->
      next_page b (sel :: rest) b'
  | next_absent b sel rest b' :
      locate br b sel = NoControl ->
      next_page b rest b' ->
      next_page b (sel :: rest) b'
  | next_raises b sel rest b1 b' :
      locate br b sel = ClickRaises b1 ->
      next_page b1 rest b' ->
      next_page b (sel :: rest) b'.

(** Pagination is exhausted: no next-page control can be clicked. *)
Definition pagination_exhausted (b : bstate br) : Prop :=
  forall b', ~ next_page b next_selectors b'.

(** The page state of pass [n], passes counted from 0: the listing as
    first loaded, then what each click on a next-page control loaded. *)
Inductive page_of_pass (b0 : bstate br) : nat -> bstate br -> Prop :=
  | first_page : page_of_pass b0 0 b0
  | later_page n b b' :
      page_of_pass b0 n b ->
      next_page b next_selectors b' ->
      page_of_pass b0 (S n) b'.

End NextPage.

Section StopRule.
Context {rt : PyRuntime}.
Variable br : Browser.
Variable slug : str.

(** [x] is a work link, cut at its question mark, of the page of pass
    [i]. *)
Definition link_of_pass (b0 : bstate br) (i : nat) (x : str) : Prop :=
  exists b, page_of_pass br b0 i b /\ link_of_page br slug b x.

(** Pass [n] is a stall: it yields no newly discovered link, every work
    link of its page was on the page of an earlier pass. *)
Definition stall (b0 : bstate br) (n : nat) : Prop :=
  forall x, link_of_pass b0 n x -> exists i, i < n /\ link_of_pass b0 i x.

(** Pass [n] is the fifth of five consecutive stalls. *)
Definition five_stalls (b0 : bstate br) (n : nat) : Prop :=
  4 <= n /\ forall i, n - 4 <= i <= n -> stall b0 i.

(** The loop is to stop in pass [n]: the pass is reached, and it is the
    fifth stall in a row or finds pagination exhausted. *)
Definition stops_at (b0 : bstate br) (n : nat) : Prop :=
  exists b,
    page_of_pass br b0 n b
    /\ (five_stalls b0 n \/ pagination_exhausted br b).

(** What the state of the loop holds at the start of pass [n]: the page
    of that pass, the links of the passes before it, and in the counter
    the number of stalls that come right before it, at most four. *)
Definition at_pass (b0 : bstate br) (n : nat) (st : hstate br) : Prop :=
  page_of_pass br b0 n (hpage st)
  /\ (forall x, x ∈ collected st <-> exists i, i < n /\ link_of_pass b0 i x)
  /\ stalled st <= 4
  /\ stalled st <= n
  /\ (forall i, n - stalled st <= i < n -> stall b0 i)
  /\ (stalled st < n -> ~ stall b0 (n - stalled st - 1)).

End StopRule.

(** ** Two more simulated listings *)

(** Three pages of ten links, as [sim_browser], with a button labelled
    Próximo as the next-page control; page 3 has none. *)
Definition button_browser : Browser := {|
  bstate := nat;
  goto := Some 1%nat;
  hrefs := fun p => Some (sim_hrefs p);
  locate := fun p sel =>
    if (p <? 3)%nat && (sel =? 1)%nat then ClickLoads (S p) else NoControl
|}.

(** A listing whose next link always loads one more page; pages 0, 4 and
    7 show one work link each, every other page shows none. *)
Definition gappy_hrefs (p : nat) : list (option str) :=
  if (p =? 0)%nat then [Some (sim_url 0)]
  else if (p =? 4)%nat then [Some (sim_url 1)]
  else if (p =? 7)%nat then [Some (sim_url 2)]
  else [].

Definition gappy_browser : Browser := {|
  bstate := nat;
  goto := Some 0%nat;
  hrefs := fun p => Some (gappy_hrefs p);
  locate := fun p sel => if (sel =? 0)%nat then ClickLoads (S p) else NoControl
|}.

(** * Properties *)

(** ** Strings *)

Lemma Forall_drop_while (P : char -> Prop) p s :
  Forall P s -> Forall P (drop_while p s).
Proof.
  induction 1 as [|c t Hc Ht IH]; simpl; [constructor|].
  destruct (p c); [exact IH | now constructor].
Qed.

Lemma Forall_rstrip_by (P : char -> Prop) p s :
  Forall P s -> Forall P (rstrip_by p s).
Proof.
  intros H. unfold rstrip_by.
  apply List.Forall_rev, Forall_drop_while, List.Forall_rev, H.
Qed.

Lemma Forall_strip_by (P : char -> Prop) p s :
  Forall P s -> Forall P (strip_by p s).
Proof. intros H. apply Forall_rstrip_by, Forall_drop_while, H. Qed.

Lemma length_drop_while p s : length (drop_while p s) <= length s.
Proof.
  induction s as [|c t IH]; simpl; [lia|].
  destruct (p c); simpl; lia.
Qed.

Lemma length_rstrip_by p s : length (rstrip_by p s) <= length s.
Proof.
  unfold rstrip_by. rewrite length_rev.
  etransitivity; [apply length_drop_while|]. now rewrite length_rev.
Qed.

Lemma drop_while_snoc_keep p l c :
  p c = false -> drop_while p (l ++ [c]) = drop_while p l ++ [c].
Proof.
  intros Hc. induction l as [|a l IH]; simpl.
  - now rewrite Hc.
  - destruct (p a); [exact IH | reflexivity].
Qed.

(** Stripping on the right never removes a first character that the
    predicate rejects. *)
Lemma rstrip_by_keeps_head p c t :
  p c = false -> rstrip_by p (c :: t) = c :: rev (drop_while p (rev t)).
Proof.
  intros Hc. unfold rstrip_by. simpl rev at 2.
  rewrite drop_while_snoc_keep by exact Hc.
  rewrite rev_app_distr. reflexivity.
Qed.

Lemma drop_while_head p s :
  match drop_while p s with
  | [] => True
  | c :: _ => p c = false
  end.
Proof.
  induction s as [|a s IH]; simpl; [exact I|].
  destruct (p a) eqn:Ha; [exact IH | exact Ha].
Qed.

(** A stripped string is empty or starts with a character that is not
    white space. *)
Lemma strip_by_head p s :
  match strip_by p s with
  | [] => True
  | c :: _ => p c = false
  end.
Proof.
  unfold strip_by, lstrip_by.
  pose proof (drop_while_head p s) as H.
  destruct (drop_while p s) as [|c t]; [exact I|].
  rewrite rstrip_by_keeps_head by exact H. exact H.
Qed.

Lemma sub_runs_Forall (P : char -> Prop) p rep b s :
  Forall P rep ->
  Forall (fun c => p c = false -> P c) s ->
  Forall P (sub_runs p rep b s).
Proof.
  intros Hrep Hs. revert b.
  induction Hs as [|c t Hc Ht IH]; intros b; simpl; [constructor|].
  destruct (p c) eqn:Hpc.
  - destruct b; [apply IH|]. apply Forall_app. split; [exact Hrep | apply IH].
  - constructor; [now apply Hc | apply IH].
Qed.

Lemma slice_to_Forall (P : char -> Prop) s n :
  Forall P s -> Forall P (slice_to s n).
Proof. intros H. unfold slice_to. destruct (0 <=? n)%Z; now apply Forall_take. Qed.

Lemma slice_to_length s n :
  (0 <= n)%Z -> (Z.of_nat (length (slice_to s n)) <= n)%Z.
Proof.
  intros Hn. unfold slice_to.
  destruct (Z.leb_spec 0 n); [|lia]. rewrite length_take. lia.
Qed.

(** ** [safe_filename] *)

Lemma legal_literal s : forallb (fun c => negb (is_illegal c)) s = true -> Forall legal s.
Proof.
  intros H. apply Forall_forall. intros c Hc.
  rewrite forallb_forall in H. apply list_elem_of_In in Hc.
  specialize (H c Hc). unfold legal. now destruct (is_illegal c).
Qed.

Lemma safe_filename_legal s max_len : Forall legal (safe_filename s max_len).
Proof.
  unfold safe_filename.
  set (s1 := sub_runs is_illegal (u "_") false s).
  assert (H1 : Forall legal s1).
  { apply sub_runs_Forall; [now apply legal_literal|].
    apply Forall_forall. intros c _ Hc. exact Hc. }
  set (s2 := strip (sub_runs isspace (u " ") false s1)).
  assert (H2 : Forall legal s2).
  { apply Forall_strip_by, sub_runs_Forall; [now apply legal_literal|].
    eapply Forall_impl; [exact H1 | auto]. }
  set (s3 := match s2 with [] => u "arquivo" | _ => s2 end).
  assert (H3 : Forall legal s3).
  { subst s3. destruct s2; [now apply legal_literal | exact H2]. }
  destruct (max_len <? Z.of_nat (length s3))%Z; [|exact H3].
  apply Forall_rstrip_by, slice_to_Forall, H3.
Qed.

Lemma safe_filename_length s max_len :
  (0 <= max_len)%Z -> (Z.of_nat (length (safe_filename s max_len)) <= max_len)%Z.
Proof.
  intros Hn. unfold safe_filename.
  match goal with |- context [Z.ltb max_len (Z.of_nat (length ?x))] => set (s3 := x) end.
  destruct (Z.ltb_spec max_len (Z.of_nat (length s3))) as [Hlt|Hge]; [|lia].
  pose proof (length_rstrip_by isspace (slice_to s3 max_len)) as H.
  pose proof (slice_to_length s3 max_len Hn). unfold rstrip. lia.
Qed.

Lemma safe_filename_nonempty s max_len :
  (1 <= max_len)%Z -> safe_filename s max_len <> [].
Proof.
  intros Hn. unfold safe_filename.
  match goal with |- context [Z.ltb max_len (Z.of_nat (length ?x))] => set (s3 := x) end.
  assert (H3 : exists c t, s3 = c :: t /\ isspace c = false).
  { subst s3. unfold strip.
    match goal with |- context [strip_by isspace ?x] =>
      pose proof (strip_by_head isspace x) as H;
      destruct (strip_by isspace x) as [|c t] end.
    - eexists _, _. split; [reflexivity | reflexivity].
    - eauto. }
  destruct H3 as (c & t & -> & Hc).
  destruct (Z.ltb max_len _); [|discriminate].
  unfold slice_to. destruct (Z.leb_spec 0 max_len); [|lia].
  replace (Z.to_nat max_len) with (S (Z.to_nat (max_len - 1))) by lia.
  simpl take. unfold rstrip. rewrite rstrip_by_keeps_head by exact Hc.
  discriminate.
Qed.

(** C9, as amended: for every input string and every [max_len] of at least
    1, [safe_filename] returns a string with none of the nine characters
    illegal in file names, of length at most [max_len], and not empty. *)
Theorem safe_filename_sound (s : str) (max_len : Z) :
  (1 <= max_len)%Z ->
  Forall (fun c => c ∉ illegal_chars) (safe_filename s max_len)
  /\ (Z.of_nat (length (safe_filename s max_len)) <= max_len)%Z
  /\ safe_filename s max_len <> [].
Proof.
  intros Hn. split; [|split].
  - eapply Forall_impl; [apply safe_filename_legal|].
    intros c Hc Hin. unfold legal, is_illegal, char_in in Hc.
    assert (existsb (N.eqb c) illegal_chars = true) as E; [|congruence].
    apply existsb_exists. exists c. split; [now apply list_elem_of_In|].
    apply N.eqb_refl.
  - apply safe_filename_length. lia.
  - now apply safe_filename_nonempty.
Qed.

Lemma safe_filename_sound_witness :
  Forall (fun c => c ∉ illegal_chars) (safe_filename (u "a/b: c") 140)
  /\ (Z.of_nat (length (safe_filename (u "a/b: c") 140)) <= 140)%Z
  /\ safe_filename (u "a/b: c") 140 <> [].
Proof. apply (safe_filename_sound (u "a/b: c") 140). lia. Defined.

(** C9 as stated fails: with [max_len = 0] the result is the empty string,
    and with a negative [max_len] it is longer than [max_len]. *)
Lemma safe_filename_zero_max_len :
  safe_filename (u "a") 0 = []
  /\ ~ (forall (s : str) (max_len : Z),
          Forall (fun c => c ∉ illegal_chars) (safe_filename s max_len)
          /\ (Z.of_nat (length (safe_filename s max_len)) <= max_len)%Z
          /\ safe_filename s max_len <> []).
Proof.
  split; [reflexivity|].
  intros H. destruct (H (u "a") 0%Z) as (_ & _ & Hne). now apply Hne.
Qed.

(** ** The fetcher *)

Lemma part_path_ne p : part_path p <> p.
Proof.
  unfold part_path. intros H. apply (f_equal length) in H.
  rewrite length_app in H. simpl in H. lia.
Qed.

Lemma states_of_snoc f ops op :
  states_of f (ops ++ [op]) = states_of f ops ++ [apply_op (apply_ops f ops) op].
Proof.
  revert f. induction ops as [|o ops IH]; intros f; simpl; [reflexivity|].
  f_equal. apply IH.
Qed.

Lemma states_of_last f ops : last (states_of f ops) = Some (apply_ops f ops).
Proof.
  revert f. induction ops as [|o ops IH]; intros f; [reflexivity|].
  change (states_of f (o :: ops)) with (f :: states_of (apply_op f o) ops).
  specialize (IH (apply_op f o)).
  destruct (states_of (apply_op f o) ops) eqn:E; [discriminate|].
  exact IH.
Qed.

Lemma concat_nonempty_chunks (chunks : list (list byte)) :
  concat (filter (fun chunk => chunk <> []) chunks) = concat chunks.
Proof.
  induction chunks as [|c cs IH]; [reflexivity|].
  rewrite filter_cons. destruct (decide (c <> [])) as [Hc|Hc]; simpl.
  - now rewrite IH.
  - assert (c = []) as -> by (destruct c; [reflexivity | now destruct Hc]).
    exact IH.
Qed.

(** Appending chunks to an open file leaves it holding what it held
    followed by the chunks, and every state on the way differs from the
    starting one at that path only. *)
Lemma appends_apply f tmp acc cs :
  apply_ops (<[tmp := acc]> f) (map (Append tmp) cs) = <[tmp := acc ++ concat cs]> f.
Proof.
  revert acc. induction cs as [|c cs IH]; intros acc; simpl.
  - now rewrite app_nil_r.
  - rewrite lookup_insert_eq. simpl. rewrite insert_insert_eq.
    unfold apply_ops in IH. rewrite IH. now rewrite <- app_assoc.
Qed.

Lemma appends_states f tmp acc cs f' :
  f' ∈ states_of (<[tmp := acc]> f) (map (Append tmp) cs) ->
  exists d, f' = <[tmp := d]> f.
Proof.
  revert acc. induction cs as [|c cs IH]; intros acc; simpl.
  - intros H. apply list_elem_of_singleton in H. eauto.
  - intros H. apply elem_of_cons in H as [->|H]; [eauto|].
    rewrite lookup_insert_eq in H. simpl in H. rewrite insert_insert_eq in H.
    eapply IH, H.
Qed.

Lemma writes_apply f tmp cs :
  apply_ops f (OpenTrunc tmp :: map (Append tmp) cs) = <[tmp := concat cs]> f.
Proof. simpl. rewrite appends_apply. reflexivity. Qed.

Lemma writes_states f tmp cs f' :
  f' ∈ states_of f (OpenTrunc tmp :: map (Append tmp) cs) ->
  f' = f \/ exists d, f' = <[tmp := d]> f.
Proof.
  simpl. intros H. apply elem_of_cons in H as [->|H]; [now left|].
  right. eapply appends_states, H.
Qed.

Lemma st_size_insert f p d : st_size (<[p := d]> f) p = length d.
Proof. unfold st_size. now rewrite lookup_insert_eq. Qed.

(** What [download_ops] does, case by case. *)
Lemma download_ops_cases f resp out_path :
  let tmp := part_path out_path in
  match resp with
  | GetRaises => download_ops f resp out_path = ([], Raises)
  | Response status chunks complete =>
      let writes :=
        OpenTrunc tmp :: map (Append tmp) (filter (fun c => c <> []) chunks) in
      if status_is_error status then download_ops f resp out_path = ([], Raises)
      else if negb complete then download_ops f resp out_path = (writes, Raises)
      else if (length (concat chunks) <? 1024)%nat
      then download_ops f resp out_path = (writes ++ [Unlink tmp], Raises)
      else download_ops f resp out_path = (writes ++ [Replace tmp out_path], Returns ())
  end.
Proof.
  intros tmp. destruct resp as [|status chunks complete]; [reflexivity|].
  unfold download_ops. cbv zeta. fold tmp.
  destruct (status_is_error status); [reflexivity|].
  destruct complete; cbn [negb]; [|reflexivity].
  rewrite writes_apply, st_size_insert, concat_nonempty_chunks.
  destruct (length (concat chunks) <? 1024)%nat; reflexivity.
Qed.

#[local] Arguments download_ops : simpl never.

Lemma download_pdf_fs net pdf_url out_path w :
  fs (download_pdf net pdf_url out_path w).1
  = apply_ops (fs w)
      (download_ops (fs w) (stream_of net (length (requests w)) pdf_url) out_path).1.
Proof.
  unfold download_pdf. simpl.
  destruct (download_ops _ _ _) as [ops r]. reflexivity.
Qed.

Lemma download_pdf_result net pdf_url out_path w :
  (download_pdf net pdf_url out_path w).2
  = (download_ops (fs w) (stream_of net (length (requests w)) pdf_url) out_path).2.
Proof.
  unfold download_pdf. simpl.
  destruct (download_ops _ _ _) as [ops r]. reflexivity.
Qed.

Lemma download_pdf_requests net pdf_url out_path w :
  requests (download_pdf net pdf_url out_path w).1 = requests w ++ [pdf_url].
Proof.
  unfold download_pdf. simpl.
  destruct (download_ops _ _ _) as [ops r]. reflexivity.
Qed.

(** The destination after a fetch: as before when the fetch raises, the
    whole body, of at least 1024 bytes, when it returns; the temporary
    file is the only other path touched. *)
Lemma download_ops_final f resp out_path :
  let '(ops, r) := download_ops f resp out_path in
  let f' := apply_ops f ops in
  (forall p, p <> out_path -> p <> part_path out_path -> f' !! p = f !! p)
  /\ match r with
     | Raises => f' !! out_path = f !! out_path
     | Returns _ =>
         exists status chunks,
           resp = Response status chunks true
           /\ status_is_error status = false
           /\ f' !! out_path = Some (concat chunks)
           /\ 1024 <= length (concat chunks)
           /\ f' !! part_path out_path = None
     end.
Proof.
  pose proof (download_ops_cases f resp out_path) as H. cbv zeta in H.
  pose proof (part_path_ne out_path) as Hne.
  destruct resp as [|status chunks complete]; [rewrite H; simpl; auto|].
  destruct (status_is_error status) eqn:Hst; [rewrite H; simpl; auto|].
  destruct complete; cbn [negb] in H.
  - destruct (Nat.ltb_spec (length (concat chunks)) 1024) as [Hlt|Hge]; rewrite H;
      cbv beta iota zeta.
    + unfold apply_ops. rewrite foldl_app. fold (apply_ops f).
      rewrite writes_apply. simpl. split.
      * intros p _ Hp. rewrite lookup_delete_ne, lookup_insert_ne; auto.
      * rewrite lookup_delete_ne, lookup_insert_ne; auto.
    + unfold apply_ops. rewrite foldl_app. fold (apply_ops f).
      rewrite writes_apply. simpl. rewrite lookup_insert_eq.
      rewrite concat_nonempty_chunks. split.
      * intros p Hp Hp'.
        rewrite lookup_insert_ne, lookup_delete_ne, lookup_insert_ne; auto.
      * exists status, chunks. repeat split; auto.
        -- now rewrite lookup_insert_eq.
        -- rewrite lookup_insert_ne, lookup_delete_eq; auto.
  - rewrite H. cbv beta iota zeta. rewrite writes_apply. split.
    + intros p _ Hp. rewrite lookup_insert_ne; auto.
    + rewrite lookup_insert_ne; auto.
Qed.

(** Before its last operation a fetch has not touched the destination. *)
Lemma download_ops_states f resp out_path f' :
  f' ∈ states_of f (download_ops f resp out_path).1 ->
  f' !! out_path = f !! out_path
  \/ f' = apply_ops f (download_ops f resp out_path).1
     /\ (download_ops f resp out_path).2 = Returns ().
Proof.
  pose proof (download_ops_cases f resp out_path) as H. cbv zeta in H.
  pose proof (part_path_ne out_path) as Hne.
  assert (Hw : forall cs g, g ∈ states_of f
             (OpenTrunc (part_path out_path) :: map (Append (part_path out_path)) cs) ->
             g !! out_path = f !! out_path).
  { intros cs g Hg. apply writes_states in Hg as [->|[d ->]]; [reflexivity|].
    rewrite lookup_insert_ne; auto. }
  destruct resp as [|status chunks complete].
  { rewrite H. simpl. intros Hin. apply list_elem_of_singleton in Hin. subst. now left. }
  destruct (status_is_error status) eqn:Hst.
  { rewrite H. simpl. intros Hin. apply list_elem_of_singleton in Hin. subst. now left. }
  destruct complete; cbn [negb] in H.
  - destruct (Nat.ltb_spec (length (concat chunks)) 1024) as [Hlt|Hge]; rewrite H;
      cbn [fst snd]; rewrite states_of_snoc; intros Hin;
      apply elem_of_app in Hin as [Hin|Hin].
    + left. eapply Hw, Hin.
    + apply list_elem_of_singleton in Hin. subst f'. left.
      rewrite writes_apply. simpl.
      rewrite lookup_delete_ne, lookup_insert_ne; auto.
    + left. eapply Hw, Hin.
    + apply list_elem_of_singleton in Hin. subst f'. right. split; [|reflexivity].
      unfold apply_ops at 2. rewrite foldl_app. reflexivity.
  - rewrite H. cbn [fst snd]. intros Hin. left. eapply Hw, Hin.
Qed.

(** C2: a fetch raises before writing anything when the status is an
    error; it writes the body to the sibling [.part] file and renames it
    onto the destination as its last step, after a complete stream; a
    complete body under 1024 bytes is deleted and the call raises.  In every
    file system the fetch goes through, the destination holds what it held
    before the call, or, in the last one only, the whole body of at least
    1024 bytes. *)
Theorem download_pdf_atomic (net : Network) (pdf_url out_path : str) (w : world) :
  let resp := stream_of net (length (requests w)) pdf_url in
  let ops := (download_ops (fs w) resp out_path).1 in
  let w' := (download_pdf net pdf_url out_path w).1 in
  let r := (download_pdf net pdf_url out_path w).2 in
  last (states_of (fs w) ops) = Some (fs w')
  /\ (forall status chunks complete,
        resp = Response status chunks complete ->
        status_is_error status = true ->
        r = Raises /\ ops = [] /\ fs w' = fs w)
  /\ (forall f', f' ∈ states_of (fs w) ops ->
        f' !! out_path = fs w !! out_path
        \/ f' = fs w' /\ r = Returns ()
           /\ exists status chunks,
                resp = Response status chunks true
                /\ f' !! out_path = Some (concat chunks)
                /\ 1024 <= length (concat chunks))
  /\ (forall status chunks,
        resp = Response status chunks true ->
        status_is_error status = false ->
        length (concat chunks) < 1024 ->
        r = Raises
        /\ fs w' !! part_path out_path = None
        /\ fs w' !! out_path = fs w !! out_path)
  /\ (forall status chunks,
        resp = Response status chunks true ->
        status_is_error status = false ->
        1024 <= length (concat chunks) ->
        r = Returns ()
        /\ fs w' !! out_path = Some (concat chunks)
        /\ fs w' !! part_path out_path = None)
  /\ (forall status chunks,
        resp = Response status chunks false ->
        r = Raises /\ fs w' !! out_path = fs w !! out_path).
Proof.
  intros resp ops w' r.
  assert (Hfs : fs w' = apply_ops (fs w) ops) by apply download_pdf_fs.
  assert (Hr : r = (download_ops (fs w) resp out_path).2) by apply download_pdf_result.
  clearbody w' r.
  pose proof (download_ops_cases (fs w) resp out_path) as Hc. cbv zeta in Hc.
  pose proof (download_ops_final (fs w) resp out_path) as Hf.
  pose proof (download_ops_states (fs w) resp out_path) as Hs.
  pose proof (part_path_ne out_path) as Hne.
  subst ops.
  destruct (download_ops (fs w) resp out_path) as [ops r0] eqn:E.
  cbn [fst snd] in *. subst r0. rewrite <- Hfs in Hf, Hs.
  destruct Hf as [Hother Hdest].
  split; [|split; [|split; [|split; [|split]]]].
  - rewrite Hfs. apply states_of_last.
  - intros status chunks complete Er Hst. rewrite Er, Hst in Hc.
    injection Hc as -> ->. rewrite Hfs. auto.
  - intros f' Hin. apply Hs in Hin as [Hin|[Hin Hret]]; [now left|].
    right. split; [exact Hin|]. split; [exact Hret|].
    rewrite Hret in Hdest. destruct Hdest as (status & chunks & E1 & _ & E2 & E3 & _).
    exists status, chunks. rewrite Hin. auto.
  - intros status chunks Er Hst Hlt. rewrite Er, Hst in Hc. cbn [negb] in Hc.
    destruct (Nat.ltb_spec (length (concat chunks)) 1024); [|lia].
    injection Hc as -> ->. split; [reflexivity|]. split; [|exact Hdest].
    rewrite Hfs. unfold apply_ops. simpl. rewrite foldl_app. simpl.
    apply lookup_delete_eq.
  - intros status chunks Er Hst Hge. rewrite Er, Hst in Hc. cbn [negb] in Hc.
    destruct (Nat.ltb_spec (length (concat chunks)) 1024); [lia|].
    injection Hc as Hops ->. split; [reflexivity|].
    destruct Hdest as (status' & chunks' & E1 & _ & E2 & _ & E3).
    rewrite Er in E1. injection E1 as _ <-. auto.
  - intros status chunks Er. rewrite Er in Hc.
    destruct (status_is_error status); cbn [negb] in Hc;
      injection Hc as Hops ->; auto.
Qed.

(** ** Paths *)

Lemma last_app_nonempty (l k : str) : k <> [] -> last (l ++ k) = last k.
Proof.
  intros Hk. rewrite last_app. destruct (last k) eqn:E; [reflexivity|].
  apply last_None in E. contradiction.
Qed.

Lemma path_join_last dir name : name <> [] -> last (path_join dir name) = last name.
Proof.
  intros Hn. unfold path_join. case_bool_decide.
  - now apply last_app_nonempty.
  - rewrite app_assoc. now apply last_app_nonempty.
Qed.

Lemma part_path_last p : last (part_path p) = Some 116%N.
Proof. unfold part_path. now rewrite last_app_nonempty. Qed.

Lemma manifest_path_last out_dir : last (manifest_path out_dir) = Some 118%N.
Proof. unfold manifest_path. now rewrite path_join_last. Qed.

Section PathFacts.
Context {rt : PyRuntime}.

Lemma file_path_last out_dir work_url :
  last (file_path_of out_dir work_url) = Some 102%N.
Proof.
  unfold file_path_of, filename_of.
  rewrite path_join_last.
  - now rewrite last_app_nonempty.
  - intros H. apply app_eq_nil in H as [_ H]. discriminate.
Qed.

(** A document is never saved over the manifest or over a temporary file. *)
Lemma file_path_not_manifest out_dir work_url :
  file_path_of out_dir work_url <> manifest_path out_dir.
Proof.
  intros H. apply (f_equal last) in H.
  rewrite file_path_last, manifest_path_last in H. discriminate.
Qed.

Lemma file_path_not_part out_dir work_url p :
  file_path_of out_dir work_url <> part_path p.
Proof.
  intros H. apply (f_equal last) in H.
  rewrite file_path_last, part_path_last in H. discriminate.
Qed.

Lemma part_path_not_manifest out_dir p : part_path p <> manifest_path out_dir.
Proof.
  intros H. apply (f_equal last) in H.
  rewrite part_path_last, manifest_path_last in H. discriminate.
Qed.

End PathFacts.

(** ** The job *)

Lemma exists_check f p :
  path_exists f p && (0 <? st_size f p)%nat = true <-> nonempty_at f p.
Proof.
  unfold path_exists, st_size, nonempty_at. split.
  - intros H. apply andb_true_iff in H as [H1 H2].
    apply bool_decide_eq_true in H1 as [d Hd]. exists d. split; [exact Hd|].
    rewrite Hd in H2. simpl in H2. apply Nat.ltb_lt in H2.
    intros ->. simpl in H2. lia.
  - intros (d & Hd & Hne). apply andb_true_iff. split.
    + apply bool_decide_eq_true. rewrite Hd. eauto.
    + rewrite Hd. apply Nat.ltb_lt. destruct d; [contradiction | simpl; lia].
Qed.

Lemma exists_check_false f p :
  path_exists f p && (0 <? st_size f p)%nat = false <-> ~ nonempty_at f p.
Proof.
  rewrite <- exists_check. destruct (path_exists f p && (0 <? st_size f p)%nat);
    split; intros; congruence.
Qed.

(** The effect of one fetch on the files and on the request log. *)
Lemma download_pdf_summary net pdf_url out_path w w1 r :
  download_pdf net pdf_url out_path w = (w1, r) ->
  (forall p, p <> out_path -> p <> part_path out_path -> fs w1 !! p = fs w !! p)
  /\ requests w1 = requests w ++ [pdf_url]
  /\ match r with
     | Raises => fs w1 !! out_path = fs w !! out_path
     | Returns _ =>
         exists body, fs w1 !! out_path = Some body /\ 1024 <= length body
     end.
Proof.
  intros E.
  pose proof (download_pdf_fs net pdf_url out_path w) as Hfs.
  pose proof (download_pdf_result net pdf_url out_path w) as Hr.
  pose proof (download_pdf_requests net pdf_url out_path w) as Hq.
  rewrite E in Hfs, Hr, Hq. cbn [fst snd] in *.
  pose proof (download_ops_final (fs w)
                (stream_of net (length (requests w)) pdf_url) out_path) as Hf.
  destruct (download_ops _ _ _) as [ops r0]. cbn [fst snd] in *. subst r0.
  rewrite <- Hfs in Hf. destruct Hf as [Hother Hdest].
  split; [exact Hother|]. split; [exact Hq|].
  destruct r; [|exact Hdest].
  destruct Hdest as (status & chunks & _ & _ & Hd & Hl & _). eauto.
Qed.

Section JobFacts.
Context {rt : PyRuntime}.
Variable net : Network.

Lemma parse_work_page_summary work_url w w1 found :
  parse_work_page_for_pdf net work_url w = (w1, found) ->
  fs w1 = fs w /\ requests w1 = requests w ++ [work_url]
  /\ (found = Raises <-> page_of net (length (requests w)) work_url = PageRaises).
Proof.
  unfold parse_work_page_for_pdf.
  destruct (page_of net (length (requests w)) work_url) as [|code html].
  - intros [= <- <-]. simpl. intuition congruence.
  - destruct (negb (code =? 200)%Z).
    + intros [= <- <-]. simpl. intuition congruence.
    + destruct (re_search PDF_HREF_RE html); intros [= <- <-]; simpl;
        intuition congruence.
Qed.

(** What one job does to the world, whatever the servers answer. *)
Lemma job_download_spec work_url out_dir w w' r :
  job_download net work_url out_dir w = (w', r) ->
  let dest := file_path_of out_dir work_url in
  (nonempty_at (fs w) dest ->
     w' = w /\ exists row, r = Returns row /\ row_status row = st_exists)
  /\ (forall p, p <> dest -> p <> part_path dest -> fs w' !! p = fs w !! p)
  /\ (fs w' !! dest = fs w !! dest
      \/ ~ nonempty_at (fs w) dest
         /\ exists body, fs w' !! dest = Some body /\ 1024 <= length body)
  /\ (forall row, r = Returns row ->
        row_work_url row = work_url
        /\ (ok_status (row_status row) -> nonempty_at (fs w') dest)
        /\ (row_status row = st_exists -> w' = w))
  /\ (exists more, requests w' = requests w ++ more).
Proof.
  intros E dest. unfold job_download in E. fold dest in E.
  destruct (path_exists (fs w) dest && (0 <? st_size (fs w) dest)%nat) eqn:Hex.
  { apply exists_check in Hex. injection E as <- <-.
    split; [eauto|]. split; [auto|]. split; [auto|].
    split; [|exists []; now rewrite app_nil_r].
    intros row [= <-]. simpl. auto. }
  apply exists_check_false in Hex.
  split; [intros H; contradiction|].
  assert (Hbig : forall (f : gmap str (list byte)) body,
             f !! dest = Some body -> 1024 <= length body -> nonempty_at f dest).
  { intros f body Hb Hl. exists body. split; [exact Hb|].
    intros ->. simpl in Hl. lia. }
  (* the direct attempt *)
  set (direct_pdf := match work_id_from_url work_url with
                     | [] => []
                     | _ => u "https://static.even3.com/anais/"
                              ++ work_id_from_url work_url ++ u ".pdf"
                     end) in E.
  destruct (match direct_pdf with
            | [] => (w, Raises)
            | _ => download_pdf net direct_pdf dest w
            end) as [w1 direct] eqn:E1.
  assert (H1 : (forall p, p <> dest -> p <> part_path dest -> fs w1 !! p = fs w !! p)
               /\ (exists more, requests w1 = requests w ++ more)
               /\ match direct with
                  | Raises => fs w1 !! dest = fs w !! dest
                  | Returns _ =>
                      exists body, fs w1 !! dest = Some body /\ 1024 <= length body
                  end).
  { destruct direct_pdf.
    - injection E1 as <- <-. split; [auto|]. split; [|reflexivity].
      exists []. now rewrite app_nil_r.
    - apply download_pdf_summary in E1 as (Ha & Hb & Hc). eauto. }
  destruct H1 as (H1o & [more1 H1q] & H1d).
  destruct direct as [[]|].
  { injection E as <- <-. destruct H1d as (body & Hb & Hl).
    split; [exact H1o|]. split; [right; eauto|].
    split; [|eauto].
    intros row [= <-]. simpl. split; [reflexivity|].
    split; [eauto | discriminate]. }
  (* the work page *)
  destruct (parse_work_page_for_pdf net work_url w1) as [w2 found] eqn:E2.
  apply parse_work_page_summary in E2 as (H2f & H2q & _).
  assert (H2o : forall p, p <> dest -> p <> part_path dest -> fs w2 !! p = fs w !! p).
  { intros p Hp Hp'. rewrite H2f. auto. }
  assert (H2d : fs w2 !! dest = fs w !! dest) by (rewrite H2f; exact H1d).
  assert (H2r : exists more, requests w2 = requests w ++ more).
  { exists (more1 ++ [work_url]). rewrite H2q, H1q. now rewrite app_assoc. }
  destruct found as [[pdf_url|]|].
  - destruct pdf_url as [|c pdf_url].
    + injection E as <- <-. split; [exact H2o|]. split; [auto|]. split; [|exact H2r].
      intros row [= <-]. simpl. split; [reflexivity|].
      split; [intros [H|[H|H]]; discriminate | discriminate].
    + destruct (download_pdf net (c :: pdf_url) dest w2) as [w3 fetched] eqn:E3.
      apply download_pdf_summary in E3 as (H3o & H3q & H3d).
      assert (H3r : exists more, requests w3 = requests w ++ more).
      { destruct H2r as [more2 H2r]. exists (more2 ++ [c :: pdf_url]).
        rewrite H3q, H2r. now rewrite app_assoc. }
      assert (H3o' : forall p, p <> dest -> p <> part_path dest ->
                               fs w3 !! p = fs w !! p).
      { intros p Hp Hp'. rewrite H3o by assumption. auto. }
      destruct fetched as [[]|]; injection E as <- <-.
      * destruct H3d as (body & Hb & Hl).
        split; [exact H3o'|]. split; [right; eauto|]. split; [|exact H3r].
        intros row [= <-]. simpl. split; [reflexivity|].
        split; [eauto | discriminate].
      * split; [exact H3o'|]. split; [left; congruence|]. split; [|exact H3r].
        intros row [= <-]. simpl. split; [reflexivity|].
        split; [intros [H|[H|H]]; discriminate | discriminate].
  - injection E as <- <-. split; [exact H2o|]. split; [auto|]. split; [|exact H2r].
    intros row [= <-]. simpl. split; [reflexivity|].
    split; [intros [H|[H|H]]; discriminate | discriminate].
  - injection E as <- <-. split; [exact H2o|]. split; [auto|]. split; [|exact H2r].
    intros row [=].
Qed.

(** A document already on disk is reported without a request. *)
Lemma job_download_exists work_url out_dir w :
  nonempty_at (fs w) (file_path_of out_dir work_url) ->
  exists row,
    job_download net work_url out_dir w = (w, Returns row)
    /\ row_work_url row = work_url /\ row_status row = st_exists.
Proof.
  intros H. destruct (job_download net work_url out_dir w) as [w' r] eqn:E.
  pose proof (job_download_spec _ _ _ _ _ E) as (H1 & _ & _ & H4 & _).
  destruct (H1 H) as (-> & row & -> & Hst).
  exists row. destruct (H4 row eq_refl) as (Hu & _). auto.
Qed.

(** A job leaves every non-empty file in place, the temporary files
    apart. *)
Lemma job_download_keeps work_url out_dir w p d :
  fs w !! p = Some d -> d <> [] ->
  p <> part_path (file_path_of out_dir work_url) ->
  fs (job_download net work_url out_dir w).1 !! p = Some d.
Proof.
  intros Hp Hd Hne.
  destruct (job_download net work_url out_dir w) as [w' r] eqn:E.
  pose proof (job_download_spec _ _ _ _ _ E) as (H1 & H2 & _).
  cbn [fst]. destruct (decide (p = file_path_of out_dir work_url)) as [->|Hp'].
  - destruct H1 as [-> _]; [exists d; auto | exact Hp].
  - rewrite H2 by assumption. exact Hp.
Qed.

(** The only way a job raises: nothing on disk, no document at the guessed
    address, and the request for the work page raises. *)
Lemma job_download_raises work_url out_dir w w' :
  job_download net work_url out_dir w = (w', Raises) ->
  ~ nonempty_at (fs w) (file_path_of out_dir work_url)
  /\ exists n, page_of net n work_url = PageRaises.
Proof.
  intros E. unfold job_download in E.
  destruct (path_exists _ _ && _) eqn:Hex; [discriminate|].
  apply exists_check_false in Hex. split; [exact Hex|].
  destruct (match match work_id_from_url work_url with [] => [] | _ => _ end with
            | [] => (w, Raises)
            | _ => _
            end) as [w1 direct]; destruct direct as [[]|]; [discriminate|].
  destruct (parse_work_page_for_pdf net work_url w1) as [w2 found] eqn:E2.
  apply parse_work_page_summary in E2 as (_ & _ & Hraise).
  destruct found as [[[|c pdf_url]|]|]; try discriminate.
  - destruct (download_pdf net _ _ w2) as [w3 [[]|]]; discriminate.
  - exists (length (requests w1)). now apply Hraise.
Qed.

(** With servers whose work pages always answer, every job returns a row. *)
Lemma job_download_total work_url out_dir w :
  (forall n url, page_of net n url <> PageRaises) ->
  exists row, (job_download net work_url out_dir w).2 = Returns row.
Proof.
  intros Hpages.
  destruct (job_download net work_url out_dir w) as [w' [row|]] eqn:E; [eauto|].
  apply job_download_raises in E as (_ & n & Hn). now apply Hpages in Hn.
Qed.

End JobFacts.

(** ** The manifest loop *)

Section WorkerFacts.
Context {rt : PyRuntime}.
Variable net : Network.
Variable sched : Scheduler.
Variable out_dir : str.

Lemma run_job_eq work_url w :
  run_job net out_dir work_url w
  = ((job_download net work_url out_dir w).1,
     (job_download net work_url out_dir w).2,
     (work_url,
      length (requests (job_download net work_url out_dir w).1)
      - length (requests w))).
Proof. unfold run_job. now destruct (job_download net work_url out_dir w). Qed.

(** One step of the loop, in the three ways it can go. *)
Lemma as_completed_loop_step work_url rest pass w rows t ex :
  let w1 := (job_download net work_url out_dir w).1 in
  let fut := (job_download net work_url out_dir w).2 in
  let e := (work_url, length (requests w1) - length (requests w)) in
  as_completed_loop net sched out_dir (work_url :: rest) pass w rows t ex
  = if negb (running sched (S pass)) then
      {| run_end := Cancelled;
         final := (drain net out_dir rest w1 (ex ++ [e])).1;
         written := rows; counts := t;
         executed := (drain net out_dir rest w1 (ex ++ [e])).2 |}
    else
      match fut with
      | Raises =>
          {| run_end := Failed;
             final := (drain net out_dir rest w1 (ex ++ [e])).1;
             written := rows; counts := t;
             executed := (drain net out_dir rest w1 (ex ++ [e])).2 |}
      | Returns r =>
          as_completed_loop net sched out_dir rest (S pass)
            (write_row out_dir r w1) (rows ++ [r])
            (count_row (status_name (row_status r)) t) (ex ++ [e])
      end.
Proof.
  cbn [as_completed_loop]. rewrite run_job_eq. cbv zeta.
  destruct (negb (running sched (S pass))).
  - now destruct (drain _ _ _ _ _).
  - destruct (job_download net work_url out_dir w).2; [reflexivity|].
    now destruct (drain _ _ _ _ _).
Qed.

Lemma drain_step work_url rest w ex :
  let w1 := (job_download net work_url out_dir w).1 in
  drain net out_dir (work_url :: rest) w ex
  = drain net out_dir rest w1
      (ex ++ [(work_url, length (requests w1) - length (requests w))]).
Proof. cbn [drain]. rewrite run_job_eq. reflexivity. Qed.

(** A property of the world, of the rows written and of the jobs run that
    every job and every row written keep holds when the loop is left. *)
Lemma drain_invariant (Inv : world -> list (str * nat) -> Prop) :
  (forall work_url w ex,
     Inv w ex ->
     let w1 := (job_download net work_url out_dir w).1 in
     Inv w1 (ex ++ [(work_url, length (requests w1) - length (requests w))])) ->
  forall todo w ex,
    Inv w ex ->
    Inv (drain net out_dir todo w ex).1 (drain net out_dir todo w ex).2.
Proof.
  intros Hjob todo. induction todo as [|work_url rest IH]; intros w ex H.
  - exact H.
  - rewrite drain_step. apply IH, Hjob, H.
Qed.

Lemma loop_invariant (Inv : world -> list row -> list (str * nat) -> Prop) :
  (forall work_url w rows ex,
     Inv w rows ex ->
     let w1 := (job_download net work_url out_dir w).1 in
     let e := (work_url, length (requests w1) - length (requests w)) in
     Inv w1 rows (ex ++ [e])
     /\ forall r, (job_download net work_url out_dir w).2 = Returns r ->
                  Inv (write_row out_dir r w1) (rows ++ [r]) (ex ++ [e])) ->
  forall todo pass w rows t ex,
    Inv w rows ex ->
    let r := as_completed_loop net sched out_dir todo pass w rows t ex in
    Inv (final r) (written r) (executed r).
Proof.
  intros Hjob todo.
  assert (Hdrain : forall rows todo w ex, Inv w rows ex ->
            Inv (drain net out_dir todo w ex).1 rows (drain net out_dir todo w ex).2).
  { intros rows. apply (drain_invariant (fun w ex => Inv w rows ex)).
    intros work_url w ex H. apply (Hjob work_url w rows ex H). }
  induction todo as [|work_url rest IH]; intros pass w rows t ex H.
  - exact H.
  - cbv zeta. rewrite as_completed_loop_step. cbv zeta.
    destruct (Hjob work_url w rows ex H) as [H1 H2].
    destruct (negb (running sched (S pass))); [apply Hdrain, H1|].
    destruct (job_download net work_url out_dir w).2 as [r|] eqn:E.
    + apply IH, H2. reflexivity.
    + apply Hdrain, H1.
Qed.

(** Every submitted job is run, however the loop is left. *)
Lemma drain_executed todo w ex :
  map fst (drain net out_dir todo w ex).2 = map fst ex ++ todo.
Proof.
  revert w ex. induction todo as [|work_url rest IH]; intros w ex.
  - simpl. now rewrite app_nil_r.
  - rewrite drain_step. cbv zeta. rewrite IH, map_app. simpl.
    now rewrite <- app_assoc.
Qed.

Lemma loop_executed todo pass w rows t ex :
  map fst (executed (as_completed_loop net sched out_dir todo pass w rows t ex))
  = map fst ex ++ todo.
Proof.
  revert pass w rows t ex.
  induction todo as [|work_url rest IH]; intros pass w rows t ex.
  - simpl. now rewrite app_nil_r.
  - rewrite as_completed_loop_step. cbv zeta.
    assert (forall e : str * nat, e.1 = work_url ->
              map fst (ex ++ [e]) ++ rest = map fst ex ++ work_url :: rest) as Hl.
    { intros e <-. rewrite map_app. simpl. now rewrite <- app_assoc. }
    destruct (negb (running sched (S pass))); cbn [executed].
    + rewrite drain_executed. now apply Hl.
    + destruct (job_download net work_url out_dir w).2; cbn [executed].
      * rewrite IH. now apply Hl.
      * rewrite drain_executed. now apply Hl.
Qed.

(** The rows written are those of the first futures yielded, as many as
    passes were completed; the loop is left at the first pass that finds the
    flag cleared or a future holding an exception. *)
Lemma loop_written todo pass w rows t ex :
  let r := as_completed_loop net sched out_dir todo pass w rows t ex in
  exists k,
    k <= length todo
    /\ length (written r) = length rows + k
    /\ map row_work_url (written r) = map row_work_url rows ++ take k todo
    /\ done_count (counts r) = done_count t + k
    /\ (forall i, i < k -> running sched (S (pass + i)) = true)
    /\ match run_end r with
       | Completed => k = length todo
       | Cancelled => k < length todo /\ running sched (S (pass + k)) = false
       | Failed => k < length todo /\ running sched (S (pass + k)) = true
       end.
Proof.
  revert pass w rows t ex.
  induction todo as [|work_url rest IH]; intros pass w rows t ex.
  - exists 0. simpl. rewrite app_nil_r, !Nat.add_0_r.
    repeat split; auto. intros i Hi. lia.
  - cbv zeta. rewrite as_completed_loop_step. cbv zeta.
    destruct (running sched (S pass)) eqn:Hrun; cbn [negb].
    + destruct (job_download net work_url out_dir w) as [w1 [r|]] eqn:E;
        cbn [fst snd].
      * destruct (IH (S pass) (write_row out_dir r w1) (rows ++ [r])
                    (count_row (status_name (row_status r)) t)
                    (ex ++ [(work_url, length (requests w1) - length (requests w))]))
          as (k & Hk & Hlen & Hurls & Hdone & Hflags & Hend).
        exists (S k). simpl length.
        pose proof (job_download_spec net _ _ _ _ _ E) as (_ & _ & _ & Hrow & _).
        destruct (Hrow r eq_refl) as [Hu _].
        split; [lia|]. split; [rewrite Hlen, length_app; simpl; lia|].
        split; [rewrite Hurls, map_app; simpl; rewrite Hu, <- app_assoc; reflexivity|].
        split.
        { rewrite Hdone. unfold count_row.
          destruct (_ || _); [simpl; lia|]. destruct (bool_decide _); simpl; lia. }
        split.
        { intros [|i] Hi; [now rewrite Nat.add_0_r|].
          replace (pass + S i) with (S pass + i) by lia. apply Hflags. lia. }
        destruct (run_end _); [lia| |];
          (replace (pass + S k) with (S pass + k) by lia); split; try lia; tauto.
      * exists 0. cbn [written counts run_end]. simpl length.
        rewrite app_nil_r, !Nat.add_0_r.
        repeat split; auto; try lia; intros; lia.
    + exists 0. cbn [written counts run_end]. simpl length.
      rewrite app_nil_r, !Nat.add_0_r.
      repeat split; auto; try lia; intros; lia.
Qed.

End WorkerFacts.

Section DownloadPhase.
Context {rt : PyRuntime}.
Variable net : Network.
Variable sched : Scheduler.
Variable out_dir : str.

Abbreviation manifest := (manifest_path out_dir).
Abbreviation job work_url w := (job_download net work_url out_dir w).
Abbreviation loop := (as_completed_loop net sched out_dir).

Lemma write_row_manifest r w :
  fs (write_row out_dir r w) !! manifest
  = Some (default [] (fs w !! manifest) ++ csv_line (row_fields r)).
Proof. unfold write_row. simpl. apply lookup_insert_eq. Qed.

Lemma write_row_other r w p :
  p <> manifest -> fs (write_row out_dir r w) !! p = fs w !! p.
Proof. intros Hp. unfold write_row. simpl. now rewrite lookup_insert_ne. Qed.

Lemma write_row_requests r w : requests (write_row out_dir r w) = requests w.
Proof. reflexivity. Qed.

(** A job does not touch the manifest. *)
Lemma job_keeps_manifest work_url w :
  fs (job work_url w).1 !! manifest = fs w !! manifest.
Proof.
  destruct (job_download net work_url out_dir w) as [w' r] eqn:E.
  pose proof (job_download_spec net _ _ _ _ _ E) as (_ & H & _).
  cbn [fst]. apply H.
  - intros Heq. symmetry in Heq. now apply file_path_not_manifest in Heq.
  - intros Heq. symmetry in Heq. now apply part_path_not_manifest in Heq.
Qed.

(** The manifest file holds the header and the rows written so far at every
    point of the loop, and so when the loop is left. *)
Lemma loop_manifest todo pass w rows t ex :
  fs w !! manifest = Some (manifest_of rows) ->
  fs (final (loop todo pass w rows t ex)) !! manifest
  = Some (manifest_of (written (loop todo pass w rows t ex))).
Proof.
  intros H.
  apply (loop_invariant net sched out_dir
           (fun w rows _ => fs w !! manifest = Some (manifest_of rows))); [|exact H].
  clear. intros work_url w rows ex H. cbv zeta. split.
  - now rewrite job_keeps_manifest.
  - intros r _. rewrite write_row_manifest, job_keeps_manifest, H. simpl.
    unfold manifest_of. rewrite map_app, concat_app. simpl.
    now rewrite app_nil_r, app_assoc.
Qed.

(** A non-empty file that is neither the manifest nor a temporary file is
    still there, unchanged, when the loop is left. *)
Lemma loop_keeps_files todo pass w rows t ex p d :
  fs w !! p = Some d -> d <> [] -> p <> manifest ->
  (forall q, p <> part_path q) ->
  fs (final (loop todo pass w rows t ex)) !! p = Some d.
Proof.
  intros H Hd Hm Hq.
  apply (loop_invariant net sched out_dir (fun w _ _ => fs w !! p = Some d));
    [|exact H].
  intros work_url w0 rows0 ex0 H0. cbv zeta.
  assert (fs (job work_url w0).1 !! p = Some d) as H1
    by (apply job_download_keeps; auto).
  split; [exact H1|]. intros r _. now rewrite write_row_other.
Qed.

(** Without a job that raises the loop is not left through the exception
    handler. *)
Lemma loop_not_failed todo pass w rows t ex :
  (forall n url, page_of net n url <> PageRaises) ->
  run_end (loop todo pass w rows t ex) <> Failed.
Proof.
  intros Hpages. revert pass w rows t ex.
  induction todo as [|work_url rest IH]; intros pass w rows t ex; [discriminate|].
  rewrite as_completed_loop_step. cbv zeta.
  destruct (negb (running sched (S pass))); [discriminate|].
  destruct (job_download_total net work_url out_dir w Hpages) as [r ->].
  apply IH.
Qed.

Lemma download_all_eq work_urls w :
  download_all net sched out_dir work_urls w
  = loop (completion sched work_urls) 0 (open_manifest out_dir w) [] tally_zero [].
Proof. reflexivity. Qed.

Lemma open_manifest_manifest w :
  fs (open_manifest out_dir w) !! manifest = Some (manifest_of []).
Proof.
  unfold open_manifest, manifest_of. cbv zeta. simpl.
  rewrite !lookup_insert_eq. simpl. now rewrite app_nil_r.
Qed.

Lemma open_manifest_other w p :
  p <> manifest -> fs (open_manifest out_dir w) !! p = fs w !! p.
Proof.
  intros Hp. unfold open_manifest. cbv zeta. simpl.
  now rewrite !lookup_insert_ne.
Qed.

(** What the manifest held before the run has no influence on it. *)
Lemma open_manifest_forgets w old :
  open_manifest out_dir (set_fs (<[manifest := old]> (fs w)) w) = open_manifest out_dir w.
Proof.
  unfold open_manifest, set_fs. cbv zeta. simpl. f_equal.
  rewrite !lookup_insert_eq, !insert_insert_eq. reflexivity.
Qed.


(** C10: the download phase opens the manifest for writing before any job
    is submitted, so whatever a previous run left in it is gone: the run
    does not depend on the old content, and the file ends up holding the
    header and the rows of this run only.  Every non-empty file that is not
    the manifest or a temporary [.part] file, in particular every document
    downloaded before, is left as it was.  A run of [worker] that does not
    reach the download phase touches no file at all. *)
Theorem manifest_truncated_documents_kept (work_urls : list str) (w : world) :
  let r := download_all net sched out_dir work_urls w in
  (forall old,
     download_all net sched out_dir work_urls
       (set_fs (<[manifest := old]> (fs w)) w) = r)
  /\ fs (final r) !! manifest = Some (manifest_of (written r))
  /\ (forall p d,
        fs w !! p = Some d -> d <> [] -> p <> manifest ->
        (forall q, p <> part_path q) ->
        fs (final r) !! p = Some d)
  /\ (forall work_url d,
        fs w !! file_path_of out_dir work_url = Some d -> d <> [] ->
        fs (final r) !! file_path_of out_dir work_url = Some d)
  /\ (forall fuel br slug r',
        worker net sched out_dir fuel br slug w = Some r' ->
        final r' = w /\ written r' = [] /\ executed r' = []
        \/ exists found, found <> [] /\ r' = download_all net sched out_dir found w).
Proof.
  intros r. subst r.
  assert (Hkeep : forall p d,
            fs w !! p = Some d -> d <> [] -> p <> manifest ->
            (forall q, p <> part_path q) ->
            fs (final (download_all net sched out_dir work_urls w)) !! p = Some d).
  { intros p d Hp Hd Hm Hq. rewrite download_all_eq.
    apply loop_keeps_files; auto. now rewrite open_manifest_other. }
  split; [|split; [|split; [|split]]].
  - intros old. rewrite !download_all_eq. now rewrite open_manifest_forgets.
  - rewrite download_all_eq. apply loop_manifest, open_manifest_manifest.
  - exact Hkeep.
  - intros work_url d Hp Hd. apply Hkeep; auto.
    + apply file_path_not_manifest.
    + intros q. apply file_path_not_part.
  - intros fuel br slug r'. unfold worker.
    destruct (collect_work_urls_with_playwright fuel br slug) as [[found|]|];
      [|intros [= <-]; left; auto|discriminate].
    destruct found as [|u0 found]; [intros [= <-]; left; auto|].
    destruct (negb (running sched 0)); intros [= <-]; [left; auto|].
    right. exists (u0 :: found). split; [discriminate | reflexivity].
Qed.

(** C6, as amended: all jobs are submitted before the loop starts and all
    of them are run before the worker leaves the pool, cancelled or not.
    The rows written are those of the futures yielded in the passes that
    found the flag set; the pass that finds it cleared writes nothing, so a
    cancelled run holds fewer rows than jobs were run, and when the flag is
    first found cleared in pass [k] the manifest has exactly [k] rows. *)
Theorem cancellation_keeps_rows_written_before (work_urls : list str) (w : world) :
  let r := download_all net sched out_dir work_urls w in
  let yielded := completion sched work_urls in
  map fst (executed r) = yielded
  /\ map row_work_url (written r) = take (length (written r)) yielded
  /\ length (written r) <= length yielded
  /\ (forall i, i < length (written r) -> running sched (S i) = true)
  /\ (run_end r = Cancelled ->
        length (written r) < length (executed r)
        /\ running sched (S (length (written r))) = false)
  /\ (forall k,
        k < length yielded ->
        (forall i, i < k -> running sched (S i) = true) ->
        running sched (S k) = false ->
        (forall n url, page_of net n url <> PageRaises) ->
        run_end r = Cancelled /\ length (written r) = k).
Proof.
  intros r yielded. subst r. rewrite download_all_eq. fold yielded.
  pose proof (loop_executed net sched out_dir yielded 0 (open_manifest out_dir w) []
                tally_zero []) as Hex.
  pose proof (loop_written net sched out_dir yielded 0 (open_manifest out_dir w) []
                tally_zero []) as Hw.
  cbv zeta in Hw. simpl in Hex, Hw.
  destruct Hw as (k & Hk & Hlen & Hurls & _ & Hflags & Hend).
  set (r := loop yielded 0 (open_manifest out_dir w) [] tally_zero []) in *.
  split; [exact Hex|]. split; [now rewrite Hlen|]. split; [lia|].
  split; [intros i Hi; apply Hflags; lia|]. split.
  - intros Hc. rewrite Hc in Hend.
    assert (length (executed r) = length yielded) as ->
      by (rewrite <- Hex; now rewrite length_map).
    rewrite Hlen. tauto.
  - intros k' Hk' Htrue Hfalse Hpages.
    pose proof (loop_not_failed yielded 0 (open_manifest out_dir w) [] tally_zero [] Hpages)
      as Hnf. fold r in Hnf.
    assert (k <= k') as Hle.
    { destruct (Nat.le_gt_cases k k') as [|Hgt]; [assumption|].
      rewrite (Hflags k' Hgt) in Hfalse. discriminate. }
    destruct (run_end r); [lia| |contradiction].
    destruct Hend as [_ Hend]. split; [reflexivity|].
    destruct (Nat.eq_dec k k') as [->|Hne]; [exact Hlen|].
    rewrite (Htrue k) in Hend by lia. discriminate.
Qed.

End DownloadPhase.

(** ** Running the download phase again *)

Section Skipping.
Context {rt : PyRuntime}.
Variable net : Network.
Variable sched : Scheduler.
Variable out_dir : str.

Abbreviation dest work_url := (file_path_of out_dir work_url).







End Skipping.

Section Resume.
Context {rt : PyRuntime}.
Variables net1 net2 : Network.
Variables sched1 sched2 : Scheduler.
Variable out_dir : str.


End Resume.

(** ** The code at concrete inputs *)

Section Evaluated.
Context {rt : PyRuntime}.

Lemma replace_hyphen_no_hyphen s : Forall (fun c => c <> 45%N) (replace_hyphen s).
Proof.
  unfold replace_hyphen. apply Forall_forall. intros c Hc.
  apply list_elem_of_In, in_map_iff in Hc as (c0 & <- & _).
  destruct (N.eqb_spec c0 45); [discriminate | assumption].
Qed.

(** No title has a hyphen in it, whatever the work URL. *)
Lemma guess_title_no_hyphen work_url :
  Forall (fun c => c <> 45%N) (guess_title_from_work_url work_url).
Proof.
  unfold guess_title_from_work_url.
  destruct (re_match title_re _); [|constructor].
  apply Forall_strip_by, sub_runs_Forall.
  - repeat constructor; discriminate.
  - eapply Forall_impl; [apply replace_hyphen_no_hyphen | auto].
Qed.

(** C8: for the work URL ending in [528929-ELES-NAO-TEM--MEDO] the work id
    is [528929], but the title is [ELES NAO TEM MEDO]: the hyphen that
    [replace("--", " - ")] puts in is turned into a space by the
    [replace("-", " ")] that follows, and the run of spaces is collapsed.
    No work URL at all gets a title with a hyphen in it. *)
Theorem guess_title_loses_the_double_hyphen :
  let work_url :=
    u "https://www.even3.com.br/anais/ennepe2022/528929-ELES-NAO-TEM--MEDO" in
  last_segment 47 (strip_slash (urlparse_path work_url))
    = u "528929-ELES-NAO-TEM--MEDO"
  /\ guess_title_from_work_url work_url = u "ELES NAO TEM MEDO"
  /\ guess_title_from_work_url work_url <> u "ELES NAO TEM - MEDO"
  /\ work_id_from_url work_url = u "528929"
  /\ (forall any_url, 45%N ∉ guess_title_from_work_url any_url).
Proof.
  split; [|split; [|split; [|split]]]; try (vm_compute; reflexivity).
  - vm_compute. discriminate.
  - intros any_url Hin.
    pose proof (guess_title_no_hyphen any_url) as H.
    rewrite Forall_forall in H. now apply (H _ Hin).
Qed.

(** The guessed address answers 200 with a three-byte body: the direct
    attempt is dropped, the link found in the work page is fetched, the row
    says [downloaded_fallback], and the destination holds the 2048-byte
    document with no temporary file left. *)
Lemma small_direct_body_falls_back :
  let done := job_download net_wrong_guess (sim_url 0) sim_out_dir empty_world in
  let dest := file_path_of sim_out_dir (sim_url 0) in
  (exists r, done.2 = Returns r
             /\ row_status r = downloaded_fallback
             /\ row_pdf_url r = u "https://static.even3.com/anais/77001.pdf?v=2"
             /\ row_file_path r = dest)
  /\ st_size (fs done.1) dest = 2048
  /\ fs done.1 !! part_path dest = None
  /\ requests done.1
     = [u "https://static.even3.com/anais/528900.pdf"; sim_url 0;
        u "https://static.even3.com/anais/77001.pdf?v=2"].
Proof. vm_compute. split; [eexists; repeat split|repeat split]. Qed.

(** C3: a job whose guessed document is answered 404 and whose work-page
    request raises produces no status: the call raises, after two
    requests. *)
Theorem job_download_raises_on_page_error :
  let done := job_download net_unreachable (sim_url 0) sim_out_dir empty_world in
  done.2 = Raises
  /\ requests done.1
     = [u "https://static.even3.com/anais/528900.pdf"; sim_url 0]
  /\ fs done.1 = fs empty_world.
Proof. vm_compute. repeat split. Qed.

(** C1: the exception of one job ends the run.  Of two submitted URLs the
    first cannot be fetched and its work-page request raises; the loop is
    left through the handler of [worker], no row is written, not even for
    the second URL, whose document the pool did download. *)
Theorem one_failing_job_ends_the_run :
  let work_urls := [sim_url 0; sim_url 1] in
  let r := download_all net_one_down sched_fifo sim_out_dir work_urls empty_world in
  (job_download net_one_down (sim_url 0) sim_out_dir empty_world).2 = Raises
  /\ run_end r = Failed
  /\ written r = []
  /\ map fst (executed r) = work_urls
  /\ st_size (fs (final r)) (file_path_of sim_out_dir (sim_url 1)) = 2048
  /\ fs (final r) !! manifest_path sim_out_dir = Some (manifest_of (written r)).
Proof.
  intros work_urls r.
  assert (fs (final r) !! manifest_path sim_out_dir
          = Some (manifest_of (written r))) as Hm
    by apply loop_manifest, open_manifest_manifest.
  revert Hm. vm_compute. intros Hm. repeat split. exact Hm.
Qed.

(** C5: a run that nobody cancels can end with fewer rows than URLs.  With
    two URLs submitted and every work-page request raising, the manifest
    holds the header and no row. *)
Theorem uncancelled_run_with_missing_rows :
  let work_urls := [sim_url 0; sim_url 1] in
  let r := download_all net_unreachable sched_fifo sim_out_dir work_urls empty_world in
  (forall i, running sched_fifo i = true)
  /\ run_end r = Failed
  /\ length (written r) = 0
  /\ length (executed r) = 2
  /\ fs (final r) !! manifest_path sim_out_dir = Some (manifest_of (written r)).
Proof.
  intros work_urls r.
  assert (fs (final r) !! manifest_path sim_out_dir
          = Some (manifest_of (written r))) as Hm
    by apply loop_manifest, open_manifest_manifest.
  revert Hm. vm_compute. intros Hm. repeat split. exact Hm.
Qed.

End Evaluated.

(** ** The harvester *)

(** *** Python's order on strings *)

Lemma str_leb_refl s : str_leb s s = true.
Proof.
  induction s as [|a s IH]; [reflexivity|]. simpl.
  rewrite N.ltb_irrefl, N.eqb_refl. exact IH.
Qed.

Lemma str_leb_total s t : str_leb s t = true \/ str_leb t s = true.
Proof.
  revert t. induction s as [|a s IH]; intros [|b t]; simpl; auto.
  destruct (N.ltb_spec a b), (N.ltb_spec b a); auto; try lia.
  assert (a = b) as -> by lia. rewrite N.eqb_refl. apply IH.
Qed.

Lemma str_leb_trans s t v :
  str_leb s t = true -> str_leb t v = true -> str_leb s v = true.
Proof.
  revert t v. induction s as [|a s IH]; intros [|b t] [|c v]; simpl; auto;
    try discriminate.
  destruct (N.ltb_spec a b), (N.ltb_spec b c), (N.ltb_spec a c);
    auto; try lia;
    destruct (N.eqb_spec a b), (N.eqb_spec b c), (N.eqb_spec a c);
    try discriminate; try lia; eauto.
Qed.

Lemma str_leb_antisym s t : str_leb s t = true -> str_leb t s = true -> s = t.
Proof.
  revert t. induction s as [|a s IH]; intros [|b t]; simpl; auto;
    try discriminate.
  destruct (N.ltb_spec a b), (N.ltb_spec b a), (N.eqb_spec a b), (N.eqb_spec b a);
    try lia; try discriminate.
  intros H1 H2. f_equal; [assumption | now apply IH].
Qed.

#[global] Instance str_le_total : Total str_le.
Proof. intros s t. apply str_leb_total. Qed.
#[global] Instance str_le_trans : Transitive str_le.
Proof. intros s t v. apply str_leb_trans. Qed.
#[global] Instance str_le_antisym : AntiSymm (=) str_le.
Proof. intros s t. apply str_leb_antisym. Qed.

(** [sorted] lists the set in increasing order, each element once. *)
Lemma sorted_spec (c : gset str) :
  StronglySorted str_le (sorted c)
  /\ NoDup (sorted c)
  /\ (forall x, x ∈ sorted c <-> x ∈ c)
  /\ length (sorted c) = size c.
Proof.
  unfold sorted.
  pose proof (merge_sort_Permutation str_le (elements c)) as Hp.
  split; [apply StronglySorted_merge_sort; apply _|].
  split; [rewrite Hp; apply NoDup_elements|].
  split; [intros x; rewrite Hp; apply elem_of_elements|].
  now rewrite Hp.
Qed.

Lemma before_first_clean sep s : sep ∉ before_first sep s.
Proof.
  unfold before_first. induction s as [|c s IH]; simpl.
  - apply not_elem_of_nil.
  - destruct (N.eqb_spec c sep); simpl; [apply not_elem_of_nil|].
    intros H. apply elem_of_cons in H as [H|H]; [congruence | contradiction].
Qed.

Section HarvestFacts.
Context {rt : PyRuntime}.
Variable br : Browser.
Variable slug : str.

Lemma scrape_fold hs acc :
  let acc' := fold_left (scrape_one slug) hs acc in
  acc.1 ⊆ acc'.1
  /\ size acc'.1 + acc.2 = size acc.1 + acc'.2
  /\ (forall x, x ∈ acc'.1 ->
        x ∈ acc.1
        \/ exists h, Some h ∈ hs /\ is_work_url slug h = true
                     /\ x = before_first 63 h).
Proof.
  revert acc. induction hs as [|h hs IH]; intros acc; simpl.
  - split; [reflexivity|]. split; [reflexivity | auto].
  - destruct (IH (scrape_one slug acc h)) as (Hsub & Hsize & Hnew).
    assert (Hone :
      acc.1 ⊆ (scrape_one slug acc h).1
      /\ size (scrape_one slug acc h).1 + acc.2
         = size acc.1 + (scrape_one slug acc h).2
      /\ (forall x, x ∈ (scrape_one slug acc h).1 ->
            x ∈ acc.1
            \/ exists h0, Some h0 = h /\ is_work_url slug h0 = true
                          /\ x = before_first 63 h0)).
    { unfold scrape_one. destruct h as [h|]; [|split; [reflexivity | auto]].
      destruct (is_work_url slug h) eqn:Hw; [|split; [reflexivity | auto]].
      destruct (decide (before_first 63 h ∈ acc.1)) as [Hin|Hin];
        [split; [reflexivity | auto]|].
      simpl. split; [apply union_subseteq_r|]. split.
      - rewrite size_union by (apply disjoint_singleton_l, Hin).
        rewrite size_singleton. lia.
      - intros x Hx. apply elem_of_union in Hx as [Hx|Hx]; [|auto].
        apply elem_of_singleton in Hx. right. eauto. }
    destruct Hone as (Hsub1 & Hsize1 & Hnew1).
    split; [etransitivity; eassumption|]. split; [lia|].
    intros x Hx. destruct (Hnew x Hx) as [Hx'|(h0 & Hin & Hw & ->)].
    + destruct (Hnew1 x Hx') as [|(h0 & <- & Hw & ->)]; [auto|].
      right. exists h0. split; [left|auto].
    + right. exists h0. split; [now right | auto].
Qed.

(** [scrape_links]: the set only grows, [new_count] is by how much, and
    what is added are cleaned work links of the page. *)
Lemma scrape_links_spec b coll :
  let '(coll', new_here) := scrape_links br slug b coll in
  coll ⊆ coll'
  /\ size coll' = size coll + new_here
  /\ (forall x, x ∈ coll' -> x ∈ coll \/ link_of_page br slug b x).
Proof.
  unfold scrape_links.
  destruct (hrefs br b) as [hs|] eqn:Eh.
  - pose proof (scrape_fold hs (coll, 0)) as H. cbv zeta in H.
    destruct (fold_left (scrape_one slug) hs (coll, 0)) as [coll' n].
    simpl in H. destruct H as (Hsub & Hsize & Hnew).
    split; [exact Hsub|]. split; [lia|].
    intros x Hx. destruct (Hnew x Hx) as [|(h & Hin & Hw & ->)]; [auto|].
    right. exists hs, h. auto.
  - split; [reflexivity|]. split; [lia | auto].
Qed.

Lemma scrape_links_none b coll :
  (scrape_links br slug b coll).2 = 0 -> (scrape_links br slug b coll).1 = coll.
Proof.
  pose proof (scrape_links_spec b coll) as H.
  destruct (scrape_links br slug b coll) as [coll' n]. simpl.
  destruct H as (Hsub & Hsize & _). intros ->.
  apply set_eq. intros x. split; [|apply Hsub].
  intros Hx. destruct (decide (x ∈ coll)) as [|Hn]; [assumption|].
  assert (size ({[x]} ∪ coll) <= size coll') as Hle.
  { apply subseteq_size, union_subseteq. split; [|exact Hsub].
    now apply singleton_subseteq_l. }
  rewrite size_union, size_singleton in Hle by (apply disjoint_singleton_l, Hn).
  lia.
Qed.

(** The two ways out of the loop, and the only ones. *)
Lemma harvest_iter_stop_rule st :
  let coll := (scrape_links br slug (hpage st) (collected st)).1 in
  let new_here := (scrape_links br slug (hpage st) (collected st)).2 in
  harvest_iter br slug st
  = if (5 <=? stalled_after br new_here st)%nat
       || negb (click_next br (hpage st)).1
    then inl coll
    else inr {| hpage := (click_next br (hpage st)).2;
                collected := coll;
                stalled := stalled_after br new_here st;
                page_idx := S (page_idx st) |}.
Proof.
  unfold harvest_iter.
  destruct (scrape_links br slug (hpage st) (collected st)) as [coll n].
  cbn [fst snd].
  destruct (5 <=? stalled_after br n st)%nat; [reflexivity|].
  cbn [orb]. destruct (click_next br (hpage st)) as [[] b']; reflexivity.
Qed.

Lemma harvest_loop_more_fuel fuel fuel' st coll :
  fuel <= fuel' ->
  harvest_loop br slug fuel st = Some coll ->
  harvest_loop br slug fuel' st = Some coll.
Proof.
  revert fuel' st. induction fuel as [|fuel IH]; intros fuel' st Hle; [discriminate|].
  destruct fuel' as [|fuel']; [lia|]. simpl.
  destruct (harvest_iter br slug st); [auto|]. apply IH. lia.
Qed.

(** Everything in the returned set is a cleaned work link of some page. *)
Lemma harvest_loop_links fuel st coll :
  harvest_loop br slug fuel st = Some coll ->
  (forall x, x ∈ collected st -> exists b, link_of_page br slug b x) ->
  forall x, x ∈ coll -> exists b, link_of_page br slug b x.
Proof.
  revert st. induction fuel as [|fuel IH]; intros st; [discriminate|].
  simpl. rewrite harvest_iter_stop_rule. cbv zeta.
  pose proof (scrape_links_spec (hpage st) (collected st)) as Hs.
  destruct (scrape_links br slug (hpage st) (collected st)) as [coll' n].
  destruct Hs as (_ & _ & Hnew). cbn [fst snd].
  assert ((forall x, x ∈ collected st -> exists b, link_of_page br slug b x) ->
          forall x, x ∈ coll' -> exists b, link_of_page br slug b x) as Hstep.
  { intros Hold x Hx. destruct (Hnew x Hx); eauto. }
  destruct (_ || _).
  - intros [= <-] Hold. now apply Hstep.
  - intros Hloop Hold. eapply IH; [exact Hloop|]. simpl. now apply Hstep.
Qed.

(** The stall counter bounds the loop: when every work link the listing
    can show belongs to a finite set [U], the loop is left within
    [5 * (size U + 1)] passes, whatever the next-page control does. *)
Lemma harvest_loop_terminates (U : gset str) fuel st :
  (forall b x, link_of_page br slug b x -> x ∈ U) ->
  collected st ⊆ U ->
  stalled st < 5 ->
  5 * (size U - size (collected st)) + (5 - stalled st) <= fuel ->
  exists coll, harvest_loop br slug fuel st = Some coll /\ coll ⊆ U.
Proof.
  intros HU. revert st. induction fuel as [|fuel IH]; intros st Hsub Hst Hfuel; [lia|].
  simpl. rewrite harvest_iter_stop_rule. cbv zeta.
  pose proof (scrape_links_spec (hpage st) (collected st)) as Hs.
  destruct (scrape_links br slug (hpage st) (collected st)) as [coll' n].
  destruct Hs as (Hgrow & Hsize & Hnew). cbn [fst snd].
  assert (coll' ⊆ U) as Hsub'.
  { intros x Hx. destruct (Hnew x Hx) as [|Hl]; [auto | eapply HU, Hl]. }
  pose proof (subseteq_size _ _ Hsub') as Hle.
  destruct (Nat.leb_spec 5 (stalled_after br n st)) as [|Hlt]; simpl; [eauto|].
  destruct (negb (click_next br (hpage st)).1); [eauto|].
  apply IH; simpl; auto.
  unfold stalled_after in *. destruct (Nat.eqb_spec n 0); lia.
Qed.

End HarvestFacts.

Section HarvestResult.
Context {rt : PyRuntime}.
Variable br : Browser.
Variable slug : str.

Lemma collect_returns fuel urls :
  collect_work_urls_with_playwright fuel br slug = Some (Returns urls) ->
  exists b0 coll,
    goto br = Some b0
    /\ harvest_loop br slug fuel (harvest_init br b0) = Some coll
    /\ urls = sorted coll.
Proof.
  unfold collect_work_urls_with_playwright.
  destruct (goto br) as [b0|] eqn:Eg; [|discriminate].
  destruct (harvest_loop br slug fuel (harvest_init br b0)) as [coll|] eqn:El;
    [|discriminate].
  intros [= <-]. exists b0, coll. auto.
Qed.

Lemma collect_more_fuel fuel fuel' r :
  fuel <= fuel' ->
  collect_work_urls_with_playwright fuel br slug = Some r ->
  collect_work_urls_with_playwright fuel' br slug = Some r.
Proof.
  intros Hle. unfold collect_work_urls_with_playwright.
  destruct (goto br) as [b0|]; [|auto].
  destruct (harvest_loop br slug fuel (harvest_init br b0)) as [coll|] eqn:E;
    [|discriminate].
  now rewrite (harvest_loop_more_fuel br slug fuel fuel' _ coll Hle E).
Qed.

Lemma collect_sorted_set fuel urls :
  collect_work_urls_with_playwright fuel br slug = Some (Returns urls) ->
  StronglySorted str_le urls
  /\ NoDup urls
  /\ Forall (fun x => (63%N ∉ x) /\ exists b, link_of_page br slug b x) urls.
Proof.
  intros H. apply collect_returns in H as (b0 & coll & _ & Hloop & ->).
  destruct (sorted_spec coll) as (Hs & Hn & Hel & _).
  split; [exact Hs|]. split; [exact Hn|].
  apply Forall_forall. intros x Hx. apply Hel in Hx.
  destruct (harvest_loop_links br slug fuel _ coll Hloop) with (x := x)
    as [b Hb]; [|exact Hx|].
  { simpl. intros y Hy. apply elem_of_empty in Hy. contradiction. }
  split; [|eauto].
  destruct Hb as (hs & h & _ & _ & _ & ->). apply before_first_clean.
Qed.

Lemma collect_terminates (U : gset str) fuel :
  (forall b x, link_of_page br slug b x -> x ∈ U) ->
  5 * (size U + 1) <= fuel ->
  exists r, collect_work_urls_with_playwright fuel br slug = Some r.
Proof.
  intros HU Hfuel. unfold collect_work_urls_with_playwright.
  destruct (goto br) as [b0|]; [|eauto].
  assert (exists coll, harvest_loop br slug fuel (harvest_init br b0) = Some coll
                       /\ coll ⊆ U) as (coll & -> & _); [|eauto].
  apply harvest_loop_terminates; cbn [harvest_init collected stalled];
    [exact HU | apply empty_subseteq | lia |].
  rewrite size_empty. lia.
Qed.

End HarvestResult.

(** The simulated listing: three passes collect the thirty links when the
    control of page 3 is missing, disabled or raises; when it can be
    clicked without effect, five more passes find nothing new and the stall
    counter ends the loop. *)
Lemma sim_harvest {rt : PyRuntime} :
  collect_work_urls_with_playwright 3 (sim_browser NextMissing) sim_slug
    = Some (Returns (map sim_url (seq 0 30)))
  /\ collect_work_urls_with_playwright 3 (sim_browser NextDisabled) sim_slug
    = Some (Returns (map sim_url (seq 0 30)))
  /\ collect_work_urls_with_playwright 3 (sim_browser NextTimesOut) sim_slug
    = Some (Returns (map sim_url (seq 0 30)))
  /\ collect_work_urls_with_playwright 8 (sim_browser NextInert) sim_slug
    = Some (Returns (map sim_url (seq 0 30)))
  /\ collect_work_urls_with_playwright 7 (sim_browser NextInert) sim_slug = None.
Proof. vm_compute. repeat split. Qed.

(** ** Counterexamples to the claims as first stated *)

(** C6 as stated fails: both jobs were submitted and both documents are
    downloaded, yet a stop request read in the first pass leaves the
    manifest without a single row. *)
Lemma stop_request_drops_completed_jobs :
  let work_urls := [sim_url 0; sim_url 1] in
  let r := @download_all ascii_runtime net_serving sched_stop_early sim_out_dir
             work_urls empty_world in
  run_end r = Cancelled
  /\ map fst (executed r) = work_urls
  /\ st_size (fs (final r)) (@file_path_of ascii_runtime sim_out_dir (sim_url 0)) = 2048
  /\ st_size (fs (final r)) (@file_path_of ascii_runtime sim_out_dir (sim_url 1)) = 2048
  /\ written r = []
  /\ ~ (length (executed r) <= length (written r) <= length work_urls).
Proof. vm_compute. repeat split. intros [H _]. inversion H. Qed.



(** ** The theorems at concrete inputs *)

(** A complete 2048-byte body arrives at the destination and the temporary
    file is gone. *)
Lemma download_pdf_atomic_witness :
  let done := download_pdf net_serving (u "https://static.even3.com/anais/1.pdf")
                (u "/tmp/even3/1.pdf") empty_world in
  done.2 = Returns ()
  /\ fs done.1 !! u "/tmp/even3/1.pdf" = Some (concat (body_of 2048))
  /\ fs done.1 !! part_path (u "/tmp/even3/1.pdf") = None.
Proof.
  apply (proj1 (proj2 (proj2 (proj2 (proj2
           (download_pdf_atomic net_serving (u "https://static.even3.com/anais/1.pdf")
              (u "/tmp/even3/1.pdf") empty_world))))) 200%Z (body_of 2048)).
  - reflexivity.
  - reflexivity.
  - vm_compute. lia.
Defined.

(** A stop request read in the first pass: the run is cancelled with no
    row. *)
Lemma cancellation_keeps_rows_written_before_witness :
  let r := @download_all ascii_runtime net_serving sched_stop_early sim_out_dir
             [sim_url 0; sim_url 1] empty_world in
  run_end r = Cancelled /\ length (written r) = 0.
Proof.
  apply (proj2 (proj2 (proj2 (proj2 (proj2
           (@cancellation_keeps_rows_written_before ascii_runtime net_serving
              sched_stop_early sim_out_dir [sim_url 0; sim_url 1] empty_world))))) 0).
  - simpl. lia.
  - intros i Hi. lia.
  - reflexivity.
  - intros n url. discriminate.
Defined.

(** A second run over a used directory: the ten-byte document of the first
    work is still there, and the manifest holds this run's two rows. *)
Lemma manifest_truncated_documents_kept_witness :
  let r := @download_all ascii_runtime net_serving sched_fifo sim_out_dir
             [sim_url 0; sim_url 1] (@used_world ascii_runtime) in
  fs (final r) !! @file_path_of ascii_runtime sim_out_dir (sim_url 0)
    = Some (repeat x25 10)
  /\ fs (final r) !! manifest_path sim_out_dir
     = Some (@manifest_of ascii_runtime (written r))
  /\ map row_status (written r) = [st_exists; downloaded_direct].
Proof.
  pose proof (@manifest_truncated_documents_kept ascii_runtime net_serving
                sched_fifo sim_out_dir [sim_url 0; sim_url 1]
                (@used_world ascii_runtime)) as (_ & Hm & _ & Hdocs & _).
  split; [|split; [exact Hm|]].
  - apply Hdocs; [vm_compute; reflexivity | discriminate].
  - vm_compute. reflexivity.
Defined.

(** The thirty links of the simulated listing. *)
Definition sim_links : gset str := list_to_set (map sim_url (seq 0 30)).

(** The simulated listing shows no other work link, on any page state. *)
Lemma sim_links_complete last_control b x :
  @link_of_page ascii_runtime (sim_browser last_control) sim_slug b x ->
  x ∈ sim_links.
Proof.
  intros (hs & h & Hhs & Hin & Hw & ->). simpl in Hhs. injection Hhs as <-.
  assert (forall l : list (option str),
            Forall (fun o => match o with
                             | Some h => @is_work_url ascii_runtime sim_slug h = true ->
                                         before_first 63 h ∈ sim_links
                             | None => True
                             end) l ->
            Some h ∈ l -> before_first 63 h ∈ sim_links) as Hall.
  { intros l Hl Hl'. rewrite Forall_forall in Hl. now apply (Hl _ Hl'). }
  apply (Hall (sim_hrefs b)); [|exact Hin]. clear.
  assert (forall p, (p <=? 3)%nat = true ->
            Forall (fun o => match o with
                             | Some h => @is_work_url ascii_runtime sim_slug h = true ->
                                         before_first 63 h ∈ sim_links
                             | None => True
                             end) (sim_hrefs p)) as Hpages.
  { intros p Hp.
    assert (p = 0 \/ p = 1 \/ p = 2 \/ p = 3) as Hcases
      by (apply Nat.leb_le in Hp; lia).
    destruct Hcases as [-> | [-> | [-> | ->]]];
      repeat (constructor;
              [first [ intros Hw; vm_compute in Hw; discriminate
                     | intros _; apply elem_of_list_to_set, list_elem_of_In;
                       vm_compute; tauto ]|]);
      constructor. }
  destruct (b <=? 3)%nat eqn:Hb; [now apply Hpages|].
  unfold sim_hrefs. rewrite Hb.
  repeat (constructor; [intros Hw; vm_compute in Hw; discriminate|]).
  constructor.
Qed.


(** * Further properties of the code *)

(** ** What a match consumed *)

Lemma sound_weaken m (R R' : str -> list str -> Prop) :
  sound m R -> (forall pre new, R pre new -> R' pre new) -> sound m R'.
Proof.
  intros Hm HR s caps k r H.
  destruct (Hm s caps k r H) as (pre & s' & new & -> & HRn & Hk).
  exists pre, s', new. auto.
Qed.

Lemma sound_chr p :
  sound (re_chr p) (fun pre new => exists c, pre = [c] /\ p c = true /\ new = []).
Proof.
  intros [|c t] caps k r H; simpl in H; [discriminate|].
  destruct (p c) eqn:Hp; [|discriminate].
  exists [c], t, []. rewrite !app_nil_r. eauto 6.
Qed.

Lemma sound_eps : sound re_eps (fun pre new => pre = [] /\ new = []).
Proof.
  intros s caps k r H. exists [], s, []. rewrite !app_nil_r. auto.
Qed.

Lemma sound_seq m1 m2 (R1 R2 : str -> list str -> Prop) :
  sound m1 R1 -> sound m2 R2 ->
  sound (re_seq m1 m2)
    (fun pre new => exists p1 p2 n1 n2,
       pre = p1 ++ p2 /\ new = n1 ++ n2 /\ R1 p1 n1 /\ R2 p2 n2).
Proof.
  intros H1 H2 s caps k r H. unfold re_seq in H.
  apply H1 in H as (p1 & s1 & n1 & -> & HR1 & H).
  apply H2 in H as (p2 & s2 & n2 & -> & HR2 & H).
  exists (p1 ++ p2), s2, (n1 ++ n2).
  rewrite <- !app_assoc in *. split; [reflexivity|]. split; [|exact H].
  exists p1, p2, n1, n2. auto.
Qed.

Lemma sound_opt m (R : str -> list str -> Prop) :
  sound m R ->
  sound (re_opt m) (fun pre new => R pre new \/ pre = [] /\ new = []).
Proof.
  intros Hm s caps k r H. unfold re_opt in H.
  destruct (m s caps k) as [r0|] eqn:E.
  - injection H as <-. apply Hm in E as (pre & s' & new & -> & HR & Hk).
    exists pre, s', new. split; [reflexivity|]. split; [now left | exact Hk].
  - exists [], s, []. rewrite !app_nil_r.
    split; [reflexivity|]. split; [now right | exact H].
Qed.

Lemma sound_star p :
  sound (re_star p) (fun pre new => Forall (fun c => p c = true) pre /\ new = []).
Proof.
  intros s. induction s as [|c t IH]; intros caps k r H; simpl in H.
  - exists [], [], []. rewrite !app_nil_r.
    split; [reflexivity|]. split; [split; [apply List.Forall_nil | reflexivity] | exact H].
  - destruct (p c) eqn:Hp.
    + destruct (re_star p t caps k) as [r0|] eqn:E.
      * injection H as <-. apply IH in E as (pre & s' & new & -> & [HF ->] & Hk).
        exists (c :: pre), s', []. split; [reflexivity|]. split; [|exact Hk].
        split; [now constructor | reflexivity].
      * exists [], (c :: t), []. rewrite !app_nil_r.
        split; [reflexivity|]. split; [split; [apply List.Forall_nil | reflexivity] | exact H].
    + exists [], (c :: t), []. rewrite !app_nil_r.
      split; [reflexivity|]. split; [split; [apply List.Forall_nil | reflexivity] | exact H].
Qed.

Lemma sound_at_least n p :
  sound (re_at_least n p)
    (fun pre new => n <= length pre /\ Forall (fun c => p c = true) pre /\ new = []).
Proof.
  induction n as [|n IH]; simpl.
  - eapply sound_weaken; [apply sound_star|]. intros pre new [HF ->].
    split; [lia | auto].
  - eapply sound_weaken; [apply sound_seq; [apply sound_chr | exact IH]|].
    intros pre new (p1 & p2 & n1 & n2 & -> & -> & (c & -> & Hc & ->) & Hn & HF & ->).
    simpl. split; [lia|]. split; [now constructor | reflexivity].
Qed.

Section MatcherFacts.
Context {rt : PyRuntime}.

Lemma sound_lit ci lit :
  sound (re_lit ci lit) (fun pre new => Forall2 (lit_eq ci) lit pre /\ new = []).
Proof.
  induction lit as [|p lit IH]; simpl.
  - eapply sound_weaken; [apply sound_eps|]. intros pre new [-> ->]. auto.
  - eapply sound_weaken; [apply sound_seq; [apply sound_chr | exact IH]|].
    intros pre new (p1 & p2 & n1 & n2 & -> & -> & (c & -> & Hc & ->) & HF & ->).
    split; [|reflexivity]. simpl. constructor; [|exact HF].
    unfold lit_eq. destruct ci; [exact Hc | now apply N.eqb_eq in Hc].
Qed.

End MatcherFacts.

Lemma sound_group m (R : str -> list str -> Prop) :
  sound m R ->
  sound (re_group m) (fun pre new => exists inner, R pre inner /\ new = inner ++ [pre]).
Proof.
  intros Hm s caps k r H. unfold re_group in H.
  apply Hm in H as (pre & s' & new & -> & HR & Hk).
  exists pre, s', (new ++ [pre]). split; [reflexivity|]. split; [eauto|].
  rewrite length_app in Hk.
  replace (length pre + length s' - length s') with (length pre) in Hk by lia.
  rewrite take_app_length in Hk. now rewrite app_assoc.
Qed.

Lemma sound_eos : sound re_eos (fun pre new => pre = [] /\ new = []).
Proof.
  intros s caps k r H. exists [], s, []. rewrite !app_nil_r.
  split; [reflexivity|]. split; [auto|].
  unfold re_eos in H. destruct s as [|c [|c' t]]; try discriminate; [exact H|].
  destruct (c =? 10)%N; [exact H | discriminate].
Qed.

Lemma re_match_sound m (R : str -> list str -> Prop) s caps :
  sound m R -> re_match m s = Some caps ->
  exists pre s', s = pre ++ s' /\ R pre caps.
Proof.
  intros Hm H. unfold re_match in H.
  apply Hm in H as (pre & s' & new & -> & HR & [= <-]). eauto.
Qed.

Lemma re_search_sound m (R : str -> list str -> Prop) s caps :
  sound m R -> re_search m s = Some caps ->
  exists skipped pre s', s = skipped ++ pre ++ s' /\ R pre caps.
Proof.
  intros Hm. induction s as [|c t IH]; simpl.
  - destruct (re_match m []) as [caps0|] eqn:E; [|discriminate].
    intros [= <-]. destruct (re_match_sound m R _ _ Hm E) as (pre & s' & Hs & HR).
    exists [], pre, s'. auto.
  - destruct (re_match m (c :: t)) as [caps0|] eqn:E.
    + intros [= <-]. destruct (re_match_sound m R _ _ Hm E) as (pre & s' & Hs & HR).
      exists [], pre, s'. auto.
    + intros H. destruct (IH H) as (skipped & pre & s' & -> & HR).
      exists (c :: skipped), pre, s'. auto.
Qed.

Section ResolverFacts.
Context {rt : PyRuntime}.

Lemma ci_eq_refl_ascii p : is_ascii p = true -> ci_eq p p = true.
Proof. intros H. unfold ci_eq. rewrite H. simpl. apply N.eqb_refl. Qed.

Lemma ci_literal_self lit :
  forallb is_ascii lit = true -> Forall2 (fun p c => ci_eq p c = true) lit lit.
Proof.
  induction lit as [|p lit IH]; simpl; [constructor|].
  intros H. apply andb_true_iff in H as [Hp Hl].
  constructor; [now apply ci_eq_refl_ascii | auto].
Qed.

(** The work id, when there is one, is a run of at least three digits
    that follows [/anais/], a non-empty segment and a slash. *)
Lemma work_id_re_sound :
  sound work_id_re
    (fun pre new =>
       exists lit slug wid,
         pre = lit ++ slug ++ [47%N] ++ wid /\ new = [wid]
         /\ Forall2 (fun p c => ci_eq p c = true) (u "/anais/") lit
         /\ slug <> [] /\ (47%N ∉ slug)
         /\ 3 <= length wid /\ Forall (fun c => re_digit c = true) wid).
Proof.
  unfold work_id_re.
  eapply sound_weaken.
  { apply sound_seq; [apply (sound_lit true)|].
    apply sound_seq; [apply sound_at_least|].
    apply sound_seq; [apply sound_chr|].
    apply sound_group, sound_at_least. }
  intros pre new (lit & p2 & n1 & n2 & -> & -> & [Hlit ->] & Hrest).
  destruct Hrest as (slug & p3 & n3 & n4 & -> & -> & (Hlen & Hslug & ->) & Hrest).
  destruct Hrest as (sl & wid & n5 & n6 & -> & -> & (c & -> & Hc & ->) & Hrest).
  destruct Hrest as (inner & (Hwl & Hwd & ->) & ->).
  apply N.eqb_eq in Hc. subst c.
  exists lit, slug, wid. simpl. split; [reflexivity|]. split; [reflexivity|].
  split; [exact Hlit|].
  split; [intros ->; simpl in Hlen; lia|].
  split; [|auto].
  intros Hin. rewrite Forall_forall in Hslug. specialize (Hslug _ Hin).
  simpl in Hslug. discriminate.
Qed.

(** What the pattern of document links matches is on the document host,
    and that is its only group. *)
Lemma PDF_HREF_RE_sound :
  sound PDF_HREF_RE (fun pre new => new = [pre] /\ on_document_host pre).
Proof.
  unfold PDF_HREF_RE.
  eapply sound_weaken.
  { apply sound_group.
    apply sound_seq; [apply (sound_lit true)|].
    apply sound_seq; [apply sound_opt, sound_chr|].
    apply sound_seq; [apply (sound_lit true)|].
    apply sound_seq; [apply sound_at_least|].
    apply sound_seq; [apply (sound_lit true)|].
    apply sound_opt.
    apply sound_seq; [apply sound_chr | apply sound_at_least]. }
  intros pre new (inner & Hshape & ->).
  destruct Hshape as (h & p2 & n1 & n2 & -> & -> & [Hh ->] & Hrest).
  destruct Hrest as (s & p3 & n3 & n4 & -> & -> & Hs & Hrest).
  destruct Hrest as (host & p4 & n5 & n6 & -> & -> & [Hhost ->] & Hrest).
  destruct Hrest as (d & p5 & n7 & n8 & -> & -> & (_ & _ & ->) & Hrest).
  destruct Hrest as (e & q & n9 & n10 & -> & -> & [_ ->] & Hq).
  assert (n10 = []) as ->.
  { destruct Hq as [(q1 & q2 & m1 & m2 & _ & -> & (c & _ & _ & ->) & _ & _ & ->)|[_ ->]];
      reflexivity. }
  assert (exists scheme,
            h ++ s = scheme /\ n3 = []
            /\ (Forall2 (fun p c => ci_eq p c = true) (u "http") scheme
                \/ Forall2 (fun p c => ci_eq p c = true) (u "https") scheme))
    as (scheme & Hscheme & -> & Hsch).
  { destruct Hs as [(c & -> & Hc & ->)|[-> ->]].
    - exists (h ++ [c]). split; [reflexivity|]. split; [reflexivity|]. right.
      change (u "https") with (u "http" ++ [115%N]).
      apply Forall2_app; [exact Hh | now repeat constructor].
    - exists h. rewrite app_nil_r. auto. }
  simpl. split; [reflexivity|].
  exists scheme, host, (d ++ e ++ q). split; [|auto].
  rewrite <- Hscheme. now rewrite <- !app_assoc.
Qed.

Lemma first_pdf_href_sound hs href :
  first_pdf_href hs = Some href -> on_document_host href.
Proof.
  induction hs as [|h hs IH]; simpl; [discriminate|].
  destruct (re_match PDF_HREF_RE h) as [caps|] eqn:E; [|exact IH].
  intros [= <-].
  destruct (re_match_sound _ _ _ _ PDF_HREF_RE_sound E)
    as (pre & s' & -> & _ & scheme & host & tail & -> & Hs & Hh).
  exists scheme, host, (tail ++ s'). rewrite <- !app_assoc. auto.
Qed.

Lemma on_document_host_nonempty url : on_document_host url -> url <> [].
Proof.
  intros (scheme & host & tail & -> & _ & Hh) E.
  apply app_eq_nil in E as [_ E]. apply app_eq_nil in E as [E _]. subst host.
  inversion Hh.
Qed.

End ResolverFacts.

Section JobOutcome.
Context {rt : PyRuntime}.
Variable net : Network.

Lemma direct_guess_on_document_host wid :
  on_document_host (u "https://static.even3.com/anais/" ++ wid ++ u ".pdf").
Proof.
  exists (u "https"), (u "://static.even3.com/anais/"), (wid ++ u ".pdf").
  split; [reflexivity|]. split; [right|]; now apply ci_literal_self.
Qed.

Lemma parse_work_page_found work_url w w1 pdf_url :
  parse_work_page_for_pdf net work_url w = (w1, Returns (Some pdf_url)) ->
  on_document_host pdf_url.
Proof.
  unfold parse_work_page_for_pdf.
  destruct (page_of net (length (requests w)) work_url) as [|code html];
    [discriminate|].
  destruct (negb (code =? 200)%Z); [discriminate|].
  destruct (re_search PDF_HREF_RE html) as [m|] eqn:E.
  - intros [= _ <-].
    destruct (re_search_sound _ _ _ _ PDF_HREF_RE_sound E)
      as (skipped & pre & s' & _ & -> & Hhost).
    exact Hhost.
  - intros [= _ H]. now apply first_pdf_href_sound in H.
Qed.

(** What a job that returns has done, status by status, and what it has
    asked the network for. *)
Lemma job_download_outcome work_url out_dir w w' r :
  job_download net work_url out_dir w = (w', r) ->
  let dest := file_path_of out_dir work_url in
  let wid := work_id_from_url work_url in
  (exists more,
     requests w' = requests w ++ more
     /\ length more <= 3
     /\ Forall (fun q => q = work_url \/ on_document_host q) more)
  /\ match r with
     | Raises => fs w' !! dest = fs w !! dest
     | Returns row =>
         row_work_url row = work_url /\ row_work_id row = wid
         /\ match row_status row with
            | st_exists =>
                w' = w /\ nonempty_at (fs w) dest
                /\ row_pdf_url row = [] /\ row_file_path row = dest
            | downloaded_direct =>
                wid <> []
                /\ row_pdf_url row
                   = u "https://static.even3.com/anais/" ++ wid ++ u ".pdf"
                /\ row_file_path row = dest
                /\ exists body, fs w' !! dest = Some body /\ 1024 <= length body
            | downloaded_fallback =>
                on_document_host (row_pdf_url row)
                /\ row_file_path row = dest
                /\ exists body, fs w' !! dest = Some body /\ 1024 <= length body
            | no_pdf =>
                row_pdf_url row = [] /\ row_file_path row = []
                /\ fs w' !! dest = fs w !! dest
            | error =>
                on_document_host (row_pdf_url row) /\ row_file_path row = []
                /\ fs w' !! dest = fs w !! dest
            end
     end.
Proof.
  intros E dest wid. unfold job_download in E. fold dest wid in E.
  destruct (path_exists (fs w) dest && (0 <? st_size (fs w) dest)%nat) eqn:Hex.
  { apply exists_check in Hex. injection E as <- <-. split.
    - exists []. rewrite app_nil_r. simpl. split; [reflexivity|]. split; [lia | constructor].
    - simpl. auto 6. }
  set (direct_pdf := match wid with
                     | [] => []
                     | _ => u "https://static.even3.com/anais/" ++ wid ++ u ".pdf"
                     end) in E.
  destruct (match direct_pdf with
            | [] => (w, Raises)
            | _ => download_pdf net direct_pdf dest w
            end) as [w1 direct] eqn:E1.
  assert (H1 : exists more1,
             requests w1 = requests w ++ more1 /\ length more1 <= 1
             /\ Forall (fun q => q = work_url \/ on_document_host q) more1
             /\ match direct with
                | Raises => fs w1 !! dest = fs w !! dest
                | Returns _ =>
                    wid <> []
                    /\ direct_pdf
                       = u "https://static.even3.com/anais/" ++ wid ++ u ".pdf"
                    /\ exists body, fs w1 !! dest = Some body /\ 1024 <= length body
                end
             /\ (direct = Raises -> forall p, p <> part_path dest ->
                                              fs w1 !! p = fs w !! p)).
  { destruct wid as [|c wid0] eqn:Ewid.
    - simpl in E1. injection E1 as <- <-. exists []. rewrite app_nil_r.
      simpl. split; [reflexivity|]. split; [lia|]. split; [constructor | auto].
    - assert (direct_pdf = u "https://static.even3.com/anais/" ++ (c :: wid0) ++ u ".pdf")
        as Hd by reflexivity.
      rewrite Hd in E1. cbn [app u map list_ascii_of_string] in E1.
      apply download_pdf_summary in E1 as (Ho & Hq & Hdest).
      exists [u "https://static.even3.com/anais/" ++ (c :: wid0) ++ u ".pdf"].
      split; [exact Hq|]. split; [simpl; lia|]. split.
      { constructor; [|constructor]. right. apply direct_guess_on_document_host. }
      split.
      + destruct direct; [|exact Hdest]. split; [discriminate|]. split; [exact Hd | exact Hdest].
      + intros -> p Hp. destruct (decide (p = dest)) as [->|Hne]; [exact Hdest | auto]. }
  destruct H1 as (more1 & Hq1 & Hl1 & Hf1 & Hd1 & Hframe1).
  destruct direct as [[]|].
  { injection E as <- <-. destruct Hd1 as (Hwid & Hdp & Hbody). split.
    - exists more1. split; [exact Hq1|]. split; [lia | exact Hf1].
    - simpl. auto 6. }
  destruct (parse_work_page_for_pdf net work_url w1) as [w2 found] eqn:E2.
  pose proof (parse_work_page_summary net _ _ _ _ E2) as (H2f & H2q & _).
  assert (Hreq2 : requests w2 = requests w ++ (more1 ++ [work_url])).
  { rewrite H2q, Hq1. now rewrite <- !app_assoc. }
  assert (Hfor2 : Forall (fun q => q = work_url \/ on_document_host q)
                    (more1 ++ [work_url])).
  { apply Forall_app. split; [exact Hf1|]. constructor; [now left | constructor]. }
  assert (Hfs2 : forall p, p <> part_path dest -> fs w2 !! p = fs w !! p).
  { intros p Hp. rewrite H2f. now apply Hframe1. }
  assert (Hdest_ne : dest <> part_path dest).
  { intros Heq. symmetry in Heq. now apply part_path_ne in Heq. }
  destruct found as [[pdf_url|]|].
  - pose proof (parse_work_page_found _ _ _ _ E2) as Hhost.
    destruct pdf_url as [|c pdf_url].
    { destruct (on_document_host_nonempty _ Hhost eq_refl). }
    destruct (download_pdf net (c :: pdf_url) dest w2) as [w3 fetched] eqn:E3.
    apply download_pdf_summary in E3 as (H3o & H3q & H3d).
    assert (Hreq3 : exists more,
               requests w3 = requests w ++ more /\ length more <= 3
               /\ Forall (fun q => q = work_url \/ on_document_host q) more).
    { exists ((more1 ++ [work_url]) ++ [c :: pdf_url]).
      split; [rewrite H3q, Hreq2; now rewrite <- !app_assoc|].
      split; [rewrite !length_app; simpl; lia|].
      apply Forall_app. split; [exact Hfor2|]. constructor; [now right | constructor]. }
    destruct fetched as [[]|]; injection E as <- <-; (split; [exact Hreq3|]); simpl.
    + auto 6.
    + split; [reflexivity|]. split; [reflexivity|]. split; [exact Hhost|].
      split; [reflexivity|]. rewrite H3d. now apply Hfs2.
  - injection E as <- <-. split.
    + exists (more1 ++ [work_url]). split; [exact Hreq2|].
      split; [rewrite length_app; simpl; lia | exact Hfor2].
    + simpl. split; [reflexivity|]. split; [reflexivity|]. split; [reflexivity|].
      split; [reflexivity|]. now apply Hfs2.
  - injection E as <- <-. split.
    + exists (more1 ++ [work_url]). split; [exact Hreq2|].
      split; [rewrite length_app; simpl; lia | exact Hfor2].
    + simpl. now apply Hfs2.
Qed.

End JobOutcome.

Section JobFootprint.
Context {rt : PyRuntime}.
Variable net : Network.

(** X5: [work_id_from_url] returns the empty string or a run of at least
    three digits that stands in the URL right after [/anais/] (in any letter
    case), a non-empty segment without a slash, and a slash. *)
Theorem work_id_is_a_digit_run (work_url : str) :
  let wid := work_id_from_url work_url in
  wid = []
  \/ 3 <= length wid
     /\ Forall (fun c => re_digit c = true) wid
     /\ exists before lit slug after,
          work_url = before ++ lit ++ slug ++ [47%N] ++ wid ++ after
          /\ Forall2 (fun p c => ci_eq p c = true) (u "/anais/") lit
          /\ slug <> [] /\ (47%N ∉ slug).
Proof.
  intros wid. subst wid. unfold work_id_from_url.
  destruct (re_search work_id_re work_url) as [m|] eqn:E; [|now left].
  destruct (re_search_sound _ _ _ _ work_id_re_sound E)
    as (before & pre & after & -> & lit & slug & wid & -> & -> & Hlit & Hs & Hn & Hl & Hd).
  right. simpl. split; [exact Hl|]. split; [exact Hd|].
  exists before, lit, slug, after. rewrite <- !app_assoc. auto.
Qed.

(** X6: a job sends at most three requests, each one for the work page
    itself or for an address under [static.even3.com/anais/]; it sends none
    when the document is already on disk. *)
Theorem job_requests_stay_on_site (work_url out_dir : str) (w : world) :
  let w' := (job_download net work_url out_dir w).1 in
  exists more,
    requests w' = requests w ++ more
    /\ length more <= 3
    /\ Forall (fun q => q = work_url \/ on_document_host q) more
    /\ (nonempty_at (fs w) (file_path_of out_dir work_url) -> more = []).
Proof.
  intros w'. subst w'.
  destruct (job_download net work_url out_dir w) as [w' r] eqn:E.
  pose proof (job_download_outcome net _ _ _ _ _ E) as [(more & Hq & Hl & Hf) _].
  exists more. cbn [fst]. split; [exact Hq|]. split; [exact Hl|]. split; [exact Hf|].
  intros Hdisk. destruct (job_download_exists net work_url out_dir w Hdisk)
    as (row & Erow & _). rewrite Erow in E. injection E as <- _.
  apply (f_equal length) in Hq. rewrite length_app in Hq.
  destruct more; [reflexivity | simpl in Hq; lia].
Qed.

(** X7: a job changes no file but its destination and the [.part] file
    beside it; it leaves the manifest alone; a destination that holds a
    non-empty file is left as it is, and any other destination is either
    unchanged or replaced by a document of at least 1024 bytes. *)
Theorem job_touches_only_its_own_files (work_url out_dir : str) (w : world) :
  let w' := (job_download net work_url out_dir w).1 in
  let dest := file_path_of out_dir work_url in
  (forall p, p <> dest -> p <> part_path dest -> fs w' !! p = fs w !! p)
  /\ fs w' !! manifest_path out_dir = fs w !! manifest_path out_dir
  /\ (nonempty_at (fs w) dest -> w' = w)
  /\ (fs w' !! dest = fs w !! dest
      \/ exists body, fs w' !! dest = Some body /\ 1024 <= length body)
  /\ (forall other d,
        fs w !! file_path_of out_dir other = Some d -> d <> [] ->
        fs w' !! file_path_of out_dir other = Some d).
Proof.
  intros w' dest. subst w'.
  pose proof (job_keeps_manifest net out_dir work_url w) as Hm.
  pose proof (fun other d H1 H2 =>
                job_download_keeps net work_url out_dir w
                  (file_path_of out_dir other) d H1 H2
                  (file_path_not_part out_dir other _)) as Hk.
  destruct (job_download net work_url out_dir w) as [w' r] eqn:E.
  pose proof (job_download_spec net _ _ _ _ _ E) as (H1 & H2 & H3 & _).
  cbn [fst] in *. split; [exact H2|]. split; [exact Hm|].
  split; [intros H; now destruct (H1 H)|]. split; [|exact Hk].
  destruct H3 as [H3|[_ H3]]; auto.
Qed.


End JobFootprint.

(** ** More on strings *)

Lemma last_rev_head (l : str) : last (rev l) = head l.
Proof. destruct l as [|c t]; [reflexivity|]. simpl. apply last_snoc. Qed.

Lemma rstrip_by_last p s :
  match last (rstrip_by p s) with
  | None => True
  | Some c => p c = false
  end.
Proof.
  unfold rstrip_by. rewrite last_rev_head.
  pose proof (drop_while_head p (rev s)) as H.
  destruct (drop_while p (rev s)); [exact I | exact H].
Qed.

Lemma drop_while_fixed p s :
  match s with [] => True | c :: _ => p c = false end -> drop_while p s = s.
Proof. destruct s as [|c t]; [reflexivity|]. simpl. now intros ->. Qed.

Lemma rstrip_by_fixed p s :
  match last s with None => True | Some c => p c = false end ->
  rstrip_by p s = s.
Proof.
  intros H. unfold rstrip_by. rewrite drop_while_fixed; [apply rev_involutive|].
  change (match @rev char s with [] => True | c :: _ => p c = false end).
  assert (head (rev s) = last s) as E
    by (rewrite <- last_rev_head; f_equal; apply rev_involutive).
  rewrite <- E in H. clear E.
  destruct (rev s) as [|c t]; [exact I | exact H].
Qed.

Lemma strip_by_fixed p s :
  match s with [] => True | c :: _ => p c = false end ->
  match last s with None => True | Some c => p c = false end ->
  strip_by p s = s.
Proof.
  intros H1 H2. unfold strip_by, lstrip_by.
  rewrite drop_while_fixed by exact H1. now apply rstrip_by_fixed.
Qed.

Lemma strip_by_last p s :
  match last (strip_by p s) with
  | None => True
  | Some c => p c = false
  end.
Proof. unfold strip_by. apply rstrip_by_last. Qed.

(** What stripping on the right keeps is a prefix. *)
Lemma drop_while_is_drop p s : exists k, drop_while p s = drop k s.
Proof.
  induction s as [|c t IH]; [now exists 0|]. simpl.
  destruct (p c); [|now exists 0]. destruct IH as [k ->]. now exists (S k).
Qed.

Lemma rstrip_by_is_take p s : exists k, rstrip_by p s = take k s.
Proof.
  unfold rstrip_by. destruct (drop_while_is_drop p (rev s)) as [k ->].
  exists (length s - k). rewrite skipn_rev. apply rev_involutive.
Qed.

Lemma sub_runs_fixed p rep b s :
  Forall (fun c => p c = false) s -> sub_runs p rep b s = s.
Proof.
  intros H. revert b. induction H as [|c t Hc Ht IH]; intros b; [reflexivity|].
  simpl. rewrite Hc. f_equal. apply IH.
Qed.

Lemma single_spaced_drop k s : single_spaced s -> single_spaced (drop k s).
Proof.
  revert s. induction k as [|k IH]; intros [|c t]; simpl; auto.
  intros [_ H]. now apply IH.
Qed.

Lemma single_spaced_take k s : single_spaced s -> single_spaced (take k s).
Proof.
  revert s. induction k as [|k IH]; intros [|c t]; simpl; auto.
  intros [Hc Ht]. split; [|now apply IH].
  intros Hs. destruct (Hc Hs) as [-> Hn]. split; [reflexivity|].
  destruct k, t; simpl; auto.
Qed.

(** [re.sub(r"\s+", " ", s)] leaves white space as single spaces. *)
Lemma collapse_single_spaced b s :
  single_spaced (sub_runs isspace (u " ") b s)
  /\ (b = true ->
      match sub_runs isspace (u " ") b s with
      | [] => True
      | c :: _ => isspace c = false
      end).
Proof.
  revert b. induction s as [|c t IH]; intros b; simpl; [auto|].
  destruct (isspace c) eqn:Hc.
  - destruct b.
    + apply IH.
    + destruct (IH true) as [H1 H2]. split; [|discriminate].
      simpl. split; [|exact H1]. intros _. split; [reflexivity|].
      specialize (H2 eq_refl). destruct (sub_runs isspace (u " ") true t); auto.
  - destruct (IH false) as [H1 _]. split; [|auto].
    simpl. split; [|exact H1]. intros Hs. congruence.
Qed.

Lemma collapse_fixed s :
  single_spaced s -> sub_runs isspace (u " ") false s = s.
Proof.
  assert (forall s b,
            single_spaced s ->
            (b = true -> match s with [] => True | c :: _ => isspace c = false end) ->
            sub_runs isspace (u " ") b s = s) as H.
  { clear s. induction s as [|c t IH]; intros b Hs Hb; [reflexivity|].
    destruct Hs as [Hc Ht]. simpl. destruct (isspace c) eqn:Hs.
    - destruct (Hc eq_refl) as [-> Hn].
      destruct b; [specialize (Hb eq_refl); simpl in Hb; congruence|].
      simpl. f_equal. apply IH; auto.
    - f_equal. apply IH; [exact Ht | discriminate]. }
  intros Hs. apply H; [exact Hs | discriminate].
Qed.

Lemma single_spaced_strip s : single_spaced s -> single_spaced (strip s).
Proof.
  intros H. unfold strip, strip_by, lstrip_by.
  destruct (drop_while_is_drop isspace s) as [k ->].
  destruct (rstrip_by_is_take isspace (drop k s)) as [j ->].
  now apply single_spaced_take, single_spaced_drop.
Qed.

Lemma trimmed_strip s : trimmed (strip s).
Proof. split; [apply strip_by_head | apply strip_by_last]. Qed.

Lemma strip_fixed s : trimmed s -> strip s = s.
Proof. intros [H1 H2]. now apply strip_by_fixed. Qed.

(** ** [safe_filename] once more *)

(** The shape of every name [safe_filename] returns. *)
Lemma safe_filename_tidy s max_len :
  single_spaced (safe_filename s max_len) /\ trimmed (safe_filename s max_len).
Proof.
  unfold safe_filename.
  set (s1 := sub_runs is_illegal (u "_") false s).
  set (s2 := strip (sub_runs isspace (u " ") false s1)).
  assert (single_spaced s2 /\ trimmed s2) as [H2 T2].
  { split; [apply single_spaced_strip, collapse_single_spaced | apply trimmed_strip]. }
  set (s3 := match s2 with [] => u "arquivo" | _ => s2 end).
  assert (single_spaced s3 /\ trimmed s3) as [H3 T3].
  { subst s3. destruct s2; [|auto]. split; [|split; reflexivity].
    simpl. repeat (split; [discriminate|]). exact I. }
  destruct (max_len <? Z.of_nat (length s3))%Z; [|auto].
  unfold rstrip. destruct (rstrip_by_is_take isspace (slice_to s3 max_len)) as [k Hk].
  split.
  - rewrite Hk. apply single_spaced_take. unfold slice_to.
    destruct (0 <=? max_len)%Z; now apply single_spaced_take.
  - split; [|apply rstrip_by_last].
    destruct T3 as [Hhead _]. rewrite Hk. unfold slice_to.
    destruct s3 as [|c t]; [destruct (0 <=? max_len)%Z; now rewrite !take_nil|].
    destruct (0 <=? max_len)%Z;
      match goal with |- context [take k (take ?n (c :: t))] =>
        destruct n, k; simpl; auto end.
Qed.

(** X3: [safe_filename] is idempotent for a non-negative [max_len], and
    what it returns has white space only as single spaces between other
    characters: none at either end, no tab or line break, no run of two. *)
Theorem safe_filename_idempotent (s : str) (max_len : Z) :
  (0 <= max_len)%Z ->
  safe_filename (safe_filename s max_len) max_len = safe_filename s max_len
  /\ single_spaced (safe_filename s max_len)
  /\ trimmed (safe_filename s max_len).
Proof.
  intros Hn.
  destruct (safe_filename_tidy s max_len) as [Hs Ht].
  split; [|auto].
  pose proof (safe_filename_legal s max_len) as Hlegal.
  pose proof (safe_filename_length s max_len Hn) as Hlen.
  set (r := safe_filename s max_len) in *.
  destruct (Z.eq_dec max_len 0%Z) as [->|Hpos].
  { assert (r = []) as -> by (destruct r; [reflexivity | simpl in Hlen; lia]).
    reflexivity. }
  assert (r <> []) as Hne by (apply safe_filename_nonempty; lia).
  unfold safe_filename at 1.
  rewrite (sub_runs_fixed is_illegal) by exact Hlegal.
  rewrite collapse_fixed by exact Hs. rewrite strip_fixed by exact Ht.
  destruct r as [|c t]; [contradiction|].
  destruct (Z.ltb_spec max_len (Z.of_nat (length (c :: t)))); [lia | reflexivity].
Qed.

Lemma safe_filename_idempotent_witness :
  safe_filename (safe_filename (u "  a/b :  c  ") 5) 5
    = safe_filename (u "  a/b :  c  ") 5
  /\ single_spaced (safe_filename (u "  a/b :  c  ") 5)
  /\ trimmed (safe_filename (u "  a/b :  c  ") 5).
Proof. apply (safe_filename_idempotent (u "  a/b :  c  ") 5). lia. Defined.

(** ** The listing URL *)

(** X1: [normalize_anais_url] is idempotent; what it returns is empty,
    exactly when the input is blank, or is the stripped input ending in a
    slash. *)
Theorem normalize_anais_url_idempotent (url : str) :
  normalize_anais_url (normalize_anais_url url) = normalize_anais_url url
  /\ (normalize_anais_url url = [] <-> strip url = [])
  /\ (strip url <> [] ->
      last (normalize_anais_url url) = Some 47%N
      /\ (normalize_anais_url url = strip url
          \/ normalize_anais_url url = strip url ++ u "/")).
Proof.
  assert (forall v, v <> [] -> trimmed v -> last v = Some 47%N ->
                    normalize_anais_url v = v) as Hfix.
  { intros v Hne Ht Hl. unfold normalize_anais_url.
    rewrite strip_fixed by exact Ht.
    destruct v as [|c t]; [contradiction|].
    unfold ends_with_slash. now rewrite bool_decide_eq_true_2. }
  pose proof (trimmed_strip url) as [Hh Hl].
  remember (normalize_anais_url url) as n eqn:Hn.
  unfold normalize_anais_url in Hn.
  destruct (strip url) as [|c t] eqn:E.
  { subst n. split; [reflexivity|]. split; [tauto | congruence]. }
  unfold ends_with_slash in Hn. case_bool_decide as Hs; subst n.
  - split; [|split; [split; discriminate | auto]].
    apply Hfix; [discriminate | split; assumption | exact Hs].
  - assert (last ((c :: t) ++ u "/") = Some 47%N) as Hlast
      by apply last_snoc.
    split; [|split; [split; discriminate | auto]].
    apply Hfix; [discriminate | | exact Hlast].
    split; [exact Hh | now rewrite Hlast].
Qed.

(** ** The name of a document *)

Lemma last_segment_from_none sep cur s :
  Forall (fun c => c <> sep) s -> last_segment_from sep cur s = cur.
Proof.
  intros H. revert cur. induction H as [|c t Hc Ht IH]; intros cur; [reflexivity|].
  simpl. destruct (N.eqb_spec c sep); [contradiction | apply IH].
Qed.

Lemma last_segment_from_app sep cur a b :
  last_segment_from sep cur (a ++ sep :: b) = last_segment_from sep b b.
Proof.
  revert cur. induction a as [|c a IH]; intros cur; simpl.
  - now rewrite N.eqb_refl.
  - destruct (N.eqb c sep); apply IH.
Qed.

Lemma last_segment_path_join dir name :
  Forall (fun c => c <> 47%N) name ->
  last_segment 47 (path_join dir name) = name.
Proof.
  intros Hn. unfold last_segment, path_join. case_bool_decide as Hd.
  - apply last_Some in Hd as [d ->]. rewrite <- app_assoc. simpl.
    rewrite last_segment_from_app. now apply last_segment_from_none.
  - simpl. rewrite last_segment_from_app. now apply last_segment_from_none.
Qed.

Lemma legal_not_slash c : legal c -> c <> 47%N.
Proof. intros H ->. discriminate H. Qed.

Section NameFacts.
Context {rt : PyRuntime}.

(** X4: the file name of a document has none of the nine characters
    [safe_filename] removes, slash and backslash among them, ends in
    [.pdf] after a non-empty stem and is 5 to 144 characters long; so the
    destination path is a file directly inside [out_dir]: its last
    segment is that name. *)
Theorem document_name_is_a_plain_pdf_name (work_url : str) :
  let name := filename_of work_url in
  Forall legal name
  /\ (exists stem, name = stem ++ u ".pdf" /\ stem <> [])
  /\ 5 <= length name <= 144
  /\ forall out_dir, last_segment 47 (file_path_of out_dir work_url) = name.
Proof.
  intros name. subst name. unfold file_path_of, filename_of.
  set (base := match guess_title_from_work_url work_url with
               | [] => _ | _ => _ end).
  pose proof (safe_filename_legal base default_max_len) as Hl.
  pose proof (safe_filename_length base default_max_len) as Hlen.
  pose proof (safe_filename_nonempty base default_max_len) as Hne.
  unfold default_max_len in *.
  specialize (Hlen ltac:(lia)). specialize (Hne ltac:(lia)).
  set (stem := safe_filename base 140) in *.
  assert (Forall legal (stem ++ u ".pdf")) as Hall.
  { apply Forall_app. split; [exact Hl|]. now apply legal_literal. }
  split; [exact Hall|]. split; [exists stem; auto|]. split.
  - rewrite length_app. change (length (u ".pdf")) with 4.
    destruct stem; [contradiction|]. cbn [length] in Hlen |- *. lia.
  - intros out_dir. apply last_segment_path_join.
    eapply Forall_impl; [exact Hall|]. apply legal_not_slash.
Qed.

(** ** The title *)

Lemma isspace_space : isspace 32 = true.
Proof. vm_compute. reflexivity. Qed.

Lemma sub_runs_space rep b l :
  sub_runs isspace rep b (32%N :: l)
  = (if b then [] else rep) ++ sub_runs isspace rep true l.
Proof. cbn [sub_runs]. rewrite isspace_space. now destruct b. Qed.

Lemma sub_runs_cons_congr p rep b c l1 l2 :
  (forall b', sub_runs p rep b' l1 = sub_runs p rep b' l2) ->
  sub_runs p rep b (c :: l1) = sub_runs p rep b (c :: l2).
Proof. intros H. cbn [sub_runs]. now rewrite !H. Qed.

Lemma replace_double_hyphen_cons a c t :
  replace_double_hyphen (a :: c :: t)
  = if (a =? 45)%N && (c =? 45)%N then u " - " ++ replace_double_hyphen t
    else a :: replace_double_hyphen (c :: t).
Proof. reflexivity. Qed.

Lemma sub_runs_double_hyphen n : forall raw b,
  length raw <= n ->
  sub_runs isspace (u " ") b (replace_hyphen (replace_double_hyphen raw))
  = sub_runs isspace (u " ") b (replace_hyphen raw).
Proof.
  induction n as [|n IH]; intros raw b Hn.
  - destruct raw; [reflexivity | cbn [length] in Hn; lia].
  - destruct raw as [|a [|c t]]; [reflexivity | reflexivity |].
    cbn [length] in Hn. rewrite replace_double_hyphen_cons.
    destruct ((a =? 45)%N && (c =? 45)%N) eqn:E.
    + apply andb_true_iff in E as [Ha Hc].
      apply N.eqb_eq in Ha, Hc. subst a c.
      unfold replace_hyphen in *. rewrite map_app.
      change (map _ (u " - ")) with [32%N; 32%N; 32%N].
      cbn [map]. rewrite N.eqb_refl. cbn [app].
      rewrite !(sub_runs_space _ b), !(sub_runs_space _ true). cbn [app].
      f_equal. apply IH. lia.
    + unfold replace_hyphen in *.
      change (map ?f (a :: ?l)) with (f a :: map f l).
      apply sub_runs_cons_congr. intros b'. apply IH. cbn [length]. lia.
Qed.

(** X14: the step [raw.replace("--", " - ")] of [guess_title_from_work_url]
    has no effect on the title: the next two steps turn the hyphen it
    writes into a space and fold the spaces around it into one.  The title
    is what the function computes without that step, and holds no
    hyphen. *)
Theorem double_hyphen_step_changes_nothing (work_url : str) :
  guess_title_from_work_url work_url
  = match re_match title_re
            (last_segment 47 (strip_slash (urlparse_path work_url))) with
    | None => []
    | Some m =>
        strip (sub_runs isspace (u " ") false
                 (replace_hyphen (unquote (group 1 m))))
    end
  /\ Forall (fun c => c <> 45%N) (guess_title_from_work_url work_url).
Proof.
  split; [|apply guess_title_no_hyphen].
  unfold guess_title_from_work_url.
  destruct (re_match title_re _) as [m|]; [|reflexivity].
  cbv zeta. f_equal. eapply sub_runs_double_hyphen. reflexivity.
Qed.

End NameFacts.

(** ** The temporary file *)

(** X11: what [download_pdf] leaves at the temporary [.part] path.  When
    the request raises or the status is an error, no file is touched.
    When the stream breaks off, the temporary file stays behind with the
    bytes received so far, replacing whatever an earlier attempt left
    there, and the call raises.  When the stream ends, no temporary file
    is left, whether the body was kept or found too small. *)
Theorem download_pdf_temporary_file (net : Network) (pdf_url out_path : str)
    (w : world) :
  let w' := (download_pdf net pdf_url out_path w).1 in
  let r := (download_pdf net pdf_url out_path w).2 in
  match stream_of net (length (requests w)) pdf_url with
  | GetRaises => fs w' = fs w /\ r = Raises
  | Response status chunks complete =>
      if status_is_error status then fs w' = fs w /\ r = Raises
      else if complete then
        fs w' !! part_path out_path = None
        /\ (r = Raises <-> length (concat chunks) < 1024)
      else
        fs w' !! part_path out_path = Some (concat chunks)
        /\ fs w' !! out_path = fs w !! out_path
        /\ r = Raises
  end.
Proof.
  intros w' r. subst w' r.
  rewrite download_pdf_fs, download_pdf_result.
  pose proof (download_ops_cases (fs w)
                (stream_of net (length (requests w)) pdf_url) out_path) as H.
  cbv zeta in H.
  pose proof (part_path_ne out_path) as Hne.
  destruct (stream_of net (length (requests w)) pdf_url)
    as [|status chunks complete]; [rewrite H; auto|].
  destruct (status_is_error status); [rewrite H; auto|].
  destruct complete; cbn [negb] in H.
  - destruct (Nat.ltb_spec (length (concat chunks)) 1024) as [Hlt|Hge];
      rewrite H; cbn [fst snd]; unfold apply_ops; rewrite foldl_app;
      fold (apply_ops (fs w)); rewrite writes_apply; simpl.
    + rewrite lookup_delete_eq. tauto.
    + rewrite lookup_insert_eq.
      rewrite lookup_insert_ne, lookup_delete_eq by auto.
      split; [reflexivity|]. split; [discriminate | lia].
  - rewrite H. cbn [fst snd]. rewrite writes_apply.
    rewrite lookup_insert_eq, concat_nonempty_chunks.
    rewrite lookup_insert_ne by auto. auto.
Qed.

(** ** The counters of the loop *)

Lemma count_row_status (s : status) (t : tally) :
  count_row (status_name s) t
  = {| done_count := S (done_count t);
       ok := ok t + (if counted_ok s then 1 else 0);
       without_pdf := without_pdf t + (if counted_no_pdf s then 1 else 0);
       err := err t + (if counted_err s then 1 else 0) |}.
Proof.
  destruct t as [d o n e].
  destruct s; vm_compute; rewrite ?Nat.add_0_r, ?Nat.add_1_r; reflexivity.
Qed.

Lemma rows_with_snoc kind rows r :
  rows_with kind (rows ++ [r])
  = rows_with kind rows + (if kind (row_status r) then 1 else 0).
Proof.
  unfold rows_with. rewrite List.filter_app, length_app. simpl.
  now destruct (kind (row_status r)).
Qed.

Section CounterFacts.
Context {rt : PyRuntime}.
Variable net : Network.
Variable sched : Scheduler.
Variable out_dir : str.

Lemma loop_counts todo pass w rows t ex :
  done_count t = length rows ->
  ok t = rows_with counted_ok rows ->
  without_pdf t = rows_with counted_no_pdf rows ->
  err t = rows_with counted_err rows ->
  let r := as_completed_loop net sched out_dir todo pass w rows t ex in
  done_count (counts r) = length (written r)
  /\ ok (counts r) = rows_with counted_ok (written r)
  /\ without_pdf (counts r) = rows_with counted_no_pdf (written r)
  /\ err (counts r) = rows_with counted_err (written r).
Proof.
  revert pass w rows t ex.
  induction todo as [|work_url rest IH]; intros pass w rows t ex Hd Ho Hn He.
  - simpl. auto.
  - cbv zeta. rewrite as_completed_loop_step. cbv zeta.
    destruct (negb (running sched (S pass))); [simpl; auto|].
    destruct (job_download net work_url out_dir w).2 as [r|]; [|simpl; auto].
    apply IH; rewrite count_row_status; cbn [done_count ok without_pdf err];
      rewrite ?rows_with_snoc, ?length_app; simpl; lia.
Qed.

Lemma rows_with_partition rows :
  rows_with counted_ok rows + rows_with counted_no_pdf rows
  + rows_with counted_err rows = length rows.
Proof.
  induction rows as [|r rows IH] using rev_ind; [reflexivity|].
  rewrite !rows_with_snoc, length_app. simpl.
  destruct (row_status r); simpl; lia.
Qed.

(** X9: however the download phase is left, the counters describe the
    rows written to the manifest: [done_count] is their number, [ok] the
    number with status [exists], [downloaded_direct] or
    [downloaded_fallback], [no_pdf] and [err] the numbers with status
    [no_pdf] and [error]; the three add up to the number of rows, and
    the work of a job whose row was not written is not counted. *)
Theorem counters_describe_the_rows (work_urls : list str) (w : world) :
  let r := download_all net sched out_dir work_urls w in
  done_count (counts r) = length (written r)
  /\ ok (counts r) = rows_with counted_ok (written r)
  /\ without_pdf (counts r) = rows_with counted_no_pdf (written r)
  /\ err (counts r) = rows_with counted_err (written r)
  /\ ok (counts r) + without_pdf (counts r) + err (counts r)
     = length (written r)
  /\ length (written r) <= length (executed r).
Proof.
  intros r. subst r. unfold download_all.
  pose proof (loop_counts (completion sched work_urls) 0
                (open_manifest out_dir w) [] tally_zero []
                eq_refl eq_refl eq_refl eq_refl) as (Hd & Ho & Hn & He).
  pose proof (loop_written net sched out_dir (completion sched work_urls) 0
                (open_manifest out_dir w) [] tally_zero [])
    as (k & Hk & Hlen & _).
  pose proof (loop_executed net sched out_dir (completion sched work_urls) 0
                (open_manifest out_dir w) [] tally_zero []) as Hex.
  cbv zeta in *.
  set (r := as_completed_loop net sched out_dir _ _ _ _ _ _) in *.
  split; [exact Hd|]. split; [exact Ho|]. split; [exact Hn|]. split; [exact He|].
  split; [rewrite Ho, Hn, He; apply rows_with_partition|].
  apply (f_equal length) in Hex. rewrite length_map in Hex. simpl in Hex, Hlen.
  lia.
Qed.


(** X15: two work URLs that get the same file name share one file.  Once
    a job has put the document of the first on disk, the job of the
    second sends no request, changes nothing and reports [exists] with
    that path. *)
Theorem same_name_second_job_skips (url1 url2 : str) (w : world) :
  filename_of url1 = filename_of url2 ->
  forall row1,
    (job_download net url1 out_dir w).2 = Returns row1 ->
    ok_status (row_status row1) ->
    let w1 := (job_download net url1 out_dir w).1 in
    exists row2,
      job_download net url2 out_dir w1 = (w1, Returns row2)
      /\ row_work_url row2 = url2
      /\ row_status row2 = st_exists
      /\ row_file_path row2 = file_path_of out_dir url1.
Proof.
  intros Hname row1 Hrow Hok w1. subst w1.
  destruct (job_download net url1 out_dir w) as [w1 r1] eqn:E1.
  cbn [fst snd] in *. subst r1.
  pose proof (job_download_spec net _ _ _ _ _ E1) as (_ & _ & _ & H4 & _).
  destruct (H4 row1 eq_refl) as (_ & Hdisk & _). specialize (Hdisk Hok).
  assert (file_path_of out_dir url2 = file_path_of out_dir url1) as Hpath
    by (unfold file_path_of; now rewrite Hname).
  rewrite <- Hpath in Hdisk.
  destruct (job_download_exists net url2 out_dir w1 Hdisk) as (row2 & E2 & Hu & Hst).
  exists row2. split; [exact E2|]. split; [exact Hu|]. split; [exact Hst|].
  pose proof (job_download_outcome net _ _ _ _ _ E2) as [_ (_ & _ & Hrow2)].
  rewrite Hst in Hrow2. destruct Hrow2 as (_ & _ & _ & ->). exact Hpath.
Qed.

End CounterFacts.


(** The second address differs from the first by a doubled hyphen only. *)
Lemma same_name_second_job_skips_witness :
  let url1 := u "https://www.even3.com.br/anais/ennepe2022/528900-A-B" in
  let url2 := u "https://www.even3.com.br/anais/ennepe2022/528900-A--B" in
  let w1 := (@job_download ascii_runtime net_serving url1 sim_out_dir
               empty_world).1 in
  url1 <> url2
  /\ exists row2,
       @job_download ascii_runtime net_serving url2 sim_out_dir w1
         = (w1, Returns row2)
       /\ row_work_url row2 = url2
       /\ row_status row2 = st_exists
       /\ row_file_path row2 = @file_path_of ascii_runtime sim_out_dir url1.
Proof.
  intros url1 url2 w1. split; [discriminate|].
  apply (@same_name_second_job_skips ascii_runtime net_serving sim_out_dir
           url1 url2 empty_world eq_refl
           {| row_work_url := url1; row_work_id := u "528900";
              row_pdf_url := u "https://static.even3.com/anais/528900.pdf";
              row_file_path := @file_path_of ascii_runtime sim_out_dir url1;
              row_status := downloaded_direct |}).
  - vm_compute. reflexivity.
  - right. left. reflexivity.
Defined.

(** ** The listing URL and its slug *)

Lemma drop_while_app_all p a b :
  Forall (fun c => p c = true) a -> drop_while p (a ++ b) = drop_while p b.
Proof. induction 1 as [|c t Hc Ht IH]; [reflexivity|]. simpl. now rewrite Hc. Qed.

Lemma before_first_none sep s :
  Forall (fun c => c <> sep) s -> before_first sep s = s.
Proof.
  unfold before_first. induction 1 as [|c t Hc Ht IH]; [reflexivity|].
  simpl. destruct (N.eqb_spec c sep); [contradiction|]. simpl. now rewrite IH.
Qed.

Lemma split_on_none sep s :
  Forall (fun c => c <> sep) s -> split_on sep s = [s].
Proof.
  induction 1 as [|c t Hc Ht IH]; [reflexivity|].
  simpl. destruct (N.eqb_spec c sep); [contradiction|]. now rewrite IH.
Qed.

Lemma filter_all (p : char -> bool) s :
  Forall (fun c => p c = true) s -> filter (fun c => p c = true) s = s.
Proof.
  induction 1 as [|c t Hc Ht IH]; [reflexivity|].
  rewrite filter_cons_True by exact Hc. now rewrite IH.
Qed.

Lemma rstrip_by_snoc_drop p s c :
  p c = true -> rstrip_by p (s ++ [c]) = rstrip_by p s.
Proof.
  intros Hc. unfold rstrip_by. rewrite rev_app_distr. simpl. now rewrite Hc.
Qed.

Lemma segment_char_spec c :
  segment_char c = true ->
  (32 < c)%N /\ isspace c = false /\ c <> 47%N /\ c <> 63%N /\ c <> 35%N.
Proof.
  unfold segment_char. intros H.
  apply andb_true_iff in H as [H H3]. apply andb_true_iff in H as [H1 H2].
  apply N.ltb_lt in H1. apply negb_true_iff in H2, H3.
  split; [exact H1|]. split; [exact H2|].
  repeat split; intros ->; discriminate H3.
Qed.

Lemma host_char_segment host :
  Forall (fun c => host_char c = true) host ->
  Forall (fun c => segment_char c = true) host.
Proof.
  intros Hall. eapply Forall_impl; [exact Hall|].
  intros c H. unfold host_char in H.
  apply andb_true_iff in H as [H _]. now apply andb_true_iff in H as [_ H].
Qed.

(** X2: for a listing address [https://<host>/anais/<slug>], with or
    without a final slash and with white space around it, as the operator
    may paste it, [normalize_anais_url] followed by [extract_slug] returns
    the slug in lower case. *)
Theorem extract_slug_of_listing_url (lower_table : str -> str)
    (url host slug : str) :
  let base := u "https://" ++ host ++ u "/anais/" ++ slug in
  Forall (fun c => host_char c = true) host ->
  Forall (fun c => segment_char c = true) slug ->
  slug <> [] ->
  strip url = base \/ strip url = base ++ u "/" ->
  normalize_anais_url url = base ++ u "/"
  /\ extract_slug lower_table (normalize_anais_url url)
     = Returns (str_lower lower_table slug).
Proof.
  intros base Hhost Hslug Hne Hurl. apply host_char_segment in Hhost.
  assert (Hh : Forall (fun c => (32 < c)%N /\ isspace c = false /\ c <> 47%N
                                /\ c <> 63%N /\ c <> 35%N) host)
    by (eapply Forall_impl; [exact Hhost | apply segment_char_spec]).
  assert (Hs : Forall (fun c => (32 < c)%N /\ isspace c = false /\ c <> 47%N
                                /\ c <> 63%N /\ c <> 35%N) slug)
    by (eapply Forall_impl; [exact Hslug | apply segment_char_spec]).
  destruct (exists_last Hne) as (init & z & Ez).
  assert (Hz : (32 < z)%N /\ isspace z = false /\ z <> 47%N) .
  { rewrite Forall_forall in Hs. destruct (Hs z) as (? & ? & ? & _); [|auto].
    rewrite Ez. apply elem_of_app. right. now apply list_elem_of_singleton. }
  destruct Hz as (Hz32 & Hzsp & Hz47).
  assert (Hlast : last base = Some z).
  { unfold base. rewrite Ez, !app_assoc. apply last_snoc. }
  assert (Hnorm : normalize_anais_url url = base ++ u "/").
  { unfold normalize_anais_url, ends_with_slash. destruct Hurl as [-> | ->].
    - destruct base as [|c t] eqn:Eb; [discriminate|].
      rewrite <- Eb in *. rewrite Hlast.
      rewrite bool_decide_eq_false_2 by congruence.
      now rewrite Eb.
    - change (u "/") with [47%N]. rewrite last_snoc.
      rewrite bool_decide_eq_true_2 by reflexivity.
      now destruct (base ++ [47%N]). }
  split; [exact Hnorm|]. rewrite Hnorm. clear Hnorm Hurl url.
  unfold extract_slug.
  assert (Hpath : urlparse_path (base ++ u "/") = u "/anais/" ++ slug ++ u "/").
  { unfold urlparse_path, base.
    set (rest := host ++ u "/anais/" ++ slug).
    change (drop_while (fun c => (c <=? 32)%N) ((u "https://" ++ rest) ++ u "/"))
      with ((u "https://" ++ rest) ++ u "/").
    rewrite filter_all.
    2:{ rewrite <- !app_assoc. apply Forall_app. split; [now repeat constructor|].
        unfold rest. rewrite <- !app_assoc.
        apply Forall_app. split.
        { eapply Forall_impl; [exact Hh|]. intros c (Hc & _).
          unfold char_in. simpl.
          destruct (N.eqb_spec c 9), (N.eqb_spec c 10), (N.eqb_spec c 13);
            try reflexivity; lia. }
        apply Forall_app. split; [now repeat constructor|].
        apply Forall_app. split; [|now repeat constructor].
        eapply Forall_impl; [exact Hs|]. intros c (Hc & _).
        unfold char_in. simpl.
        destruct (N.eqb_spec c 9), (N.eqb_spec c 10), (N.eqb_spec c 13);
          try reflexivity; lia. }
    assert (Hsplit : split_scheme ((u "https://" ++ rest) ++ u "/")
                     = (u "https", u "//" ++ rest ++ u "/")).
    { unfold split_scheme. rewrite <- app_assoc.
      change (before_first 58 (u "https://" ++ rest ++ u "/")) with (u "https").
      change (u "https://" ++ rest ++ u "/")
        with (u "https:" ++ (u "//" ++ rest ++ u "/")).
      rewrite length_app.
      assert ((length (u "https")
                 <? length (u "https:") + length (u "//" ++ rest ++ u "/"))%nat
              = true) as -> by (apply Nat.ltb_lt; simpl; lia).
      reflexivity. }
    rewrite Hsplit. cbv iota beta.
    assert (Hnet : drop_netloc (u "//" ++ rest ++ u "/")
                   = u "/anais/" ++ slug ++ u "/").
    { change (drop_netloc (u "//" ++ rest ++ u "/"))
        with (drop_while (fun c => negb (char_in (u "/?#") c)) (rest ++ u "/")).
      unfold rest. rewrite <- !app_assoc. rewrite drop_while_app_all; [reflexivity|].
      eapply Forall_impl; [exact Hhost|]. intros c Hc. unfold segment_char in Hc.
      now apply andb_true_iff in Hc as [_ Hc]. }
    rewrite Hnet.
    assert (Hclean : forall sep, sep <> 47%N -> sep = 63%N \/ sep = 35%N ->
              before_first sep (u "/anais/" ++ slug ++ u "/")
              = u "/anais/" ++ slug ++ u "/").
    { intros sep H47 Hsep. apply before_first_none.
      apply Forall_app. split; [destruct Hsep as [-> | ->]; now repeat constructor|].
      apply Forall_app. split.
      - eapply Forall_impl; [exact Hs|]. intros c (_ & _ & _ & H63 & H35).
        destruct Hsep as [-> | ->]; assumption.
      - constructor; [intros E; now apply H47 | constructor]. }
    rewrite (Hclean 35%N) by (auto; discriminate).
    rewrite (Hclean 63%N) by (auto; discriminate).
    change (existsb _ uses_params) with true. cbv iota.
    unfold strip_params.
    assert (last_segment 47 (u "/anais/" ++ slug ++ u "/") = []) as ->.
    { unfold last_segment. rewrite !app_assoc.
      change (u "/") with [47%N]. apply last_segment_from_app. }
    rewrite Nat.sub_0_r, firstn_all. apply app_nil_r. }
  rewrite Hpath.
  assert (Hstrip : strip_slash (u "/anais/" ++ slug ++ u "/") = u "anais/" ++ slug).
  { unfold strip_slash, strip_by, lstrip_by.
    change (drop_while (chr_is 47) (u "/anais/" ++ slug ++ u "/"))
      with (u "anais/" ++ slug ++ u "/").
    rewrite !app_assoc. change (u "/") with [47%N].
    rewrite rstrip_by_snoc_drop by reflexivity.
    apply rstrip_by_fixed. rewrite Ez, !app_assoc, last_snoc.
    unfold chr_is. now apply N.eqb_neq. }
  rewrite Hstrip.
  assert (Hparts : split_on 47 (u "anais/" ++ slug) = [u "anais"; slug]).
  { assert (split_on 47 slug = [slug]) as Hone.
    { apply split_on_none. eapply Forall_impl; [exact Hs|].
      intros c (_ & _ & H47 & _). exact H47. }
    change (u "anais/" ++ slug)
      with (97%N :: 110%N :: 97%N :: 105%N :: 115%N :: 47%N :: slug).
    cbn [split_on N.eqb Pos.eqb]. now rewrite Hone. }
  rewrite Hparts. reflexivity.
Qed.

Lemma extract_slug_of_listing_url_witness :
  let url := u "  https://www.even3.com.br/anais/ENNEPE2022  " in
  let base := u "https://" ++ u "www.even3.com.br" ++ u "/anais/"
              ++ u "ENNEPE2022" in
  normalize_anais_url url = base ++ u "/"
  /\ extract_slug (fun s => s) (normalize_anais_url url)
     = Returns (str_lower (fun s => s) (u "ENNEPE2022")).
Proof.
  intros url.
  apply (extract_slug_of_listing_url (fun s => s) url
           (u "www.even3.com.br") (u "ENNEPE2022")).
  - apply Forall_forall. intros c Hc. apply list_elem_of_In in Hc.
    revert c Hc. apply forallb_forall. vm_compute. reflexivity.
  - apply Forall_forall. intros c Hc. apply list_elem_of_In in Hc.
    revert c Hc. apply forallb_forall. vm_compute. reflexivity.
  - discriminate.
  - left. vm_compute. reflexivity.
Defined.

(** ** When a pattern is sure to match *)

Lemma re_star_accepts p s caps k :
  is_Some (k s caps) -> is_Some (re_star p s caps k).
Proof.
  intros Hk. destruct s as [|c t]; [exact Hk|]. simpl.
  destruct (p c); [|exact Hk]. now destruct (re_star p t caps k).
Qed.

Lemma re_star_accepts_run p run rest caps k :
  Forall (fun c => p c = true) run ->
  is_Some (k rest caps) -> is_Some (re_star p (run ++ rest) caps k).
Proof.
  intros Hrun Hk. induction Hrun as [|c t Hc Ht IH]; [now apply re_star_accepts|].
  simpl. rewrite Hc. destruct (re_star p (t ++ rest) caps k); [eauto|].
  now destruct IH.
Qed.

Lemma re_at_least_accepts n p run rest caps k :
  n <= length run ->
  Forall (fun c => p c = true) run ->
  is_Some (k rest caps) -> is_Some (re_at_least n p (run ++ rest) caps k).
Proof.
  revert run. induction n as [|n IH]; intros run Hn Hrun Hk.
  - now apply re_star_accepts_run.
  - destruct Hrun as [|c t Hc Ht]; [simpl in Hn; lia|].
    cbn [re_at_least]. unfold re_seq. simpl. rewrite Hc.
    apply IH; [simpl in Hn; lia | exact Ht | exact Hk].
Qed.

Lemma re_search_accepts m skipped s :
  is_Some (re_match m s) -> is_Some (re_search m (skipped ++ s)).
Proof.
  intros Hm. induction skipped as [|c t IH].
  - destruct Hm as [caps Hm]. destruct s; simpl; rewrite Hm; eauto.
  - simpl. destruct (re_match m (c :: t ++ s)); [eauto | exact IH].
Qed.

Lemma before_first_app sep a b :
  Forall (fun c => c <> sep) a ->
  before_first sep (a ++ b) = a ++ before_first sep b.
Proof.
  unfold before_first. induction 1 as [|c t Hc Ht IH]; [reflexivity|].
  simpl. destruct (N.eqb_spec c sep); [contradiction|]. simpl. now rewrite IH.
Qed.

Section LinkFacts.
Context {rt : PyRuntime}.

Lemma re_lit_consumes lit pre rest caps k :
  Forall2 (fun p c => ci_eq p c = true) lit pre ->
  re_lit true lit (pre ++ rest) caps k = k rest caps.
Proof.
  induction 1 as [|p c lit pre Hpc Hrest IH]; [reflexivity|].
  cbn [re_lit]. unfold re_seq. simpl. now rewrite Hpc.
Qed.

(** Under [re.I] an ASCII pattern character matches a character that is
    not a letter only if it is that character. *)
Lemma ci_eq_not_letter p c :
  is_ascii p = true -> is_ascii c = true -> ascii_alpha c = false ->
  ci_eq p c = true -> p = c.
Proof.
  unfold ci_eq. intros -> -> Hc. simpl.
  unfold ascii_alpha in Hc. apply orb_false_iff in Hc as [Hu Hl].
  intros H. apply N.eqb_eq in H. revert H.
  unfold ascii_tolower at 2. rewrite Hu.
  unfold ascii_tolower. destruct (ascii_upper p) eqn:Hp; [|auto].
  intros <-. exfalso.
  unfold ascii_upper, ascii_lower_case in *.
  apply andb_true_iff in Hp as [H1 H2]. apply N.leb_le in H1, H2.
  apply andb_false_iff in Hl.
  destruct Hl as [Hl|Hl]; apply N.leb_gt in Hl; lia.
Qed.

Lemma ci_match_avoids x lit pre :
  is_ascii x = true -> ascii_alpha x = false ->
  Forall (fun p => is_ascii p = true /\ p <> x) lit ->
  Forall2 (fun p c => ci_eq p c = true) lit pre ->
  Forall (fun c => c <> x) pre.
Proof.
  intros Hx Ha Hlit H. induction H as [|p c lit pre Hpc Hrest IH]; [constructor|].
  apply Forall_cons in Hlit as [[Hp Hne] Hlit].
  constructor; [|now apply IH].
  intros ->. apply Hne. now apply ci_eq_not_letter.
Qed.

Lemma literal_avoids x lit :
  forallb (fun p => is_ascii p && negb (p =? x)%N) lit = true ->
  Forall (fun p => is_ascii p = true /\ p <> x) lit.
Proof.
  intros H. apply Forall_forall. intros p Hp. apply list_elem_of_In in Hp.
  rewrite forallb_forall in H. specialize (H p Hp).
  apply andb_true_iff in H as [H1 H2]. split; [exact H1|].
  apply negb_true_iff in H2. now apply N.eqb_neq.
Qed.

Lemma re_digit_not x c :
  re_digit x = false -> is_ascii x = true -> re_digit c = true -> c <> x.
Proof. intros Hx _ Hc ->. congruence. Qed.

(** What [work_url_re] lets through. *)
Lemma work_url_re_sound slug :
  sound (work_url_re slug)
    (fun pre new =>
       exists scheme host slug' digits,
         pre = scheme ++ host ++ slug' ++ [47%N] ++ digits /\ new = []
         /\ (Forall2 (fun p c => ci_eq p c = true) (u "http") scheme
             \/ Forall2 (fun p c => ci_eq p c = true) (u "https") scheme)
         /\ Forall2 (fun p c => ci_eq p c = true)
              (u "://www.even3.com.br/anais/") host
         /\ Forall2 (fun p c => ci_eq p c = true) slug slug'
         /\ 3 <= length digits
         /\ Forall (fun c => re_digit c = true) digits).
Proof.
  unfold work_url_re.
  eapply sound_weaken.
  { apply sound_seq; [apply (sound_lit true)|].
    apply sound_seq; [apply sound_opt, sound_chr|].
    apply sound_seq; [apply (sound_lit true)|].
    apply sound_seq; [apply (sound_lit true)|].
    apply sound_seq; [apply sound_chr | apply sound_at_least]. }
  intros pre new (h & p2 & n1 & n2 & -> & -> & [Hh ->] & Hrest).
  destruct Hrest as (s & p3 & n3 & n4 & -> & -> & Hs & Hrest).
  destruct Hrest as (host & p4 & n5 & n6 & -> & -> & [Hhost ->] & Hrest).
  destruct Hrest as (slug' & p5 & n7 & n8 & -> & -> & [Hslug ->] & Hrest).
  destruct Hrest as (sl & digits & n9 & n10 & -> & -> & (c & -> & Hc & ->) & Hd).
  destruct Hd as (Hlen & Hdig & ->).
  apply N.eqb_eq in Hc. subst c.
  assert (exists scheme,
            h ++ s = scheme /\ n3 = []
            /\ (Forall2 (fun p c => ci_eq p c = true) (u "http") scheme
                \/ Forall2 (fun p c => ci_eq p c = true) (u "https") scheme))
    as (scheme & Hscheme & -> & Hsch).
  { destruct Hs as [(c & -> & Hc & ->)|[-> ->]].
    - exists (h ++ [c]). split; [reflexivity|]. split; [reflexivity|]. right.
      change (u "https") with (u "http" ++ [115%N]).
      apply Forall2_app; [exact Hh | now repeat constructor].
    - exists h. rewrite app_nil_r. auto. }
  exists scheme, host, slug', digits. simpl.
  split; [rewrite <- Hscheme; now rewrite <- !app_assoc|]. auto 10.
Qed.

(** A link the harvester accepts, cut at its question mark, still shows
    its work id to [work_id_from_url]. *)
Lemma accepted_link_has_work_id slug h :
  slug <> [] ->
  Forall (fun c => is_ascii c = true /\ c <> 47%N /\ c <> 63%N) slug ->
  is_work_url slug h = true ->
  let wid := work_id_from_url (before_first 63 h) in
  3 <= length wid /\ Forall (fun c => re_digit c = true) wid.
Proof.
  intros Hne Hslug Hw wid. subst wid.
  unfold is_work_url in Hw.
  destruct (re_match (work_url_re slug) h) as [caps|] eqn:E; [|discriminate].
  destruct (re_match_sound _ _ _ _ (work_url_re_sound slug) E)
    as (pre & rest & -> & scheme & host & slug' & digits & -> & _
        & Hscheme & Hhost & Hsl & Hlen & Hdig).
  clear E Hw.
  change (u "://www.even3.com.br/anais/")
    with (u "://www.even3.com.br" ++ u "/anais/") in Hhost.
  apply Forall2_app_inv_l in Hhost as (host1 & lit & Hhost1 & Hlit & ->).
  (* no question mark before the end of the digits *)
  assert (Hq_scheme : Forall (fun c => c <> 63%N) scheme).
  { destruct Hscheme as [H|H];
      (eapply ci_match_avoids; [reflexivity | reflexivity | | exact H]);
      now apply literal_avoids. }
  assert (Hq_host1 : Forall (fun c => c <> 63%N) host1).
  { eapply ci_match_avoids; [reflexivity | reflexivity | | exact Hhost1].
    now apply literal_avoids. }
  assert (Hq_lit : Forall (fun c => c <> 63%N) lit).
  { eapply ci_match_avoids; [reflexivity | reflexivity | | exact Hlit].
    now apply literal_avoids. }
  assert (Hq_slug : Forall (fun c => c <> 63%N) slug').
  { eapply ci_match_avoids; [reflexivity | reflexivity | | exact Hsl].
    eapply Forall_impl; [exact Hslug|]. tauto. }
  assert (Hs_slug : Forall (fun c => c <> 47%N) slug').
  { eapply ci_match_avoids; [reflexivity | reflexivity | | exact Hsl].
    eapply Forall_impl; [exact Hslug|]. tauto. }
  assert (Hq_dig : Forall (fun c => c <> 63%N) digits).
  { eapply Forall_impl; [exact Hdig|]. intros c Hc.
    now apply re_digit_not. }
  match goal with |- context [before_first 63 ?a] =>
    assert (before_first 63 a
            = (scheme ++ host1)
              ++ (lit ++ slug' ++ 47%N :: digits ++ before_first 63 rest)) as ->
  end.
  { rewrite before_first_app.
    - simpl. now rewrite <- !app_assoc.
    - repeat (apply Forall_app; split); try assumption.
      constructor; [discriminate | first [assumption | constructor]]. }
  assert (Hm : is_Some (re_match work_id_re
                 (lit ++ slug' ++ 47%N :: digits ++ before_first 63 rest))).
  { unfold re_match, work_id_re, re_seq. rewrite re_lit_consumes by exact Hlit.
    apply re_at_least_accepts.
    - apply Forall2_length in Hsl. destruct slug; [contradiction|].
      simpl in Hsl. lia.
    - eapply Forall_impl; [exact Hs_slug|]. intros c Hc.
      apply negb_true_iff. now apply N.eqb_neq.
    - cbv beta. unfold re_chr, chr_is. rewrite N.eqb_refl. unfold re_group.
      apply (re_at_least_accepts 3); eauto. }
  apply (re_search_accepts _ (scheme ++ host1)) in Hm as [m Hm].
  unfold work_id_from_url. rewrite Hm.
  destruct (re_search_sound _ _ _ _ work_id_re_sound Hm)
    as (_ & _ & _ & _ & _ & _ & wid & _ & -> & _ & _ & _ & Hl & Hd).
  simpl. auto.
Qed.

End LinkFacts.

Section HarvestedLinks.
Context {rt : PyRuntime}.
Variable br : Browser.
Variable slug : str.

(** X13: for a non-empty slug of ASCII characters without slash or
    question mark, every URL the harvester returns has a work id:
    [work_id_from_url] finds a run of at least three digits in it, also
    after the query string has been cut off. *)
Theorem harvested_urls_have_a_work_id (fuel : nat) (urls : list str) :
  slug <> [] ->
  Forall (fun c => is_ascii c = true /\ c <> 47%N /\ c <> 63%N) slug ->
  collect_work_urls_with_playwright fuel br slug = Some (Returns urls) ->
  Forall (fun x =>
            3 <= length (work_id_from_url x)
            /\ Forall (fun c => re_digit c = true) (work_id_from_url x)) urls.
Proof.
  intros Hne Hslug Hrun.
  destruct (collect_sorted_set br slug fuel urls Hrun) as (_ & _ & Hlinks).
  eapply Forall_impl; [exact Hlinks|].
  intros x (_ & b & hs & h & _ & _ & Hw & ->).
  exact (accepted_link_has_work_id slug h Hne Hslug Hw).
Qed.

(** ** Scraping a page again *)

Lemma scrape_one_known acc h :
  (forall h0, h = Some h0 -> is_work_url slug h0 = true ->
              before_first 63 h0 ∈ acc.1) ->
  scrape_one slug acc h = acc.
Proof.
  intros H. unfold scrape_one. destruct h as [h0|]; [|reflexivity].
  destruct (is_work_url slug h0) eqn:Hw; [|reflexivity].
  destruct (decide (before_first 63 h0 ∈ acc.1)) as [|Hn]; [reflexivity|].
  destruct Hn. now apply H.
Qed.

Lemma scrape_fold_known hs acc :
  (forall h0, Some h0 ∈ hs -> is_work_url slug h0 = true ->
              before_first 63 h0 ∈ acc.1) ->
  fold_left (scrape_one slug) hs acc = acc.
Proof.
  induction hs as [|h hs IH]; intros H; [reflexivity|].
  simpl. rewrite scrape_one_known.
  - apply IH. intros h0 Hin. apply H. now right.
  - intros h0 -> Hw. apply H; [left | exact Hw].
Qed.

Lemma scrape_fold_complete hs acc h0 :
  Some h0 ∈ hs -> is_work_url slug h0 = true ->
  before_first 63 h0 ∈ (fold_left (scrape_one slug) hs acc).1.
Proof.
  revert acc. induction hs as [|h hs IH]; intros acc Hin Hw.
  - now apply elem_of_nil in Hin.
  - simpl. apply elem_of_cons in Hin as [<-|Hin]; [|now apply IH].
    destruct (scrape_fold slug hs (scrape_one slug acc (Some h0))) as (Hsub & _).
    apply Hsub. unfold scrape_one. rewrite Hw.
    destruct (decide (before_first 63 h0 ∈ acc.1)) as [Hk|Hk]; [exact Hk|].
    simpl. apply elem_of_union. left. now apply elem_of_singleton.
Qed.

(** X12: after [scrape_links] the set holds every work link the page
    shows, and scraping the same page state again adds nothing and
    counts no new link; this is what lets the stall counter rise when a
    click on the next-page control changes nothing. *)
Theorem scrape_links_twice (b : bstate br) (coll : gset str) :
  let once := scrape_links br slug b coll in
  (forall x, link_of_page br slug b x -> x ∈ once.1)
  /\ scrape_links br slug b once.1 = (once.1, 0)
  /\ forall st,
       hpage st = b -> collected st = once.1 ->
       (harvest_iter br slug st = inl once.1
        \/ exists st', harvest_iter br slug st = inr st'
                       /\ collected st' = once.1
                       /\ stalled st' = S (stalled st)).
Proof.
  intros once.
  assert (Hall : forall x, link_of_page br slug b x -> x ∈ once.1).
  { intros x (hs & h & Hhs & Hin & Hw & ->). subst once.
    unfold scrape_links. rewrite Hhs. now apply scrape_fold_complete. }
  assert (Htwice : scrape_links br slug b once.1 = (once.1, 0)).
  { unfold scrape_links at 1. destruct (hrefs br b) as [hs|] eqn:Hhs; [|reflexivity].
    apply scrape_fold_known. intros h0 Hin Hw. apply Hall.
    exists hs, h0. auto. }
  split; [exact Hall|]. split; [exact Htwice|].
  intros st Hb Hc. unfold harvest_iter. rewrite Hb, Hc, Htwice.
  unfold stalled_after. simpl Nat.eqb. cbv iota.
  destruct (5 <=? S (stalled st))%nat; [now left|].
  destruct (click_next br b) as [clicked b'].
  destruct clicked; simpl; [right; eauto | now left].
Qed.

End HarvestedLinks.

Lemma harvested_urls_have_a_work_id_witness :
  Forall (fun x =>
            3 <= length (@work_id_from_url ascii_runtime x)
            /\ Forall (fun c => @re_digit ascii_runtime c = true)
                 (@work_id_from_url ascii_runtime x))
    (map sim_url (seq 0 30)).
Proof.
  apply (@harvested_urls_have_a_work_id ascii_runtime
           (sim_browser NextMissing) sim_slug 3 (map sim_url (seq 0 30))).
  - discriminate.
  - apply Forall_forall. intros c Hc. apply list_elem_of_In in Hc.
    assert (forallb (fun c => is_ascii c && negb (c =? 47)%N && negb (c =? 63)%N)
              sim_slug = true) as H by (vm_compute; reflexivity).
    rewrite forallb_forall in H. specialize (H c Hc).
    apply andb_true_iff in H as [H H3]. apply andb_true_iff in H as [H1 H2].
    apply negb_true_iff in H2, H3. apply N.eqb_neq in H2, H3. auto.
  - exact (proj1 (@sim_harvest ascii_runtime)).
Defined.

(** ** The requests of a run *)

Section RunFootprint.
Context {rt : PyRuntime}.
Variable net : Network.
Variable sched : Scheduler.
Variable out_dir : str.

(** X16: the requests of the download phase are those of its jobs: at
    most three for each submitted URL, each one for the work page of a
    submitted URL or for an address under [static.even3.com/anais/];
    writing the manifest sends none. *)
Theorem run_requests_stay_on_site (work_urls : list str) (w : world) :
  let r := download_all net sched out_dir work_urls w in
  exists more,
    requests (final r) = requests w ++ more
    /\ length more <= 3 * length (completion sched work_urls)
    /\ Forall (fun q => q ∈ completion sched work_urls \/ on_document_host q)
         more.
Proof.
  intros r. subst r. unfold download_all.
  set (todo := completion sched work_urls).
  pose proof (loop_executed net sched out_dir todo 0 (open_manifest out_dir w) []
                tally_zero []) as Hex.
  pose proof (loop_invariant net sched out_dir
    (fun w' (_ : list row) ex =>
       exists more,
         requests w' = requests w ++ more
         /\ length more <= 3 * length ex
         /\ Forall (fun q => q ∈ map fst ex \/ on_document_host q) more)) as Hinv.
  cbv zeta in Hinv.
  destruct (Hinv) with (todo := todo) (pass := 0) (w := open_manifest out_dir w)
    (rows := @nil row) (t := tally_zero) (ex := @nil (str * nat))
    as (more & Hq & Hl & Hf).
  - clear. intros work_url w1 rows ex (more & Hq & Hl & Hf).
    destruct (job_download net work_url out_dir w1) as [w2 r] eqn:E.
    pose proof (job_download_outcome net _ _ _ _ _ E) as [(more' & Hq' & Hl' & Hf') _].
    cbn [fst snd].
    assert (exists more2,
              requests w2 = requests w ++ more2
              /\ length more2
                 <= 3 * length (ex ++ [(work_url, length (requests w2) - length (requests w1))])
              /\ Forall (fun q =>
                           q ∈ map fst (ex ++ [(work_url, length (requests w2) - length (requests w1))])
                           \/ on_document_host q) more2) as Hjob.
    { exists (more ++ more'). split; [rewrite Hq', Hq; now rewrite <- app_assoc|].
      split; [rewrite !length_app; simpl; lia|].
      rewrite map_app. apply Forall_app. split.
      - eapply Forall_impl; [exact Hf|]. intros q [Hin|Hh]; [left|now right].
        apply elem_of_app. now left.
      - eapply Forall_impl; [exact Hf'|]. intros q [->|Hh]; [left|now right].
        apply elem_of_app. right. simpl. now apply list_elem_of_singleton. }
    split; [exact Hjob|]. intros row _. exact Hjob.
  - exists []. rewrite app_nil_r. split; [reflexivity|]. split; [simpl; lia | constructor].
  - exists more. split; [exact Hq|].
    apply (f_equal length) in Hex as Hlen. rewrite length_map in Hlen.
    simpl in Hlen. rewrite Hlen in Hl. split; [exact Hl|].
    simpl in Hex. rewrite Hex in Hf. exact Hf.
Qed.

End RunFootprint.

(** ** The shape of a title *)

Section TitleFacts.
Context {rt : PyRuntime}.

(** X17: the title [guess_title_from_work_url] returns has no white
    space at either end, no white space but single spaces, and no
    hyphen; it is empty unless the last segment of the path starts with
    three digits. *)
Theorem guess_title_is_tidy (work_url : str) :
  let title := guess_title_from_work_url work_url in
  trimmed title
  /\ single_spaced title
  /\ Forall (fun c => c <> 45%N) title
  /\ (title <> [] ->
      exists digits rest,
        last_segment 47 (strip_slash (urlparse_path work_url)) = digits ++ rest
        /\ length digits = 3
        /\ Forall (fun c => re_digit c = true) digits).
Proof.
  intros title. subst title.
  split; [|split; [|split; [apply guess_title_no_hyphen|]]].
  - unfold guess_title_from_work_url.
    destruct (re_match title_re _); [apply trimmed_strip | split; exact I].
  - unfold guess_title_from_work_url.
    destruct (re_match title_re _); [|exact I].
    apply single_spaced_strip, collapse_single_spaced.
  - unfold guess_title_from_work_url.
    destruct (re_match title_re _) as [m|] eqn:E; [|congruence].
    intros _. unfold title_re in E.
    assert (Hs : sound (re_seq (re_group (re_at_least 3 re_digit))
                          (re_seq (re_chr (char_in (u "-/")))
                             (re_seq (re_group (re_at_least 1 (fun c => negb (c =? 10)%N)))
                                re_eos)))
                   (fun pre new => exists digits rest, pre = digits ++ rest
                                   /\ 3 <= length digits
                                   /\ Forall (fun c => re_digit c = true) digits)).
    { eapply sound_weaken.
      { apply sound_seq; [apply sound_group, sound_at_least|].
        apply sound_seq; [apply sound_chr|].
        apply sound_seq; [apply sound_group, sound_at_least | apply sound_eos]. }
      intros pre new (d & p2 & n1 & n2 & -> & _ & (inner & (Hl & Hd & _) & _) & _).
      exists d, p2. auto. }
    destruct (re_match_sound _ _ _ _ Hs E) as (pre & s' & Hseg & d & p2 & -> & Hl & Hd).
    exists (take 3 d), (drop 3 d ++ p2 ++ s').
    split; [rewrite Hseg, !app_assoc, take_drop; reflexivity|].
    split; [rewrite length_take; lia|].
    now apply Forall_take.
Qed.

End TitleFacts.

(** ** The stop rule of the harvester *)

Section NextPageFacts.
Variable br : Browser.

Lemma click_candidates_next_page sels b b' :
  click_candidates br sels b = (true, b') <-> next_page br b sels b'.
Proof.
  split.
  - revert b. induction sels as [|sel rest IH]; intros b; simpl; [discriminate|].
    destruct (locate br b sel) as [| |b1|b1] eqn:E.
    + intros H. apply next_absent; [exact E | now apply IH].
    + discriminate.
    + intros H. eapply next_raises; [exact E | now apply IH].
    + intros [= <-]. now apply next_loads.
  - induction 1 as [b sel rest b' E|b sel rest b' E _ IH|b sel rest b1 b' E _ IH];
      simpl; rewrite E; auto.
Qed.

Lemma click_next_next_page b b' :
  click_next br b = (true, b') <-> next_page br b next_selectors b'.
Proof. apply click_candidates_next_page. Qed.

Lemma click_next_exhausted b :
  (click_next br b).1 = false <-> pagination_exhausted br b.
Proof.
  split.
  - intros H b' Hn. apply click_next_next_page in Hn. rewrite Hn in H. discriminate.
  - intros H. destruct (click_next br b) as [[] b'] eqn:E; [|reflexivity].
    apply click_next_next_page in E. now apply H in E.
Qed.

Lemma next_page_unique b sels b1 b2 :
  next_page br b sels b1 -> next_page br b sels b2 -> b1 = b2.
Proof.
  intros H1 H2. apply click_candidates_next_page in H1, H2. congruence.
Qed.

Lemma page_of_pass_unique b0 n b1 b2 :
  page_of_pass br b0 n b1 -> page_of_pass br b0 n b2 -> b1 = b2.
Proof.
  intros H1. revert b2. induction H1 as [|n b b' Hb IH Hn]; intros b2 H2.
  - now inversion H2.
  - inversion H2 as [|n' c c' Hc Hn' E1 E2]. subst.
    rewrite (IH c Hc) in Hn. eapply next_page_unique; eassumption.
Qed.

Lemma page_of_pass_earlier b0 n b i :
  page_of_pass br b0 n b -> i <= n -> exists c, page_of_pass br b0 i c.
Proof.
  induction 1 as [|n b b' Hb IH Hn]; intros Hi.
  - assert (i = 0) as -> by lia. eexists. constructor.
  - destruct (Nat.eq_dec i (S n)) as [->|Hne].
    + eexists. econstructor; eassumption.
    + apply IH. lia.
Qed.

End NextPageFacts.

Section StopRuleFacts.
Context {rt : PyRuntime}.
Variable br : Browser.
Variable slug : str.
Variable b0 : bstate br.

(** Every work link of the page is in the set after [scrape_links]. *)
Lemma scrape_links_complete b coll x :
  link_of_page br slug b x -> x ∈ (scrape_links br slug b coll).1.
Proof.
  intros (hs & h & Hhs & Hin & Hw & ->).
  unfold scrape_links. rewrite Hhs. now apply scrape_fold_complete.
Qed.

Lemma scrape_links_elem b coll x :
  x ∈ (scrape_links br slug b coll).1 <-> x ∈ coll \/ link_of_page br slug b x.
Proof.
  pose proof (scrape_links_spec br slug b coll) as H.
  pose proof (scrape_links_complete b coll x) as Hc.
  destruct (scrape_links br slug b coll) as [coll' n]. cbn [fst] in *.
  destruct H as (Hsub & _ & Hnew). split; [apply Hnew|].
  intros [Hx|Hx]; [now apply Hsub | now apply Hc].
Qed.

(** [new_count] is zero exactly when the page shows no link that is not
    in the set already. *)
Lemma scrape_links_zero b coll :
  (scrape_links br slug b coll).2 = 0
  <-> forall x, link_of_page br slug b x -> x ∈ coll.
Proof.
  split.
  - intros H x Hx. rewrite <- (scrape_links_none br slug b coll H).
    now apply scrape_links_complete.
  - intros H.
    pose proof (scrape_links_spec br slug b coll) as Hs.
    pose proof (fun x => proj1 (scrape_links_elem b coll x)) as He.
    destruct (scrape_links br slug b coll) as [coll' n]. cbn [fst snd] in *.
    destruct Hs as (Hsub & Hsize & _).
    assert (coll' ⊆ coll) as Hle.
    { intros x Hx. destruct (He x Hx) as [|Hl]; [assumption | now apply H]. }
    apply subseteq_size in Hle. lia.
Qed.

Lemma link_of_pass_here n b x :
  page_of_pass br b0 n b ->
  link_of_pass br slug b0 n x <-> link_of_page br slug b x.
Proof.
  intros Hb. split.
  - intros (c & Hc & Hx). now rewrite (page_of_pass_unique br b0 n b c Hb Hc).
  - intros Hx. exists b. auto.
Qed.

Lemma links_upto (n : nat) (b : bstate br) (coll : gset str) :
  page_of_pass br b0 n b ->
  (forall x, x ∈ coll <-> exists i, i < n /\ link_of_pass br slug b0 i x) ->
  forall x,
    x ∈ (scrape_links br slug b coll).1
    <-> exists i, i <= n /\ link_of_pass br slug b0 i x.
Proof.
  intros Hb Hcoll x. rewrite scrape_links_elem, Hcoll.
  rewrite <- (link_of_pass_here n b x Hb). split.
  - intros [(i & Hi & Hx)|Hx]; [exists i; split; [lia | exact Hx]|].
    exists n. split; [lia | exact Hx].
  - intros (i & Hi & Hx). destruct (Nat.eq_dec i n) as [->|Hne]; [now right|].
    left. exists i. split; [lia | exact Hx].
Qed.

Lemma stall_new_count n st :
  at_pass br slug b0 n st ->
  (scrape_links br slug (hpage st) (collected st)).2 = 0 <-> stall br slug b0 n.
Proof.
  intros (Hb & Hcoll & _). rewrite scrape_links_zero. unfold stall. split.
  - intros H x Hx. apply Hcoll, H. now apply (link_of_pass_here n (hpage st) x Hb).
  - intros H x Hx. apply Hcoll, H. now apply (link_of_pass_here n (hpage st) x Hb).
Qed.

Lemma five_stalls_counter n st :
  at_pass br slug b0 n st ->
  5 <= stalled_after br (scrape_links br slug (hpage st) (collected st)).2 st
  <-> five_stalls br slug b0 n.
Proof.
  intros Hinv. pose proof (stall_new_count n st Hinv) as Hz.
  destruct Hinv as (_ & _ & H4 & Hn & Hrun & Hbreak).
  unfold stalled_after, five_stalls.
  destruct (Nat.eqb_spec (scrape_links br slug (hpage st) (collected st)).2 0)
    as [E|E].
  - apply Hz in E. split.
    + intros H5. assert (stalled st = 4) as Hk by lia. rewrite Hk in *.
      split; [lia|]. intros i Hi.
      destruct (Nat.eq_dec i n) as [->|Hne]; [exact E | apply Hrun; lia].
    + intros [H4n Hall].
      destruct (Nat.lt_ge_cases (stalled st) 4) as [Hlt|Hge]; [|lia].
      exfalso. apply Hbreak; [lia|]. apply Hall. lia.
  - split; [lia|]. intros [_ Hall]. exfalso. apply E, Hz, Hall. lia.
Qed.

(** One pass of the loop against the stop rule. *)
Lemma harvest_iter_at_pass n st :
  at_pass br slug b0 n st ->
  match harvest_iter br slug st with
  | inl coll =>
      stops_at br slug b0 n
      /\ forall x, x ∈ coll <-> exists i, i <= n /\ link_of_pass br slug b0 i x
  | inr st' => ~ stops_at br slug b0 n /\ at_pass br slug b0 (S n) st'
  end.
Proof.
  intros Hinv.
  pose proof (five_stalls_counter n st Hinv) as H5.
  pose proof (stall_new_count n st Hinv) as Hz.
  pose proof (click_next_exhausted br (hpage st)) as Hex.
  destruct Hinv as (Hb & Hcoll & H4 & Hn & Hrun & Hbreak).
  pose proof (links_upto n (hpage st) (collected st) Hb Hcoll) as Hlinks.
  rewrite harvest_iter_stop_rule. cbv zeta.
  set (new_here := (scrape_links br slug (hpage st) (collected st)).2) in *.
  set (coll := (scrape_links br slug (hpage st) (collected st)).1) in *.
  destruct (Nat.leb_spec 5 (stalled_after br new_here st)) as [Hge|Hlt].
  { split; [|exact Hlinks]. exists (hpage st). split; [exact Hb|]. left. now apply H5. }
  destruct (click_next br (hpage st)) as [clicked b'] eqn:Ec. cbn [fst snd] in *.
  destruct clicked; cbn [negb orb].
  - split.
    + intros (b & Hb' & [Hf|He]).
      * apply H5 in Hf. lia.
      * rewrite (page_of_pass_unique br b0 n b (hpage st) Hb' Hb) in He.
        apply Hex in He. discriminate.
    + unfold at_pass. cbn [hpage collected stalled].
      split; [econstructor; [exact Hb | now apply click_next_next_page]|].
      split.
      { intros x. rewrite Hlinks. split; intros (i & Hi & Hx); exists i;
          (split; [lia | exact Hx]). }
      unfold stalled_after in *.
      destruct (Nat.eqb_spec new_here 0) as [E|E].
      * apply Hz in E. split; [lia|]. split; [lia|]. split.
        -- intros i Hi. destruct (Nat.eq_dec i n) as [->|Hne]; [exact E|].
           apply Hrun. lia.
        -- intros Hlt'. replace (S n - S (stalled st) - 1) with (n - stalled st - 1)
             by lia. apply Hbreak. lia.
      * split; [lia|]. split; [lia|]. split; [intros i Hi; lia|].
        intros _. replace (S n - 0 - 1) with n by lia.
        intros Hs. now apply E, Hz.
  - split; [|exact Hlinks]. exists (hpage st). split; [exact Hb|]. right.
    now apply Hex.
Qed.

Lemma at_pass_init : at_pass br slug b0 0 (harvest_init br b0).
Proof.
  unfold at_pass, harvest_init. cbn [hpage collected stalled].
  split; [constructor|]. split.
  { intros x. split; [intros H; now apply elem_of_empty in H|].
    intros (i & Hi & _). lia. }
  split; [lia|]. split; [lia|]. split; [intros i Hi; lia | lia].
Qed.

(** The loop stops in the first pass the stop rule names, with the links
    of the pages up to that pass. *)
Lemma harvest_loop_stops_first fuel n st coll :
  at_pass br slug b0 n st ->
  harvest_loop br slug fuel st = Some coll ->
  exists k,
    n <= k < n + fuel
    /\ stops_at br slug b0 k
    /\ (forall m, n <= m < k -> ~ stops_at br slug b0 m)
    /\ forall x, x ∈ coll <-> exists i, i <= k /\ link_of_pass br slug b0 i x.
Proof.
  revert n st. induction fuel as [|fuel IH]; intros n st Hinv; [discriminate|].
  simpl. pose proof (harvest_iter_at_pass n st Hinv) as Hstep.
  destruct (harvest_iter br slug st) as [coll'|st'].
  - intros [= <-]. destruct Hstep as [Hstop Hlinks].
    exists n. split; [lia|]. split; [exact Hstop|]. split; [intros m Hm; lia | exact Hlinks].
  - intros Hloop. destruct Hstep as [Hgo Hinv'].
    destruct (IH (S n) st' Hinv' Hloop) as (k & Hk & Hstop & Hfirst & Hlinks).
    exists k. split; [lia|]. split; [exact Hstop|]. split; [|exact Hlinks].
    intros m Hm. destruct (Nat.eq_dec m n) as [->|Hne]; [exact Hgo | apply Hfirst; lia].
Qed.

(** When the stop rule names a pass, the loop returns by then. *)
Lemma harvest_loop_returns fuel n k st :
  at_pass br slug b0 n st ->
  stops_at br slug b0 k -> n <= k -> k < n + fuel ->
  exists coll, harvest_loop br slug fuel st = Some coll.
Proof.
  revert n st. induction fuel as [|fuel IH]; intros n st Hinv Hstop Hnk Hk; [lia|].
  simpl. pose proof (harvest_iter_at_pass n st Hinv) as Hstep.
  destruct (harvest_iter br slug st) as [coll'|st']; [eauto|].
  destruct Hstep as [Hgo Hinv'].
  assert (k <> n) as Hne by (intros ->; now apply Hgo).
  apply (IH (S n) st' Hinv' Hstop); lia.
Qed.

End StopRuleFacts.

Section HarvesterStopRule.
Context {rt : PyRuntime}.
Variable br : Browser.
Variable slug : str.

Lemma collect_stops_first fuel urls :
  collect_work_urls_with_playwright fuel br slug = Some (Returns urls) ->
  exists b0 n,
    goto br = Some b0
    /\ n < fuel
    /\ stops_at br slug b0 n
    /\ (forall m, m < n -> ~ stops_at br slug b0 m)
    /\ forall x, x ∈ urls <-> exists i, i <= n /\ link_of_pass br slug b0 i x.
Proof.
  intros H. apply collect_returns in H as (b0 & coll & Hg & Hloop & ->).
  destruct (harvest_loop_stops_first br slug b0 fuel 0 _ coll
              (at_pass_init br slug b0) Hloop)
    as (n & Hn & Hstop & Hfirst & Hlinks).
  exists b0, n. split; [exact Hg|]. split; [lia|]. split; [exact Hstop|].
  split; [intros m Hm; apply Hfirst; lia|].
  intros x. destruct (sorted_spec coll) as (_ & _ & Hel & _).
  rewrite Hel. apply Hlinks.
Qed.

Lemma collect_returns_by b0 n fuel :
  goto br = Some b0 ->
  stops_at br slug b0 n -> n < fuel ->
  exists urls, collect_work_urls_with_playwright fuel br slug = Some (Returns urls).
Proof.
  intros Hg Hstop Hn. unfold collect_work_urls_with_playwright. rewrite Hg.
  destruct (harvest_loop_returns br slug b0 fuel 0 n _ (at_pass_init br slug b0)
              Hstop ltac:(lia) ltac:(lia)) as [coll ->].
  eauto.
Qed.

End HarvesterStopRule.

(** The two further listings: the button is found and all thirty links
    are returned; the stalls between the three links do not add up, and
    the loop runs until five passes in a row have found nothing. *)
Lemma more_harvests {rt : PyRuntime} :
  collect_work_urls_with_playwright 3 button_browser sim_slug
    = Some (Returns (map sim_url (seq 0 30)))
  /\ collect_work_urls_with_playwright 13 gappy_browser sim_slug
     = Some (Returns [sim_url 0; sim_url 1; sim_url 2])
  /\ collect_work_urls_with_playwright 12 gappy_browser sim_slug = None.
Proof. vm_compute. repeat split. Qed.

(** C7: the harvester against the stop rule of the specification.

    The next-page control: [click_next] clicks exactly when a control
    can be clicked in the sense of [next_page] over the four candidates
    in their order, and loads the page that click loads; it returns
    [False] exactly when pagination is exhausted.

    A pass: after [scrape_links] the set holds what it held and the work
    links of the page, cut at their question mark; [new_count] is by how
    much the set grew, and is zero exactly when the page shows no link
    that was not in the set.

    The loop: when the harvester returns, it has stopped in the first
    pass that is the fifth of five consecutive stalls or finds pagination
    exhausted; the list it returns is sorted, has no duplicate, holds no
    question mark, and its members are exactly the work links of the
    pages of the passes made.  Conversely, if the stop rule names a pass,
    the harvester returns once the bound on the passes exceeds it; the
    result does not depend on the bound, and for a listing that can show
    only finitely many work links it is reached within five passes per
    link whatever the next-page control does.

    The simulated listing of three pages of ten links returns its thirty
    links when the control of page 3 is missing, disabled, raises, or can
    be clicked without effect; so does the listing whose control is a
    button.  On the listing with one link on pages 0, 4 and 7, the stalls
    in between do not end the loop: it returns the three links after
    thirteen passes and not before. *)
Theorem harvest_stops_and_returns_sorted_set {rt : PyRuntime}
    (br : Browser) (slug : str) :
  (forall b b',
     click_next br b = (true, b') <-> next_page br b next_selectors b')
  /\ (forall b, (click_next br b).1 = false <-> pagination_exhausted br b)
  /\ (forall b coll,
        let scraped := scrape_links br slug b coll in
        (forall x, x ∈ scraped.1 <-> x ∈ coll \/ link_of_page br slug b x)
        /\ size scraped.1 = size coll + scraped.2
        /\ (scraped.2 = 0 <-> forall x, link_of_page br slug b x -> x ∈ coll))
  /\ (forall fuel urls,
        collect_work_urls_with_playwright fuel br slug = Some (Returns urls) ->
        exists b0 n,
          goto br = Some b0
          /\ n < fuel
          /\ stops_at br slug b0 n
          /\ (forall m, m < n -> ~ stops_at br slug b0 m)
          /\ (forall x,
                x ∈ urls <-> exists i, i <= n /\ link_of_pass br slug b0 i x)
          /\ StronglySorted str_le urls
          /\ NoDup urls
          /\ Forall (fun x => 63%N ∉ x) urls)
  /\ (forall b0 n fuel,
        goto br = Some b0 -> stops_at br slug b0 n -> n < fuel ->
        exists urls,
          collect_work_urls_with_playwright fuel br slug = Some (Returns urls))
  /\ (forall fuel fuel' r,
        fuel <= fuel' ->
        collect_work_urls_with_playwright fuel br slug = Some r ->
        collect_work_urls_with_playwright fuel' br slug = Some r)
  /\ (forall (U : gset str) fuel,
        (forall b x, link_of_page br slug b x -> x ∈ U) ->
        5 * (size U + 1) <= fuel ->
        exists r, collect_work_urls_with_playwright fuel br slug = Some r)
  /\ (forall last_control fuel,
        match last_control with NextInert => 8 | _ => 3 end <= fuel ->
        collect_work_urls_with_playwright fuel (sim_browser last_control) sim_slug
        = Some (Returns (map sim_url (seq 0 30))))
  /\ collect_work_urls_with_playwright 7 (sim_browser NextInert) sim_slug = None
  /\ collect_work_urls_with_playwright 3 button_browser sim_slug
     = Some (Returns (map sim_url (seq 0 30)))
  /\ collect_work_urls_with_playwright 13 gappy_browser sim_slug
     = Some (Returns [sim_url 0; sim_url 1; sim_url 2])
  /\ collect_work_urls_with_playwright 12 gappy_browser sim_slug = None
  /\ length (map sim_url (seq 0 30)) = 30
  /\ NoDup (map sim_url (seq 0 30)).
Proof.
  pose proof sim_harvest as (Hm & Hd & Ht & Hi & Hi7).
  pose proof more_harvests as (Hb & Hg & Hg12).
  split; [exact (click_next_next_page br)|].
  split; [exact (click_next_exhausted br)|].
  split.
  { intros b coll. cbv zeta.
    split; [intros x; exact (scrape_links_elem br slug b coll x)|].
    split; [|exact (scrape_links_zero br slug b coll)].
    pose proof (scrape_links_spec br slug b coll) as H.
    destruct (scrape_links br slug b coll). cbn [fst snd]. tauto. }
  split.
  { intros fuel urls Hrun.
    destruct (collect_stops_first br slug fuel urls Hrun)
      as (b0 & n & Hgo & Hn & Hstop & Hfirst & Hlinks).
    destruct (collect_sorted_set br slug fuel urls Hrun) as (Hs & Hnd & Hq).
    exists b0, n. split; [exact Hgo|]. split; [exact Hn|]. split; [exact Hstop|].
    split; [exact Hfirst|]. split; [exact Hlinks|]. split; [exact Hs|].
    split; [exact Hnd|]. eapply Forall_impl; [exact Hq|]. intros x [Hx _]. exact Hx. }
  split; [exact (collect_returns_by br slug)|].
  split; [exact (collect_more_fuel br slug)|].
  split; [intros U fuel HU Hfuel; exact (collect_terminates br slug U fuel HU Hfuel)|].
  split.
  { intros [] fuel Hfuel.
    - exact (collect_more_fuel _ _ 3 fuel _ Hfuel Hm).
    - exact (collect_more_fuel _ _ 3 fuel _ Hfuel Hd).
    - exact (collect_more_fuel _ _ 8 fuel _ Hfuel Hi).
    - exact (collect_more_fuel _ _ 3 fuel _ Hfuel Ht). }
  split; [exact Hi7|]. split; [exact Hb|]. split; [exact Hg|]. split; [exact Hg12|].
  split; [reflexivity|].
  exact (proj1 (proj2 (collect_sorted_set _ _ _ _ Hm))).
Qed.

(** On the listing with stalls between its links the loop stops in pass
    12, the fifth stall after the third link, and not in an earlier pass;
    on the simulated listing whose last control can be clicked without
    effect, the bound of five passes per link is enough. *)
Lemma harvest_stops_and_returns_sorted_set_witness :
  (exists b0,
     goto gappy_browser = Some b0
     /\ @stops_at ascii_runtime gappy_browser sim_slug b0 12
     /\ (forall m, m < 12 -> ~ @stops_at ascii_runtime gappy_browser sim_slug b0 m)
     /\ forall x,
          x ∈ [sim_url 0; sim_url 1; sim_url 2]
          <-> exists i, i <= 12
                /\ @link_of_pass ascii_runtime gappy_browser sim_slug b0 i x)
  /\ exists r,
       @collect_work_urls_with_playwright ascii_runtime 155
         (sim_browser NextInert) sim_slug = Some r.
Proof.
  pose proof (@harvest_stops_and_returns_sorted_set ascii_runtime
                gappy_browser sim_slug)
    as (_ & _ & _ & Hstops & Hby & _ & _ & _ & _ & _ & Hg & Hg12 & _).
  split.
  - destruct (Hstops 13 _ Hg)
      as (b0 & n & Hgo & Hn & Hstop & Hfirst & Hlinks & _).
    assert (n = 12) as ->.
    { destruct (Nat.eq_dec n 12) as [|Hne]; [assumption|].
      destruct (Hby b0 n 12 Hgo Hstop ltac:(lia)) as [urls Hr].
      rewrite Hg12 in Hr. discriminate. }
    exists b0. auto.
  - apply (proj1 (proj2 (proj2 (proj2 (proj2 (proj2 (proj2
             (@harvest_stops_and_returns_sorted_set ascii_runtime
                (sim_browser NextInert) sim_slug))))))) sim_links 155).
    + apply sim_links_complete.
    + vm_compute. lia.
Defined.
